(** * secret-mapping: keyword derivation, cross-source matching and export

    A shallow embedding of the reconciliation core of the repository:
    the keyword derivers and the normalizer, the match resolver and the
    merger ([findTHMatch], [combine]) and the slim projection
    ([toGondolinExport]), followed by the properties the specification
    states about them.

    Conventions of the embedding.
    - A Go [string] is a byte sequence; it is a Rocq [string] here (a list
      of 8-bit [ascii]).  [strings.ToLower] and [strings.TrimSpace] are
      embedded as Go computes them on ASCII text, which is what the two
      catalogs contain: letters A-Z are folded byte by byte, the white
      space bytes are tab, line feed, vertical tab, form feed, carriage
      return and space.
    - A Go [map] is a [gmap].  Go leaves the order of [range] over a map
      unspecified; every such loop of the source takes the order it
      visits the keys in from an explicit oracle, so that a theorem which
      holds for every oracle holds for every order the runtime may pick.
    - [sort.Strings] sorts bytewise; [sort.Slice] is not stable and is a
      parameter of which only what the library documents is assumed.
    - [time.Now] is an input of [combine].
    - The counters of the statistics are Go [int]s that count elements of
      slices held in memory; they cannot wrap around and are [nat]s. *)

From Stdlib Require Import ZArith Ascii String List Bool Lia.
From stdpp Require Import base list sorting gmap strings fin_maps.

Open Scope string_scope.
Open Scope list_scope.
Open Scope nat_scope.

(** ** Go's string library on ASCII text *)

Module GoStrings.

Definition lowerByte (c : ascii) : ascii :=
  let n := N_of_ascii c in
  if ((65 <=? n) && (n <=? 90))%N then ascii_of_N (n + 32) else c.

(** [strings.ToLower]. *)
Fixpoint ToLower (s : string) : string :=
  match s with
  | EmptyString => EmptyString
  | String c t => String (lowerByte c) (ToLower t)
  end.

(** [strings.ReplaceAll(s, old, "")] for a one-byte [old]. *)
Fixpoint ReplaceAllEmpty (s : string) (old : ascii) : string :=
  match s with
  | EmptyString => EmptyString
  | String c t =>
      if Ascii.eqb c old then ReplaceAllEmpty t old
      else String c (ReplaceAllEmpty t old)
  end.

Fixpoint trimLeft (s : string) : string :=
  match s with
  | EmptyString => EmptyString
  | String c t => if Ascii.is_space c then trimLeft t else s
  end.

Fixpoint trimRight (s : string) : string :=
  match s with
  | EmptyString => EmptyString
  | String c t =>
      match trimRight t with
      | EmptyString => if Ascii.is_space c then EmptyString else String c EmptyString
      | t' => String c t'
      end
  end.

(** [strings.TrimSpace]. *)
Definition TrimSpace (s : string) : string := trimRight (trimLeft s).

(** [strings.Split(s, sep)] for a one-byte [sep]: one more piece than
    there are separators. *)
Fixpoint Split (s : string) (sep : ascii) : list string :=
  match s with
  | EmptyString => [EmptyString]
  | String c t =>
      if Ascii.eqb c sep then EmptyString :: Split t sep
      else match Split t sep with
           | p :: ps => String c p :: ps
           | [] => [String c EmptyString]
           end
  end.

(** [strings.Join]. *)
Fixpoint Join (elems : list string) (sep : string) : string :=
  match elems with
  | [] => EmptyString
  | [e] => e
  | e :: es => e +:+ sep +:+ Join es sep
  end.

(** [strings.HasPrefix(s, prefix)]. *)
Definition HasPrefix (s pre : string) : bool := String.prefix pre s.

(** [strings.HasSuffix(s, suffix)]. *)
Definition HasSuffix (s suf : string) : bool :=
  (String.length suf <=? String.length s)%nat &&
  String.eqb (substring (String.length s - String.length suf) (String.length suf) s) suf.

(** The slice expression [s[:n]]. *)
Definition sliceTo (s : string) (n : nat) : string := substring 0 n s.

End GoStrings.

Import GoStrings.

(** ** The keyword tables *)

Definition credentialSuffixes : list string :=
  [ "personalaccesstoken"; "personaltoken"; "personalapikey";
    "organizationapi"; "globalapikey"; "apppassword"; "consumerkey";
    "orgtoken"; "bottoken"; "accesstoken"; "apitokenv2"; "apitoken";
    "apikey"; "api"; "oauth2"; "oauth"; "webhook"; "tokenv2"; "tokenv3";
    "token"; "cakey"; "key";
    "v2"; "v3";
    "cloud"; "license" ].

Definition credentialWordList : list string :=
  [ "api"; "key"; "token"; "secret"; "password"; "credential"; "credentials";
    "access"; "auth"; "authentication"; "oauth"; "pat"; "sso"; "scim";
    "admin"; "user"; "client"; "service"; "bot"; "app"; "org";
    "organization"; "account"; "personal"; "personnal";
    "public"; "pub"; "private"; "global"; "shared"; "custom"; "sensitive";
    "long"; "short"; "lived"; "fine"; "grained"; "legacy"; "workspace";
    "routable"; "test"; "batch"; "bearer";
    "deploy"; "runner"; "cicd"; "job"; "trigger"; "registration";
    "pipeline"; "feed"; "incoming"; "session"; "cookie"; "kubernetes";
    "agent"; "feature"; "flag"; "cloud"; "upload"; "reference"; "identity";
    "signing"; "encryption"; "ca"; "origin"; "insert"; "browser"; "base64";
    "config"; "refresh";
    "webhook"; "url"; "header"; "page";
    "ptt"; "rrt" ].

(** [credentialWords] is a [map[string]bool] in which every listed word
    maps to [true]. *)
Definition credentialWords : gmap string bool :=
  list_to_map ((λ w, (w, true)) <$> credentialWordList).

Definition glServiceOverrides : gmap string string :=
  list_to_map
    [ ("aws-amazon-bedrock", "aws");
      ("contentful-delivery", "contentful");
      ("curl", "curl");
      ("hashicorp-tf", "hashicorp");
      ("microsoft-teams", "microsoft-teams");
      ("new-relic", "newrelic");
      ("settlemint-application", "settlemint");
      ("yandex-aws", "yandex") ].

Definition thKeywordOverrides : gmap string string :=
  list_to_map
    [ ("gcpapplicationdefaultcredentials", "gcp");
      ("hubspot_apikey", "hubspot");
      ("adafruitio", "adafruit");
      ("adobeio", "adobe");
      ("flyio", "flyio");
      ("frameio", "frameio");
      ("privatekey", "privatekey");
      ("sonarcloud", "sonar") ].

Definition serviceAliases : gmap string string :=
  list_to_map
    [ ("cisco-meraki", "meraki");
      ("maxmind-license", "maxmind");
      ("private-key", "privatekey") ].

(** Reading a [map[string]bool] at a key that may be absent gives the
    zero value [false]. *)
Definition lookupBool (m : gmap string bool) (k : string) : bool :=
  default false (m !! k).

(** ** The keyword derivers and the normalizer *)

(** The loop of [deriveKeywordFromGitleaksID]: the tokens before the
    first credential word. *)
Fixpoint serviceParts (parts : list string) : list string :=
  match parts with
  | [] => []
  | p :: ps => if lookupBool credentialWords p then [] else p :: serviceParts ps
  end.

Definition deriveKeywordFromGitleaksID (ruleID : string) : string :=
  let ruleID := ToLower (TrimSpace ruleID) in
  if String.eqb ruleID "" then ""
  else
    let parts := Split ruleID "-" in
    let sp := serviceParts parts in
    match sp with
    | [] => ruleID
    | _ =>
        let name := Join sp "-" in
        match glServiceOverrides !! name with
        | Some override => override
        | None => name
        end
    end.

(** The suffix loop of [deriveKeywordFromTHName]: the first suffix that
    ends [dirName] and leaves at least three bytes decides. *)
Fixpoint stripSuffixes (dirName : string) (suffixes : list string) : string :=
  match suffixes with
  | [] => dirName
  | suffix :: rest =>
      if HasSuffix dirName suffix then
        let base := sliceTo dirName (String.length dirName - String.length suffix) in
        if (3 <=? String.length base)%nat then base
        else stripSuffixes dirName rest
      else stripSuffixes dirName rest
  end.

Definition deriveKeywordFromTHName (dirName : string) : string :=
  let dirName := ToLower (TrimSpace dirName) in
  if String.eqb dirName "" then ""
  else
    match thKeywordOverrides !! dirName with
    | Some override => override
    | None => stripSuffixes dirName credentialSuffixes
    end.

Definition normalizeKeyword (s : string) : string :=
  let s := ToLower s in
  let s := ReplaceAllEmpty s "-" in
  let s := ReplaceAllEmpty s "_" in
  s.

(** ** The records of the two catalogs and of the merged dataset *)

(** A [float64] is only ever copied by the core; it is carried as its
    IEEE-754 bit pattern. *)
Definition float64 := Z.

(** A [time.Time], as the instant it denotes. *)
Definition Time := Z.

Module THDetector.
Record t := mk { DirName : string; Keyword : string; Hosts : list string }.
End THDetector.

Module GLRule.
Record t := mk {
  ID : string; Keyword : string; Description : string; Regex : string;
  Entropy : float64; SecretGroup : Z; Keywords : list string }.
End GLRule.

Module CombinedRule.
Record t := mk {
  ID : string; Description : string; Regex : string;
  Entropy : float64; SecretGroup : Z; Keywords : list string }.
End CombinedRule.

Module CombinedSvc.
Record t := mk {
  Keyword : string; Hosts : list string; MatchType : string;
  MatchedTH : list string; Rules : list CombinedRule.t }.
End CombinedSvc.

Module THOnlyEntry.
Record t := mk { Keyword : string; DirName : string; Hosts : list string }.
End THOnlyEntry.

Module CombinedStats.
Record t := mk {
  TotalServices : nat; ServicesWithHosts : nat; ServicesNoHosts : nat;
  THOnlyServices : nat; TotalRules : nat; RulesWithHosts : nat;
  MatchExact : nat; MatchPrefix : nat; MatchAlias : nat }.
Definition zero : t := mk 0 0 0 0 0 0 0 0 0.
End CombinedStats.

Module CombinedExport.
Record t := mk {
  GeneratedAt : Time; Stats : CombinedStats.t;
  Services : list CombinedSvc.t; THOnlyHosts : list THOnlyEntry.t;
  GLNoHosts : list string }.
End CombinedExport.

Module thEntry.
Record t := mk { dirName : string; hosts : list string }.
End thEntry.

Module glGroup.
Record t := mk { keyword : string; rules : list GLRule.t }.
End glGroup.

(** ** The match resolver and the merger *)

(** [sort.Strings]. *)
Definition sortStrings (l : list string) : list string := merge_sort String.le l.

(** The keys of a map in the order a [range] loop visits them. *)
Definition rangeKeys {V} (order : list string → list string) (m : gmap string V)
  : list string := order (map_to_list m).*1.

Definition sortedKeys (order : list string → list string) (m : gmap string bool)
  : list string := sortStrings (rangeKeys order m).

Definition isPrefixMatch (glNorm thNorm : string) : Prop :=
  thNorm ≠ glNorm ∧ HasPrefix thNorm glNorm = true.

Global Instance isPrefixMatch_dec glNorm thNorm : Decision (isPrefixMatch glNorm thNorm).
Proof. unfold isPrefixMatch. apply _. Defined.

Definition findTHMatch (order : list string → list string) (glKeyword : string)
    (thByKeyword : gmap string (list thEntry.t)) : list string * string :=
  let glNorm := normalizeKeyword glKeyword in
  match thByKeyword !! glNorm with
  | Some _ => ([glNorm], "exact")
  | None =>
      let aliasHit :=
        match serviceAliases !! glKeyword with
        | Some alias =>
            let aliasNorm := normalizeKeyword alias in
            match thByKeyword !! aliasNorm with
            | Some _ => Some aliasNorm
            | None => None
            end
        | None => None
        end in
      match aliasHit with
      | Some aliasNorm => ([aliasNorm], "alias")
      | None =>
          let matches :=
            if (4 <=? String.length glNorm)%nat
            then filter (isPrefixMatch glNorm) (rangeKeys order thByKeyword)
            else [] in
          match matches with
          | [] => ([], "")
          | _ => (sortStrings matches, "prefix")
          end
      end
  end.

(** The first loop of [combine]: detectors indexed by normalized keyword. *)
Definition indexDetector (m : gmap string (list thEntry.t)) (d : THDetector.t)
  : gmap string (list thEntry.t) :=
  let norm := normalizeKeyword (THDetector.Keyword d) in
  <[norm := default [] (m !! norm) ++
            [thEntry.mk (THDetector.DirName d) (THDetector.Hosts d)]]> m.

Definition indexDetectors (thDetectors : list THDetector.t)
  : gmap string (list thEntry.t) := foldl indexDetector ∅ thDetectors.

(** The second loop: rules grouped by normalized keyword.  The map holds
    pointers to the groups, so appending to [g.rules] changes the group
    the map holds. *)
Definition groupRule (acc : gmap string glGroup.t * list string) (r : GLRule.t)
  : gmap string glGroup.t * list string :=
  let '(glGroupMap, glKeywords) := acc in
  let norm := normalizeKeyword (GLRule.Keyword r) in
  match glGroupMap !! norm with
  | Some g =>
      (<[norm := glGroup.mk (glGroup.keyword g) (glGroup.rules g ++ [r])]> glGroupMap,
       glKeywords)
  | None =>
      (<[norm := glGroup.mk (GLRule.Keyword r) [r]]> glGroupMap,
       glKeywords ++ [norm])
  end.

Definition groupRules (glRules : list GLRule.t)
  : gmap string glGroup.t * list string := foldl groupRule (∅, []) glRules.

(** The loop over the entries of one matched keyword. *)
Definition collectEntry (acc : gmap string bool * gmap string bool * list string)
    (e : thEntry.t) : gmap string bool * gmap string bool * list string :=
  let '(hostSet, thUsed, matchedNames) := acc in
  (foldl (λ hs h, <[h := true]> hs) hostSet (thEntry.hosts e),
   <[thEntry.dirName e := true]> thUsed,
   matchedNames ++ [thEntry.dirName e]).

Definition collectMatch (thByKeyword : gmap string (list thEntry.t))
    (acc : gmap string bool * gmap string bool * list string) (m : string)
  : gmap string bool * gmap string bool * list string :=
  match thByKeyword !! normalizeKeyword m with
  | Some entries => foldl collectEntry acc entries
  | None => acc
  end.

Definition toCombinedRule (r : GLRule.t) : CombinedRule.t :=
  CombinedRule.mk (GLRule.ID r) (GLRule.Description r) (GLRule.Regex r)
    (GLRule.Entropy r) (GLRule.SecretGroup r) (GLRule.Keywords r).

(** What the main loop of [combine] carries from one group to the next. *)
Record LoopState := mkLoopState {
  services : list CombinedSvc.t;
  stats : CombinedStats.t;
  glNoHosts : list string;
  thUsed : gmap string bool }.

Definition addRules (n : nat) (s : CombinedStats.t) : CombinedStats.t :=
  let 'CombinedStats.mk ts wh nh to tr rh me mp ma := s in
  CombinedStats.mk ts wh nh to (tr + n) rh me mp ma.

Definition countMatch (matchType : string) (s : CombinedStats.t) : CombinedStats.t :=
  let 'CombinedStats.mk ts wh nh to tr rh me mp ma := s in
  if String.eqb matchType "exact" then CombinedStats.mk ts wh nh to tr rh (me + 1) mp ma
  else if String.eqb matchType "prefix" then CombinedStats.mk ts wh nh to tr rh me (mp + 1) ma
  else if String.eqb matchType "alias" then CombinedStats.mk ts wh nh to tr rh me mp (ma + 1)
  else s.

Definition countWithHosts (n : nat) (matchType : string) (s : CombinedStats.t)
  : CombinedStats.t :=
  let 'CombinedStats.mk ts wh nh to tr rh me mp ma := s in
  countMatch matchType (CombinedStats.mk ts (wh + 1) nh to tr (rh + n) me mp ma).

Definition countNoHosts (s : CombinedStats.t) : CombinedStats.t :=
  let 'CombinedStats.mk ts wh nh to tr rh me mp ma := s in
  CombinedStats.mk ts wh (nh + 1) to tr rh me mp ma.

Definition setTotals (nServices nTHOnly : nat) (s : CombinedStats.t) : CombinedStats.t :=
  let 'CombinedStats.mk _ wh nh _ tr rh me mp ma := s in
  CombinedStats.mk (nServices + nTHOnly) wh nh nTHOnly tr rh me mp ma.

Definition toTHOnlyEntry (d : THDetector.t) : THOnlyEntry.t :=
  THOnlyEntry.mk (THDetector.Keyword d) (THDetector.DirName d) (THDetector.Hosts d).

Definition lessKeyword (a b : THOnlyEntry.t) : bool :=
  String.ltb (THOnlyEntry.Keyword a) (THOnlyEntry.Keyword b).

Section Combine.

(** [sort.Slice], and the orders in which the runtime walks maps: the
    [n]-th [range] over a map visits the keys [ks] as [mapOrder n ks]. *)
Variable sortSlice : ∀ A : Type, (A → A → bool) → list A → list A.
Variable mapOrder : nat → list string → list string.

(** One turn of the main loop, for the [i]-th keyword of [glKeywords]. *)
Definition mergeGroup (thByKeyword : gmap string (list thEntry.t))
    (i : nat) (glg : glGroup.t) (st : LoopState) : LoopState :=
  let '(matchedTH, matchType) :=
    findTHMatch (mapOrder (2 * i)) (glGroup.keyword glg) thByKeyword in
  let '(hostSet, thUsed', matchedNames) :=
    foldl (collectMatch thByKeyword) (∅, thUsed st, []) matchedTH in
  let hosts := sortedKeys (mapOrder (2 * i + 1)) hostSet in
  let matchedNames := sortStrings matchedNames in
  let combinedRules := toCombinedRule <$> glGroup.rules glg in
  let svc :=
    CombinedSvc.mk (glGroup.keyword glg) hosts matchType matchedNames combinedRules in
  let stats' := addRules (length (glGroup.rules glg)) (stats st) in
  if (0 <? length hosts)%nat then
    mkLoopState (services st ++ [svc])
      (countWithHosts (length (glGroup.rules glg)) matchType stats')
      (glNoHosts st) thUsed'
  else
    mkLoopState (services st ++ [svc]) (countNoHosts stats')
      (glNoHosts st ++ [glGroup.keyword glg]) thUsed'.

(** The main loop.  [glGroupMap[normKey]] is a pointer that the loop
    dereferences: on a key without a group the program would stop with
    a nil dereference, which is [None] here. *)
Fixpoint mergeLoop (thByKeyword : gmap string (list thEntry.t))
    (glGroupMap : gmap string glGroup.t) (i : nat) (glKeywords : list string)
    (st : LoopState) : option LoopState :=
  match glKeywords with
  | [] => Some st
  | normKey :: rest =>
      match glGroupMap !! normKey with
      | Some glg =>
          mergeLoop thByKeyword glGroupMap (S i) rest (mergeGroup thByKeyword i glg st)
      | None => None
      end
  end.

Definition thOnlyEntries (thUsed : gmap string bool) (thDetectors : list THDetector.t)
  : list THOnlyEntry.t :=
  toTHOnlyEntry <$>
    filter (λ d, lookupBool thUsed (THDetector.DirName d) = false) thDetectors.

Definition combine (now : Time) (thDetectors : list THDetector.t)
    (glRules : list GLRule.t) : option CombinedExport.t :=
  let thByKeyword := indexDetectors thDetectors in
  let '(glGroupMap, glKeywords) := groupRules glRules in
  let glKeywords := sortStrings glKeywords in
  match mergeLoop thByKeyword glGroupMap 0 glKeywords
          (mkLoopState [] CombinedStats.zero [] ∅) with
  | None => None
  | Some st =>
      let thOnly := sortSlice _ lessKeyword (thOnlyEntries (thUsed st) thDetectors) in
      Some (CombinedExport.mk now
              (setTotals (length (services st)) (length thOnly) (stats st))
              (services st) thOnly (sortStrings (glNoHosts st)))
  end.

End Combine.

(** Insertion sort as [sort.Slice] runs it on slices of at most twelve
    elements: each element sinks from the right end of the sorted part
    while it is less than its left neighbour.  It is one instance of the
    parameter [sortSlice].  The sorted part is kept reversed. *)
Fixpoint sink {A} (less : A → A → bool) (x : A) (sorted : list A) : list A :=
  match sorted with
  | [] => [x]
  | y :: rest => if less x y then y :: sink less x rest else x :: sorted
  end.

Definition insertionSort (A : Type) (less : A → A → bool) (l : list A) : list A :=
  reverse (foldl (λ sorted x, sink less x sorted) [] l).

Definition keepOrder (n : nat) (ks : list string) : list string := ks.

(** ** The export projector *)

Module ValuePattern.
Record t := mk {
  ID : string; Keyword : string; Regex : string;
  Keywords : list string; SecretGroup : Z }.
End ValuePattern.

Module GondolinExport.
Record t := mk {
  SchemaVersion : Z; GeneratedAt : Time;
  KeywordHostMap : gmap string (list string);
  ExactNameHostMap : gmap string (list string);
  ValuePatterns : list ValuePattern.t }.
End GondolinExport.

Definition exactNameHostMap : gmap string (list string) :=
  list_to_map
    [ ("NODE_AUTH_TOKEN", ["registry.npmjs.org"]);
      ("DD_API_KEY", ["api.datadoghq.com"; "*.datadoghq.com"]);
      ("HF_TOKEN", ["huggingface.co"; "*.huggingface.co"]);
      ("CO_API_KEY", ["api.cohere.com"]);
      ("FLY_API_TOKEN", ["api.fly.io"]);
      ("RENDER_API_KEY", ["api.render.com"]);
      ("LINEAR_API_KEY", ["api.linear.app"]);
      ("TOGETHER_API_KEY", ["api.together.xyz"]);
      ("REPLICATE_API_TOKEN", ["api.replicate.com"]) ].

(** The first loop of [toGondolinExport]. *)
Definition indexHosts (acc : gmap string (list string) * gmap string bool)
    (svc : CombinedSvc.t) : gmap string (list string) * gmap string bool :=
  let '(keywordHosts, hasHosts) := acc in
  if (0 <? length (CombinedSvc.Hosts svc))%nat then
    (<[CombinedSvc.Keyword svc := CombinedSvc.Hosts svc]> keywordHosts,
     <[normalizeKeyword (CombinedSvc.Keyword svc) := true]> hasHosts)
  else acc.

(** The body of the second loop: the pattern of rule [r] of [svc]. *)
Definition toValuePattern (hasHosts : gmap string bool) (svc : CombinedSvc.t)
    (r : CombinedRule.t) : ValuePattern.t :=
  ValuePattern.mk (CombinedRule.ID r)
    (if lookupBool hasHosts (normalizeKeyword (CombinedSvc.Keyword svc))
     then CombinedSvc.Keyword svc else "")
    (CombinedRule.Regex r) (CombinedRule.Keywords r) (CombinedRule.SecretGroup r).

Definition servicePatterns (hasHosts : gmap string bool) (svc : CombinedSvc.t)
  : list ValuePattern.t := toValuePattern hasHosts svc <$> CombinedSvc.Rules svc.

(** The comparison given to [sort.Slice]: linked patterns first, then by
    keyword, then by id. *)
Definition lessPattern (pi pj : ValuePattern.t) : bool :=
  let ki := ValuePattern.Keyword pi in
  let kj := ValuePattern.Keyword pj in
  if String.eqb ki "" && negb (String.eqb kj "") then false
  else if negb (String.eqb ki "") && String.eqb kj "" then true
  else if negb (String.eqb ki kj) then String.ltb ki kj
  else String.ltb (ValuePattern.ID pi) (ValuePattern.ID pj).

(** The copy of [exactNameHostMap], key by key in the order the runtime
    walks the table. *)
Definition copyEntry (table : gmap string (list string))
    (m : gmap string (list string)) (k : string) : gmap string (list string) :=
  match table !! k with
  | Some v => <[k := v]> m
  | None => m
  end.

Section Gondolin.

Variable sortSlice : ∀ A : Type, (A → A → bool) → list A → list A.
Variable tableOrder : list string → list string.

Definition toGondolinExport (full : CombinedExport.t) : GondolinExport.t :=
  let '(keywordHosts, hasHosts) :=
    foldl indexHosts (∅, ∅) (CombinedExport.Services full) in
  let patterns := CombinedExport.Services full ≫= servicePatterns hasHosts in
  let patterns := sortSlice _ lessPattern patterns in
  let exactMap :=
    foldl (copyEntry exactNameHostMap) ∅ (rangeKeys tableOrder exactNameHostMap) in
  GondolinExport.mk 1 (CombinedExport.GeneratedAt full)
    keywordHosts exactMap patterns.

End Gondolin.

(** ** Notions the statements below are phrased with *)

(** The bytes of the normal form, as the specification words it: the
    input lowercased, with hyphens and underscores removed. *)
Definition isSeparator (c : ascii) : Prop := c = "-"%char ∨ c = "_"%char.

Global Instance isSeparator_dec c : Decision (isSeparator c).
Proof. unfold isSeparator. apply _. Defined.

Definition normalizeSpec (s : string) : string :=
  string_of_list_ascii
    (filter (λ c, ¬ isSeparator c) (lowerByte <$> list_ascii_of_string s)).

(** A suffix is accepted for a name when it ends the name and leaves at
    least three bytes. *)
Definition accepted (name suffix : string) : bool :=
  HasSuffix name suffix &&
  (3 <=? String.length name - String.length suffix)%nat.

(** The rule-side override table applied to a candidate keyword. *)
Definition overridden (name : string) : string :=
  default name (glServiceOverrides !! name).

(** The alias tier misses: the keyword has no alias, or its alias is not a
    key of the index. *)
Definition aliasMisses (glKeyword : string) (thByKeyword : gmap string (list thEntry.t))
  : Prop :=
  ∀ alias, serviceAliases !! glKeyword = Some alias →
           thByKeyword !! normalizeKeyword alias = None.

(** What the prefix tier looks for: a key of the index that starts with
    the normalized rule keyword and is not that keyword. *)
Definition prefixCandidate (glNorm : string) (thByKeyword : gmap string (list thEntry.t))
    (k : string) : Prop :=
  is_Some (thByKeyword !! k) ∧ k ≠ glNorm ∧ ∃ rest, k = glNorm +:+ rest.

(** Marking a list of keys in a [map[string]bool]. *)
Definition addKeys (m : gmap string bool) (ks : list string) : gmap string bool :=
  foldl (λ m k, <[k := true]> m) m ks.

(** The entries of the index that a list of matched keywords selects, in
    the order the loops of [combine] visit them. *)
Definition matchedEntries (thByKeyword : gmap string (list thEntry.t))
    (matchedTH : list string) : list thEntry.t :=
  matchedTH ≫= (λ m, default [] (thByKeyword !! normalizeKeyword m)).

(** The service that one turn of the main loop builds for a group, when
    the two maps of that turn are walked in the orders [o1] and [o2]. *)
Definition groupService (o1 o2 : list string → list string)
    (thByKeyword : gmap string (list thEntry.t)) (glg : glGroup.t) : CombinedSvc.t :=
  let found := findTHMatch o1 (glGroup.keyword glg) thByKeyword in
  let entries := matchedEntries thByKeyword found.1 in
  CombinedSvc.mk (glGroup.keyword glg)
    (sortedKeys o2 (addKeys ∅ (entries ≫= thEntry.hosts)))
    found.2
    (sortStrings (thEntry.dirName <$> entries))
    (toCombinedRule <$> glGroup.rules glg).

Definition hasHosts (svc : CombinedSvc.t) : Prop := CombinedSvc.Hosts svc ≠ [].

Definition hasHostsVia (matchType : string) (svc : CombinedSvc.t) : Prop :=
  CombinedSvc.Hosts svc ≠ [] ∧ CombinedSvc.MatchType svc = matchType.

(** The statistics of a list of services, counted on the list. *)
Definition statsOf (svcs : list CombinedSvc.t) : CombinedStats.t :=
  CombinedStats.mk 0
    (length (filter hasHosts svcs))
    (length (filter (λ svc, ¬ hasHosts svc) svcs))
    0
    (sum_list_with (length ∘ CombinedSvc.Rules) svcs)
    (sum_list_with (length ∘ CombinedSvc.Rules) (filter hasHosts svcs))
    (length (filter (hasHostsVia "exact") svcs))
    (length (filter (hasHostsVia "prefix") svcs))
    (length (filter (hasHostsVia "alias") svcs)).

(** What the grouping loop maintains: the keys of the map are listed once
    each in [glKeywords], and a group sits at the normal form of its own
    keyword. *)
Definition groupsOk (acc : gmap string glGroup.t * list string) : Prop :=
  NoDup acc.2
  ∧ (∀ k, k ∈ acc.2 ↔ is_Some (acc.1 !! k))
  ∧ (∀ k g, acc.1 !! k = Some g → normalizeKeyword (glGroup.keyword g) = k).

Definition initialState : LoopState := mkLoopState [] CombinedStats.zero [] ∅.

(** The services that list a source name among their matched names, and
    the host-only entries of that name. *)
Definition consumers (out : CombinedExport.t) (name : string) : list CombinedSvc.t :=
  filter (λ svc, name ∈ CombinedSvc.MatchedTH svc) (CombinedExport.Services out).

Definition hostOnly (out : CombinedExport.t) (name : string) : list THOnlyEntry.t :=
  filter (λ e, THOnlyEntry.DirName e = name) (CombinedExport.THOnlyHosts out).

(** The partition as the specification words it: consumed by exactly one
    service, or kept exactly once as a host-only entry. *)
Definition consumedOnceOrKeptOnce (out : CombinedExport.t) (name : string) : Prop :=
  (length (consumers out name) = 1 ∧ hostOnly out name = [])
  ∨ (consumers out name = [] ∧ length (hostOnly out name) = 1).

(** The pattern of rule [r] of service [svc] as the specification words
    it: it carries the keyword of the service if and only if that keyword
    is a key of the keyword-to-hosts map. *)
Definition linkedPattern (keywordHosts : gmap string (list string))
    (svc : CombinedSvc.t) (r : CombinedRule.t) : ValuePattern.t :=
  ValuePattern.mk (CombinedRule.ID r)
    (if decide (is_Some (keywordHosts !! CombinedSvc.Keyword svc))
     then CombinedSvc.Keyword svc else "")
    (CombinedRule.Regex r) (CombinedRule.Keywords r) (CombinedRule.SecretGroup r).

(** The uniqueness invariant of the data model: one service for each
    normalized keyword. *)
Definition uniqueServices (svcs : list CombinedSvc.t) : Prop :=
  NoDup (normalizeKeyword ∘ CombinedSvc.Keyword <$> svcs).

(** The projection scenario of the specification. *)
Definition stripeAndAge : CombinedExport.t :=
  CombinedExport.mk 0%Z
    (CombinedStats.mk 3 1 1 1 0 0 0 0 0)
    [ CombinedSvc.mk "stripe" ["api.stripe.com"] "exact" ["stripe"]
        [CombinedRule.mk "stripe-access-token" "A Stripe secret key"
           "(sk_(?:test|live)_[a-zA-Z0-9]{24,99})" 0%Z 0%Z ["sk_test"; "sk_live"]];
      CombinedSvc.mk "age" [] "" []
        [CombinedRule.mk "age-secret-key" "An age secret key"
           "AGE-SECRET-KEY-1[0-9A-Z]{58}" 0%Z 1%Z ["age-secret-key-"]] ]
    [ THOnlyEntry.mk "abstract" "abstract" ["exchange-rates.abstractapi.com"] ]
    ["age"].

(** ** Sample catalogs *)

Definition sampleRule (id keyword : string) : GLRule.t :=
  GLRule.mk id keyword "" "[a-f0-9]{40}" 0%Z 0%Z [].

Definition sampleDetectors : list THDetector.t :=
  [ THDetector.mk "foobartoken" "foobar" ["api.foobar.com"];
    THDetector.mk "foobazkey" "foobaz" ["api.foobaz.com"; "api.foobar.com"];
    THDetector.mk "meraki" "meraki" ["api.meraki.com"];
    THDetector.mk "nogl" "nogl" ["api.nogl.com"];
    THDetector.mk "quiet" "quiet" [] ].

Definition sampleRules : list GLRule.t :=
  [ sampleRule "cisco-meraki-api-key" "cisco-meraki";
    sampleRule "meraki-key" "meraki";
    sampleRule "fooba-token" "fooba";
    sampleRule "noth-secret" "noth";
    sampleRule "quiet-token" "quiet";
    sampleRule "quiet-key" "Quiet" ].

Definition merakiDetectors : list THDetector.t :=
  [ THDetector.mk "meraki" "meraki" ["api.meraki.com"] ].

Definition merakiRules : list GLRule.t :=
  [ sampleRule "cisco-meraki-api-key" "cisco-meraki";
    sampleRule "meraki-key" "meraki" ].

Definition sampleIndex : gmap string (list thEntry.t) := indexDetectors sampleDetectors.

(** ** Further notions *)

(** The entries that the detectors of normalized keyword [k] leave in the
    index, and the rules of normalized keyword [k], both in input order. *)
Definition toEntry (d : THDetector.t) : thEntry.t :=
  thEntry.mk (THDetector.DirName d) (THDetector.Hosts d).

Definition detectorsFor (k : string) (thDetectors : list THDetector.t)
  : list THDetector.t :=
  filter (λ d, normalizeKeyword (THDetector.Keyword d) = k) thDetectors.

Definition rulesFor (k : string) (glRules : list GLRule.t) : list GLRule.t :=
  filter (λ r, normalizeKeyword (GLRule.Keyword r) = k) glRules.

(** [countLinkedPatterns], of the main program. *)
Definition countLinkedPatterns (patterns : list ValuePattern.t) : nat :=
  foldl (λ n p, if negb (String.eqb (ValuePattern.Keyword p) "") then n + 1 else n)
    0 patterns.

(** What [sort.Slice] leaves behind when [less] is a strict weak order: no
    element is less than one that stands before it. *)
Definition noInversion {A} (less : A → A → bool) (l : list A) : Prop :=
  StronglySorted (λ a b, less b a = false) l.

(** ** The readers of the two catalogs *)

(** A Go result [(value, error)] of which exactly one part is set. *)
Inductive result (E A : Type) : Type :=
  | Ok (a : A)
  | Err (e : E).

Arguments Ok {E A} a.
Arguments Err {E A} e.

(** The part of a rule of [gitleaks.toml] that the decoder fills. *)
Module gitleaksRule.
Record t := mk {
  ID : string; Description : string; Regex : string; Entropy : float64;
  SecretGroup : Z; Keywords : list string; Tags : list string;
  SkipReport : bool; Path : string }.
End gitleaksRule.

Module gitleaksConfig.
Record t := mk { Title : string; MinVersion : string; Rules : list gitleaksRule.t }.
End gitleaksConfig.

(** The two [continue]s of the loop of [extractGitleaksRules]. *)
Definition keepRule (r : gitleaksRule.t) : bool :=
  if gitleaksRule.SkipReport r then false
  else if String.eqb (TrimSpace (gitleaksRule.Regex r)) "" then false
  else true.

Definition toGLRule (r : gitleaksRule.t) : GLRule.t :=
  GLRule.mk (gitleaksRule.ID r) (deriveKeywordFromGitleaksID (gitleaksRule.ID r))
    (gitleaksRule.Description r) (gitleaksRule.Regex r) (gitleaksRule.Entropy r)
    (gitleaksRule.SecretGroup r) (gitleaksRule.Keywords r).

(** The comparison that [extractGitleaksRules] gives to [sort.Slice]. *)
Definition lessRule (a b : GLRule.t) : bool :=
  if String.eqb (GLRule.Keyword a) (GLRule.Keyword b)
  then String.ltb (GLRule.ID a) (GLRule.ID b)
  else String.ltb (GLRule.Keyword a) (GLRule.Keyword b).

(** What [os.ReadDir] tells of an entry. *)
Module DirEntry.
Record t := mk { Name : string; IsDir : bool }.
End DirEntry.

Module THExtractOptions.
Record t := mk { AllowIPHosts : bool }.
End THExtractOptions.

(** [versionDirRe], the expression [^v(\d+)$]: the digits it captures. *)
Definition isDigit (c : ascii) : bool :=
  let n := N_of_ascii c in ((48 <=? n) && (n <=? 57))%N.

Fixpoint allDigits (s : string) : bool :=
  match s with
  | EmptyString => true
  | String c t => isDigit c && allDigits t
  end.

Definition versionDirRe (name : string) : option string :=
  match name with
  | String "v" digits =>
      if negb (String.eqb digits "") && allDigits digits then Some digits else None
  | _ => None
  end.

(** [strconv.Atoi] where [int] has 64 bits: an optional sign and decimal
    digits, an error out of range. *)
Definition maxInt : Z := (2 ^ 63 - 1)%Z.

Definition minInt : Z := (- 2 ^ 63)%Z.

Fixpoint digitsValue (acc : Z) (s : string) : Z :=
  match s with
  | EmptyString => acc
  | String c t => digitsValue (10 * acc + Z.of_N (N_of_ascii c - 48))%Z t
  end.

Definition parseDigits (s : string) : option Z :=
  if negb (String.eqb s "") && allDigits s then Some (digitsValue 0 s) else None.

Definition Atoi (s : string) : option Z :=
  let signed :=
    match s with
    | String "+" t => parseDigits t
    | String "-" t => Z.opp <$> parseDigits t
    | _ => parseDigits s
    end in
  match signed with
  | Some v => if ((minInt <=? v) && (v <=? maxInt))%Z then Some v else None
  | None => None
  end.

(** The comparison that [extractTrufflehogDetectors] gives to
    [sort.Slice]. *)
Definition lessDirName (a b : THDetector.t) : bool :=
  String.ltb (THDetector.DirName a) (THDetector.DirName b).

Section Readers.

(** The file system and the two decoders are parameters: [ReadFile] and
    [ReadDir] are [os.ReadFile] and [os.ReadDir] on a file system that
    does not change during the run, [Unmarshal] is [toml.Unmarshal] into
    an empty [gitleaksConfig], [pathJoin] is [filepath.Join] of two
    elements, [errorText] is the method [Error] and
    [extractHostsFromGoPackage] is the function of that name, which
    walks the syntax trees of a Go package. *)
Context {error : Type}.
Variable ReadFile : string → result error string.
Variable Unmarshal : string → result error gitleaksConfig.t.
Variable ReadDir : string → result error (list DirEntry.t).
Variable pathJoin : string → string → string.
Variable errorText : error → string.
Variable extractHostsFromGoPackage :
  string → THExtractOptions.t → list string * list error * option error.
Variable sortSlice : ∀ A : Type, (A → A → bool) → list A → list A.

Definition extractGitleaksRules (tomlPath : string) : result error (list GLRule.t) :=
  match ReadFile tomlPath with
  | Err err => Err err
  | Ok data =>
      match Unmarshal data with
      | Err err => Err err
      | Ok cfg =>
          let rules := toGLRule <$> filter (λ r, keepRule r = true) (gitleaksConfig.Rules cfg) in
          Ok (sortSlice _ lessRule rules)
      end
  end.

(** One turn of the loop of [chooseHighestVersionDir] on the pair of
    [bestVersion] and [bestDir]. *)
Definition pickVersion (serviceDir : string) (best : Z * string) (e : DirEntry.t)
  : Z * string :=
  if negb (DirEntry.IsDir e) then best
  else
    match versionDirRe (DirEntry.Name e) with
    | None => best
    | Some digits =>
        match Atoi digits with
        | None => best
        | Some v =>
            if (best.1 <? v)%Z then (v, pathJoin serviceDir (DirEntry.Name e))
            else best
        end
    end.

Definition chooseHighestVersionDir (serviceDir : string) : result error string :=
  match ReadDir serviceDir with
  | Err err => Err err
  | Ok entries =>
      let best := foldl (pickVersion serviceDir) ((-1)%Z, "") entries in
      if negb (String.eqb best.2 "") then Ok best.2 else Ok serviceDir
  end.

(** One turn of the loop of [extractTrufflehogDetectors] on the three
    slices [detectors], [skipped] and [warnings]. *)
Definition scanEntry (detectorsRoot : string) (opts : THExtractOptions.t)
    (acc : list THDetector.t * list string * list error) (e : DirEntry.t)
  : list THDetector.t * list string * list error :=
  let '(detectors, skipped, warnings) := acc in
  if negb (DirEntry.IsDir e) then acc
  else
    let dirName := DirEntry.Name e in
    let svcDir := pathJoin detectorsRoot dirName in
    match chooseHighestVersionDir svcDir with
    | Err err => (detectors, skipped ++ [dirName +:+ ": " +:+ errorText err], warnings)
    | Ok parseDir =>
        let '(hosts, ws, err) := extractHostsFromGoPackage parseDir opts in
        let warnings := warnings ++ ws in
        match err with
        | Some err =>
            (detectors, skipped ++ [dirName +:+ ": " +:+ errorText err], warnings)
        | None =>
            if (length hosts =? 0)%nat then (detectors, skipped, warnings)
            else
              (detectors ++
                 [THDetector.mk dirName (deriveKeywordFromTHName dirName)
                    (sortStrings hosts)],
               skipped, warnings)
        end
    end.

Definition extractTrufflehogDetectors (detectorsRoot : string)
    (opts : THExtractOptions.t)
  : result error (list THDetector.t * list string * list error) :=
  match ReadDir detectorsRoot with
  | Err err => Err err
  | Ok entries =>
      let '(detectors, skipped, warnings) :=
        foldl (scanEntry detectorsRoot opts) ([], [], []) entries in
      Ok (sortSlice _ lessDirName detectors, sortStrings skipped, warnings)
  end.

End Readers.

(** The version that [chooseHighestVersionDir] reads off an entry. *)
Definition versionOf (e : DirEntry.t) : option Z :=
  if DirEntry.IsDir e then versionDirRe (DirEntry.Name e) ≫= Atoi else None.

(** A file system of one service directory, and a rule file. *)
Definition sampleEntries : list DirEntry.t :=
  [ DirEntry.mk "v1" true; DirEntry.mk "v10" true; DirEntry.mk "v2" true;
    DirEntry.mk "v99" false; DirEntry.mk "v010" true; DirEntry.mk "vx" true ].

Definition sampleConfig : gitleaksConfig.t :=
  gitleaksConfig.mk "sample" "v8"
    [ gitleaksRule.mk "stripe-access-token" "" "sk_live" 0%Z 0%Z [] [] false "";
      gitleaksRule.mk "age-secret-key" "" "AGE" 0%Z 0%Z [] [] false "";
      gitleaksRule.mk "generic-api-key" "" "key" 0%Z 0%Z [] [] true "";
      gitleaksRule.mk "pkcs12-file" "" "  " 0%Z 0%Z [] [] false "p12" ].

(** What one entry of the detectors directory adds to the three slices
    of [extractTrufflehogDetectors]. *)
Definition entryOutcome {error : Type}
    (ReadDir : string → result error (list DirEntry.t))
    (pathJoin : string → string → string) (errorText : error → string)
    (extractHostsFromGoPackage :
       string → THExtractOptions.t → list string * list error * option error)
    (detectorsRoot : string) (opts : THExtractOptions.t) (e : DirEntry.t)
  : option THDetector.t * list string * list error :=
  if DirEntry.IsDir e then
    match chooseHighestVersionDir ReadDir pathJoin
            (pathJoin detectorsRoot (DirEntry.Name e)) with
    | Err err => (None, [DirEntry.Name e +:+ ": " +:+ errorText err], [])
    | Ok parseDir =>
        let '(hosts, ws, err) := extractHostsFromGoPackage parseDir opts in
        match err, hosts with
        | Some err, _ => (None, [DirEntry.Name e +:+ ": " +:+ errorText err], ws)
        | None, [] => (None, [], ws)
        | None, _ =>
            (Some (THDetector.mk (DirEntry.Name e)
                     (deriveKeywordFromTHName (DirEntry.Name e)) (sortStrings hosts)),
             [], ws)
        end
    end
  else (None, [], []).

(** A detectors directory: two detectors, one of them versioned, a
    directory without hosts, a directory that cannot be read, and a file. *)
Definition sampleReadDir (path : string) : result string (list DirEntry.t) :=
  if String.eqb path "detectors" then
    Ok [ DirEntry.mk "stripeapikey" true; DirEntry.mk "README.md" false;
         DirEntry.mk "github" true; DirEntry.mk "nohosts" true;
         DirEntry.mk "locked" true ]
  else if String.eqb path "detectors/github" then Ok sampleEntries
  else if String.eqb path "detectors/locked" then Err "permission denied"
  else Ok [].

Definition sampleJoin (dir name : string) : string := dir +:+ "/" +:+ name.

Definition sampleHosts (dir : string) (opts : THExtractOptions.t)
  : list string * list string * option string :=
  if String.eqb dir "detectors/github/v10" then
    (["uploads.github.com"; "api.github.com"], ["github.go:12: parse url"], None)
  else if String.eqb dir "detectors/stripeapikey" then (["api.stripe.com"], [], None)
  else ([], [], None).

(** ** Writing the output file *)

(** The calls that [writeJSONAtomic] makes to the operating system and
    to the encoder. *)
Inductive Call : Type :=
  | CallStat (path : string)
  | CallCreateTemp (dir pattern : string)
  | CallChmod (path : string) (mode : N)
  | CallEncode (path : string)
  | CallSync (path : string)
  | CallClose (path : string)
  | CallRemove (path : string)
  | CallRename (oldpath newpath : string)
  | CallOpen (path : string)
  | CallDirSync (path : string)
  | CallDirClose (path : string).

(** What the calls answer during one run: [None] is Go's [nil] error.
    [CreateTemp] answers with the name of the file it made. *)
Module OS.
Record t (error : Type) := mk {
  Stat : string → option error;
  IsNotExist : error → bool;
  CreateTemp : string → string → result error string;
  Chmod : string → option error;
  Encode : string → option error;
  Sync : string → option error;
  Close : string → option error;
  Rename : string → string → option error;
  Open : string → option error }.
Arguments Stat {error} _ _.
Arguments IsNotExist {error} _ _.
Arguments CreateTemp {error} _ _ _.
Arguments Chmod {error} _ _.
Arguments Encode {error} _ _.
Arguments Sync {error} _ _.
Arguments Close {error} _ _.
Arguments Rename {error} _ _ _.
Arguments Open {error} _ _.
End OS.

Section Writer.

(** [pathDir] and [pathBase] are [filepath.Dir] and [filepath.Base].  An
    error made by [fmt.Errorf] is carried as its text. *)
Context {error : Type}.
Variable os : OS.t error.
Variable pathDir : string → string.
Variable pathBase : string → string.
Variable errorText : error → string.

(** From the [Chmod] on: the calls on the temporary file [tmpPath] and
    the error returned. *)
Definition writeTemp (outPath : string) (force : bool) (dir tmpPath : string)
  : list Call * option string :=
  match OS.Chmod os tmpPath with
  | Some err =>
      ([CallChmod tmpPath 420; CallClose tmpPath; CallRemove tmpPath],
       Some ("chmod temp output: " +:+ errorText err))
  | None =>
  match OS.Encode os tmpPath with
  | Some err =>
      ([CallChmod tmpPath 420; CallEncode tmpPath; CallClose tmpPath;
        CallRemove tmpPath],
       Some ("encode json: " +:+ errorText err))
  | None =>
  match OS.Sync os tmpPath with
  | Some err =>
      ([CallChmod tmpPath 420; CallEncode tmpPath; CallSync tmpPath;
        CallClose tmpPath; CallRemove tmpPath],
       Some ("sync temp output: " +:+ errorText err))
  | None =>
  match OS.Close os tmpPath with
  | Some err =>
      ([CallChmod tmpPath 420; CallEncode tmpPath; CallSync tmpPath;
        CallClose tmpPath; CallRemove tmpPath],
       Some ("close temp output: " +:+ errorText err))
  | None =>
      let written :=
        [CallChmod tmpPath 420; CallEncode tmpPath; CallSync tmpPath;
         CallClose tmpPath] ++
        (if force then [CallRemove outPath] else []) ++
        [CallRename tmpPath outPath] in
      match OS.Rename os tmpPath outPath with
      | Some err =>
          (written ++ [CallRemove tmpPath],
           Some ("rename temp output: " +:+ errorText err))
      | None =>
          (written ++
             match OS.Open os dir with
             | None => [CallOpen dir; CallDirSync dir; CallDirClose dir]
             | Some _ => [CallOpen dir]
             end,
           None)
      end
  end end end end.

Definition createAndWrite (outPath : string) (force : bool)
  : list Call * option string :=
  let dir := pathDir outPath in
  let base := pathBase outPath in
  match OS.CreateTemp os dir (base +:+ ".tmp-*") with
  | Err err =>
      ([CallCreateTemp dir (base +:+ ".tmp-*")],
       Some ("create temp output: " +:+ errorText err))
  | Ok tmpPath =>
      let '(calls, err) := writeTemp outPath force dir tmpPath in
      (CallCreateTemp dir (base +:+ ".tmp-*") :: calls, err)
  end.

Definition writeJSONAtomic (outPath : string) (force : bool)
  : list Call * option string :=
  if force then createAndWrite outPath force
  else
    match OS.Stat os outPath with
    | None =>
        ([CallStat outPath],
         Some ("output file already exists: " +:+ outPath
               +:+ " (use -force to overwrite)"))
    | Some err =>
        if OS.IsNotExist os err then
          let '(calls, err) := createAndWrite outPath force in
          (CallStat outPath :: calls, err)
        else ([CallStat outPath], Some ("stat output: " +:+ errorText err))
    end.

End Writer.

(** A run in which every call succeeds and the output is not there yet. *)
Definition sampleOS : OS.t string :=
  OS.mk string (λ _, Some "no such file") (λ _, true)
    (λ dir pattern, Ok (dir +:+ "/out.json.tmp-1"))
    (λ _, None) (λ _, None) (λ _, None) (λ _, None) (λ _ _, None) (λ _, None).

(** * Properties *)

(** ** The normalizer *)

Lemma lowerByte_idemp c : lowerByte (lowerByte c) = lowerByte c.
Proof. destruct c as [[] [] [] [] [] [] [] []]; reflexivity. Qed.

Lemma lowerByte_separator c : isSeparator (lowerByte c) ↔ isSeparator c.
Proof.
  unfold isSeparator.
  destruct c as [[] [] [] [] [] [] [] []]; vm_compute; intuition congruence.
Qed.

Lemma ReplaceAllEmpty_bytes s old :
  list_ascii_of_string (ReplaceAllEmpty s old)
  = filter (λ c, c ≠ old) (list_ascii_of_string s).
Proof.
  induction s as [|c t IH]; simpl; [done|].
  destruct (Ascii.eqb_spec c old) as [->|Hne].
  - rewrite filter_cons_False by (intros H; by apply H). done.
  - rewrite filter_cons_True by done. simpl. by rewrite IH.
Qed.

Lemma ToLower_bytes s :
  list_ascii_of_string (ToLower s) = lowerByte <$> list_ascii_of_string s.
Proof. induction s as [|c t IH]; simpl; [done|]. by rewrite IH. Qed.

Lemma filter_filter_sep (l : list ascii) :
  filter (λ c, c ≠ "_"%char) (filter (λ c, c ≠ "-"%char) l)
  = filter (λ c, ¬ isSeparator c) l.
Proof.
  induction l as [|c l IH]; [done|].
  destruct (decide (c = "-"%char)) as [->|H1].
  { rewrite (filter_cons_False (λ c, c ≠ "-"%char)) by (intros H; by apply H).
    rewrite (filter_cons_False (λ c, ¬ isSeparator c)); [done|].
    intros H; apply H; by left. }
  rewrite (filter_cons_True (λ c, c ≠ "-"%char)) by done.
  destruct (decide (c = "_"%char)) as [->|H2].
  { rewrite (filter_cons_False (λ c, c ≠ "_"%char)) by (intros H; by apply H).
    rewrite (filter_cons_False (λ c, ¬ isSeparator c)); [done|].
    intros H; apply H; by right. }
  rewrite (filter_cons_True (λ c, c ≠ "_"%char)) by done.
  rewrite (filter_cons_True (λ c, ¬ isSeparator c)); [by rewrite IH|].
  intros [?|?]; done.
Qed.

Lemma normalizeKeyword_spec s : normalizeKeyword s = normalizeSpec s.
Proof.
  unfold normalizeKeyword, normalizeSpec.
  rewrite <- (string_of_list_ascii_of_string
                (ReplaceAllEmpty (ReplaceAllEmpty (ToLower s) "-") "_")).
  f_equal.
  by rewrite !ReplaceAllEmpty_bytes, ToLower_bytes, filter_filter_sep.
Qed.

Lemma normalizeSpec_bytes s :
  list_ascii_of_string (normalizeSpec s)
  = filter (λ c, ¬ isSeparator c) (lowerByte <$> list_ascii_of_string s).
Proof. unfold normalizeSpec. by rewrite list_ascii_of_string_of_list_ascii. Qed.

Lemma lower_filter_fixed (l : list ascii) :
  filter (λ c, ¬ isSeparator c)
    (lowerByte <$> filter (λ c, ¬ isSeparator c) (lowerByte <$> l))
  = filter (λ c, ¬ isSeparator c) (lowerByte <$> l).
Proof.
  induction l as [|c l IH]; [done|].
  rewrite fmap_cons.
  destruct (decide (isSeparator (lowerByte c))) as [Hs|Hs].
  - rewrite (filter_cons_False _ (lowerByte c)) by (intros H; by apply H). done.
  - rewrite (filter_cons_True _ (lowerByte c)) by done.
    rewrite fmap_cons, lowerByte_idemp.
    rewrite (filter_cons_True _ (lowerByte c)) by done.
    by rewrite IH.
Qed.

Lemma normalizeKeyword_bytes s :
  list_ascii_of_string (normalizeKeyword s)
  = filter (λ c, ¬ isSeparator c) (lowerByte <$> list_ascii_of_string s).
Proof. by rewrite normalizeKeyword_spec, normalizeSpec_bytes. Qed.

Lemma normalizeKeyword_idemp s :
  normalizeKeyword (normalizeKeyword s) = normalizeKeyword s.
Proof.
  rewrite <- (string_of_list_ascii_of_string (normalizeKeyword (normalizeKeyword s))).
  rewrite <- (string_of_list_ascii_of_string (normalizeKeyword s)) at 2.
  f_equal. rewrite !normalizeKeyword_bytes. apply lower_filter_fixed.
Qed.

(** C9.  [normalizeKeyword] lowercases its argument and removes the
    hyphens and underscores: its bytes are those of the input, lowered,
    without ["-"] and ["_"].  It is idempotent: normalizing a normalized
    keyword gives it back. *)
Theorem normalizeKeyword_idempotent :
  (∀ s, list_ascii_of_string (normalizeKeyword s)
        = filter (λ c, ¬ isSeparator c) (lowerByte <$> list_ascii_of_string s))
  ∧ (∀ s, normalizeKeyword (normalizeKeyword s) = normalizeKeyword s).
Proof. split; [apply normalizeKeyword_bytes | apply normalizeKeyword_idemp]. Qed.

Example normalizeKeyword_tests :
  normalizeKeyword "cloudflare" = "cloudflare"
  ∧ normalizeKeyword "Cloudflare" = "cloudflare"
  ∧ normalizeKeyword "new-relic" = "newrelic"
  ∧ normalizeKeyword "hubspot_apikey" = "hubspotapikey"
  ∧ normalizeKeyword "GITHUB" = "github"
  ∧ normalizeKeyword "cisco-meraki" = "ciscomeraki".
Proof. by vm_compute. Qed.

(** ** Strings: appending and slicing *)

Lemma append_nil_l s : "" +:+ s = s.
Proof. reflexivity. Qed.

Lemma append_cons c s t : String c s +:+ t = String c (s +:+ t).
Proof. reflexivity. Qed.

Lemma length_append s t :
  String.length (s +:+ t) = String.length s + String.length t.
Proof. induction s as [|c s IH]; [done|]. rewrite append_cons. simpl. by rewrite IH. Qed.

Lemma substring_all s : substring 0 (String.length s) s = s.
Proof. induction s as [|c s IH]; [done|]. simpl. by rewrite IH. Qed.

Lemma substring_zero s : substring 0 0 s = "".
Proof. by destruct s. Qed.

Lemma substring_append_r base suf :
  substring (String.length base) (String.length suf) (base +:+ suf) = suf.
Proof.
  induction base as [|c base IH]; [apply substring_all|].
  by rewrite append_cons.
Qed.

Lemma substring_append_l base suf :
  substring 0 (String.length base) (base +:+ suf) = base.
Proof.
  induction base as [|c base IH]; [apply substring_zero|].
  rewrite append_cons. simpl. by rewrite IH.
Qed.

Lemma substring_split s k :
  k ≤ String.length s →
  substring 0 k s +:+ substring k (String.length s - k) s = s.
Proof.
  revert k. induction s as [|c s IH]; intros [|k] Hk; simpl in *.
  - done.
  - lia.
  - rewrite append_nil_l. by rewrite substring_all.
  - rewrite append_cons. rewrite IH by lia. done.
Qed.

(** [strings.HasSuffix] and [strings.HasPrefix], by what they decide. *)
Lemma HasSuffix_spec s suf :
  HasSuffix s suf = true ↔ ∃ base, s = base +:+ suf.
Proof.
  unfold HasSuffix. rewrite andb_true_iff, Nat.leb_le, String.eqb_eq. split.
  - intros [Hlen Hsub].
    exists (substring 0 (String.length s - String.length suf) s).
    assert (String.length s - String.length suf ≤ String.length s) as Hk by lia.
    pose proof (substring_split s _ Hk) as Hsp.
    replace (String.length s - (String.length s - String.length suf))
      with (String.length suf) in Hsp by lia.
    by rewrite Hsub in Hsp.
  - intros [base ->]. rewrite length_append. split; [lia|].
    replace (String.length base + String.length suf - String.length suf)
      with (String.length base) by lia.
    apply substring_append_r.
Qed.

Lemma HasPrefix_spec s pre :
  HasPrefix s pre = true ↔ ∃ rest, s = pre +:+ rest.
Proof.
  unfold HasPrefix. rewrite prefix_correct. split.
  - intros H. exists (substring (String.length pre) (String.length s - String.length pre) s).
    assert (String.length pre ≤ String.length s) as Hk.
    { apply (f_equal String.length) in H. rewrite <- H. clear.
      generalize (String.length pre) as k.
      induction s as [|c s IH]; intros [|k]; simpl; try lia.
      specialize (IH k). lia. }
    pose proof (substring_split s _ Hk) as Hsp. by rewrite H in Hsp.
  - intros [rest ->]. apply substring_append_l.
Qed.

Lemma sliceTo_append base suf :
  sliceTo (base +:+ suf) (String.length (base +:+ suf) - String.length suf) = base.
Proof.
  unfold sliceTo. rewrite length_append.
  replace (String.length base + String.length suf - String.length suf)
    with (String.length base) by lia.
  apply substring_append_l.
Qed.

(** ** The host-side deriver *)

Lemma accepted_spec name suf :
  accepted name suf = true ↔ ∃ base, name = base +:+ suf ∧ 3 ≤ String.length base.
Proof.
  unfold accepted. rewrite andb_true_iff, HasSuffix_spec, Nat.leb_le. split.
  - intros [[base ->] Hlen]. exists base. split; [done|].
    rewrite length_append in Hlen. lia.
  - intros (base & -> & Hlen). split; [by exists base|].
    rewrite length_append. lia.
Qed.

Lemma accepted_false name suf :
  accepted name suf = false ↔ ∀ base, name = base +:+ suf → String.length base < 3.
Proof.
  rewrite <- not_true_iff_false, accepted_spec. split.
  - intros Hn base Heq.
    destruct (decide (String.length base < 3)) as [|Hge]; [done|].
    exfalso. apply Hn. exists base. split; [done | lia].
  - intros H (base & Heq & Hlen). specialize (H base Heq). lia.
Qed.

Lemma stripSuffixes_step name suffix rest :
  stripSuffixes name (suffix :: rest)
  = if accepted name suffix
    then sliceTo name (String.length name - String.length suffix)
    else stripSuffixes name rest.
Proof.
  cbn [stripSuffixes]. unfold accepted.
  destruct (HasSuffix name suffix) eqn:Hs; [|done].
  apply HasSuffix_spec in Hs as [base ->].
  cbv zeta. by rewrite sliceTo_append, length_append, Nat.add_sub.
Qed.

Lemma stripSuffixes_first name suffixes i suf base :
  suffixes !! i = Some suf →
  name = base +:+ suf → 3 ≤ String.length base →
  (∀ j suf', j < i → suffixes !! j = Some suf' → accepted name suf' = false) →
  stripSuffixes name suffixes = base.
Proof.
  revert i. induction suffixes as [|s rest IH]; intros i Hi Hname Hlen Hbefore; [done|].
  rewrite stripSuffixes_step. destruct i as [|i]; simpl in Hi.
  - injection Hi as ->.
    assert (accepted name suf = true) as ->
      by (apply accepted_spec; by exists base).
    subst name. apply sliceTo_append.
  - rewrite (Hbefore 0 s) by (done || lia).
    apply (IH i); [done..|].
    intros j suf' Hj Hsuf'. apply (Hbefore (S j)); [lia | done].
Qed.

Lemma stripSuffixes_none name suffixes :
  (∀ suf, suf ∈ suffixes → accepted name suf = false) →
  stripSuffixes name suffixes = name.
Proof.
  induction suffixes as [|s rest IH]; intros H; [done|].
  rewrite stripSuffixes_step, (H s) by set_solver.
  apply IH. intros suf Hin. apply H. set_solver.
Qed.

Lemma deriveKeywordFromTHName_no_override name :
  thKeywordOverrides !! ToLower (TrimSpace name) = None →
  deriveKeywordFromTHName name
  = stripSuffixes (ToLower (TrimSpace name)) credentialSuffixes.
Proof.
  intros Hov. unfold deriveKeywordFromTHName. rewrite Hov.
  destruct (String.eqb_spec (ToLower (TrimSpace name)) "") as [->|]; done.
Qed.

(** C4, as the code has it.  The name is first trimmed and lowercased.
    When that form is not a key of the override table, the suffixes are
    tried in list order and the first one that ends the name and leaves
    at least three bytes is stripped; when no suffix of the list does,
    the trimmed, lowercased name is returned whole.  The examples of the
    specification follow. *)
Theorem deriveKeywordFromTHName_first_accepted :
  (∀ name i suf base,
     thKeywordOverrides !! ToLower (TrimSpace name) = None →
     credentialSuffixes !! i = Some suf →
     ToLower (TrimSpace name) = base +:+ suf →
     3 ≤ String.length base →
     (∀ j suf' base', j < i → credentialSuffixes !! j = Some suf' →
        ToLower (TrimSpace name) = base' +:+ suf' → String.length base' < 3) →
     deriveKeywordFromTHName name = base)
  ∧ (∀ name,
       thKeywordOverrides !! ToLower (TrimSpace name) = None →
       (∀ suf base, suf ∈ credentialSuffixes →
          ToLower (TrimSpace name) = base +:+ suf → String.length base < 3) →
       deriveKeywordFromTHName name = ToLower (TrimSpace name))
  ∧ deriveKeywordFromTHName "cloudflareapitoken" = "cloudflare"
  ∧ deriveKeywordFromTHName "customerio" = "customerio"
  ∧ deriveKeywordFromTHName "twilio" = "twilio"
  ∧ deriveKeywordFromTHName "podio" = "podio"
  ∧ deriveKeywordFromTHName "npm" = "npm"
  ∧ deriveKeywordFromTHName "gcp" = "gcp"
  ∧ thKeywordOverrides !! "gcpapplicationdefaultcredentials" = Some "gcp"
  ∧ deriveKeywordFromTHName "gcpapplicationdefaultcredentials" = "gcp".
Proof.
  split; [|split; [|by vm_compute]].
  - intros name i suf base Hov Hi Hname Hlen Hbefore.
    rewrite deriveKeywordFromTHName_no_override by done.
    apply (stripSuffixes_first _ _ i suf); [done..|].
    intros j suf' Hj Hsuf'. apply accepted_false.
    intros base' Hname'. by apply (Hbefore j suf' base').
  - intros name Hov Hnone.
    rewrite deriveKeywordFromTHName_no_override by done.
    apply stripSuffixes_none. intros suf Hin. apply accepted_false.
    intros base Hname. by apply (Hnone suf base).
Qed.

(** The first suffix of the list that ends ["npmtokenv2"] is ["tokenv2"],
    at index 17, and it leaves ["npm"]. *)
Lemma deriveKeywordFromTHName_first_accepted_witness :
  deriveKeywordFromTHName "npmtokenv2" = "npm".
Proof.
  apply (proj1 deriveKeywordFromTHName_first_accepted "npmtokenv2" 17 "tokenv2" "npm").
  - reflexivity.
  - reflexivity.
  - reflexivity.
  - simpl. lia.
  - intros j suf' base' Hj Hsuf' Hname.
    assert (accepted "npmtokenv2" suf' = false) as Hacc.
    { do 17 (destruct j as [|j]; [injection Hsuf' as <-; reflexivity|]). lia. }
    eapply accepted_false; [exact Hacc | exact Hname].
Defined.

(** C4 as it is worded fails on a name that is not lowercase: ["NPM"] is
    not a key of the override table, none of the suffixes ends it, and
    the result is not the name unchanged. *)
Lemma deriveKeywordFromTHName_changes_case :
  thKeywordOverrides !! "NPM" = None
  ∧ Forall (λ suf, HasSuffix "NPM" suf = false) credentialSuffixes
  ∧ deriveKeywordFromTHName "NPM" = "npm"
  ∧ deriveKeywordFromTHName "NPM" ≠ "NPM".
Proof.
  split; [reflexivity|]. split; [|split; [reflexivity|by vm_compute]].
  repeat constructor.
Qed.

(** ** The rule-side deriver *)

Lemma lookupBool_true_set (l : list string) p :
  lookupBool (list_to_map ((λ w, (w, true)) <$> l)) p = true ↔ p ∈ l.
Proof.
  unfold lookupBool.
  destruct (list_to_map (M := gmap string bool) _ !! p) as [b|] eqn:Hl; simpl.
  - apply elem_of_list_to_map_2 in Hl.
    apply list_elem_of_fmap in Hl as (w & Heq & Hw). simplify_eq/=. done.
  - apply not_elem_of_list_to_map in Hl.
    rewrite <- list_fmap_compose in Hl. split; [done|].
    intros Hin. exfalso. apply Hl. apply list_elem_of_fmap. by exists p.
Qed.

Lemma credentialWords_spec p :
  lookupBool credentialWords p = true ↔ p ∈ credentialWordList.
Proof. apply lookupBool_true_set. Qed.

Lemma serviceParts_cons p ps :
  serviceParts (p :: ps)
  = if lookupBool credentialWords p then [] else p :: serviceParts ps.
Proof. reflexivity. Qed.

Lemma serviceParts_stop pre w post :
  Forall (λ p, p ∉ credentialWordList) pre → w ∈ credentialWordList →
  serviceParts (pre ++ w :: post) = pre.
Proof.
  intros Hpre Hw. induction Hpre as [|p pre Hp _ IH].
  - rewrite app_nil_l, serviceParts_cons.
    apply credentialWords_spec in Hw. by rewrite Hw.
  - rewrite <- app_comm_cons, serviceParts_cons.
    destruct (lookupBool credentialWords p) eqn:Hb.
    + by apply credentialWords_spec in Hb.
    + by rewrite IH.
Qed.

Lemma serviceParts_all parts :
  Forall (λ p, p ∉ credentialWordList) parts → serviceParts parts = parts.
Proof.
  induction 1 as [|p parts Hp _ IH]; [done|].
  rewrite serviceParts_cons.
  destruct (lookupBool credentialWords p) eqn:Hb.
  - by apply credentialWords_spec in Hb.
  - by rewrite IH.
Qed.

Lemma Split_nonempty s sep : Split s sep ≠ [].
Proof.
  destruct s as [|c t]; simpl; [done|].
  destruct (Ascii.eqb c sep); [done|]. by destruct (Split t sep).
Qed.

Lemma Join_cons e es sep :
  es ≠ [] → Join (e :: es) sep = e +:+ sep +:+ Join es sep.
Proof. by destruct es. Qed.

(** Joining what [Split] cut gives the string back. *)
Lemma Join_Split s sep : Join (Split s sep) (String sep "") = s.
Proof.
  induction s as [|c t IH]; simpl; [done|].
  destruct (Ascii.eqb_spec c sep) as [->|Hne].
  - rewrite Join_cons by apply Split_nonempty. by rewrite IH.
  - destruct (Split t sep) as [|p ps] eqn:Hsp.
    { by apply Split_nonempty in Hsp. }
    destruct ps as [|q ps]; simpl in *; [by rewrite IH|].
    by rewrite append_cons, IH.
Qed.

Lemma trimLeft_spaces s :
  (∀ c, c ∈ list_ascii_of_string s → Ascii.is_space c = true) → trimLeft s = "".
Proof.
  induction s as [|c t IH]; simpl; intros H; [done|].
  rewrite (H c) by set_solver. apply IH. intros c' Hc'. apply H. set_solver.
Qed.

Lemma deriveKeywordFromGitleaksID_unfold ruleID :
  ToLower (TrimSpace ruleID) ≠ "" →
  deriveKeywordFromGitleaksID ruleID
  = match serviceParts (Split (ToLower (TrimSpace ruleID)) "-") with
    | [] => ToLower (TrimSpace ruleID)
    | sp => overridden (Join sp "-")
    end.
Proof.
  intros Hne. unfold deriveKeywordFromGitleaksID, overridden.
  destruct (String.eqb_spec (ToLower (TrimSpace ruleID)) "") as [|_]; [done|].
  destruct (serviceParts _) as [|p sp]; [done|].
  by destruct (glServiceOverrides !! _).
Qed.

(** C5, as the code has it.  The identifier is trimmed and lowercased and
    cut at the hyphens.  The tokens before the first credential word are
    joined with hyphens again and looked up in the override table; when
    the first token is a credential word already, the result is the
    trimmed, lowercased identifier, whole.  An identifier of white space
    only gives the empty string.  The examples of the specification
    follow. *)
Theorem deriveKeywordFromGitleaksID_stops_at_credential_word :
  (∀ ruleID pre w post,
     pre ≠ [] →
     Split (ToLower (TrimSpace ruleID)) "-" = pre ++ w :: post →
     Forall (λ p, p ∉ credentialWordList) pre →
     w ∈ credentialWordList →
     deriveKeywordFromGitleaksID ruleID = overridden (Join pre "-"))
  ∧ (∀ ruleID,
       ToLower (TrimSpace ruleID) ≠ "" →
       Forall (λ p, p ∉ credentialWordList) (Split (ToLower (TrimSpace ruleID)) "-") →
       deriveKeywordFromGitleaksID ruleID = overridden (ToLower (TrimSpace ruleID)))
  ∧ (∀ ruleID w post,
       Split (ToLower (TrimSpace ruleID)) "-" = w :: post →
       w ∈ credentialWordList →
       deriveKeywordFromGitleaksID ruleID = ToLower (TrimSpace ruleID))
  ∧ (∀ ruleID,
       (∀ c, c ∈ list_ascii_of_string ruleID → Ascii.is_space c = true) →
       deriveKeywordFromGitleaksID ruleID = "")
  ∧ deriveKeywordFromGitleaksID "cloudflare-api-key" = "cloudflare"
  ∧ deriveKeywordFromGitleaksID "cisco-meraki-api-key" = "cisco-meraki"
  ∧ deriveKeywordFromGitleaksID "private-key" = "private-key"
  ∧ deriveKeywordFromGitleaksID "" = ""
  ∧ deriveKeywordFromGitleaksID "  " = "".
Proof.
  split; [|split; [|split; [|split; [|repeat split; vm_compute; reflexivity]]]].
  - intros ruleID pre w post Hpre Hsplit Hnot Hw.
    assert (ToLower (TrimSpace ruleID) ≠ "") as Hne.
    { intros Heq. rewrite Heq in Hsplit. simpl in Hsplit.
      destruct pre as [|? [|? ?]]; simplify_eq. }
    rewrite deriveKeywordFromGitleaksID_unfold, Hsplit, serviceParts_stop by done.
    by destruct pre.
  - intros ruleID Hne Hnot.
    rewrite deriveKeywordFromGitleaksID_unfold, serviceParts_all by done.
    destruct (Split _ _) as [|p ps] eqn:Hsp; [by apply Split_nonempty in Hsp|].
    by rewrite <- Hsp, Join_Split.
  - intros ruleID w post Hsplit Hw.
    destruct (decide (ToLower (TrimSpace ruleID) = "")) as [Heq|Hne].
    { unfold deriveKeywordFromGitleaksID. by rewrite Heq. }
    rewrite deriveKeywordFromGitleaksID_unfold, Hsplit by done.
    by rewrite (serviceParts_stop [] w post (Forall_nil_2 _) Hw
                  : serviceParts (w :: post) = []).
  - intros ruleID Hsp. unfold deriveKeywordFromGitleaksID, TrimSpace.
    by rewrite trimLeft_spaces.
Qed.

(** ["cisco-meraki-api-key"]: the tokens before ["api"] are kept. *)
Lemma deriveKeywordFromGitleaksID_stops_at_credential_word_witness :
  deriveKeywordFromGitleaksID "cisco-meraki-api-key" = overridden "cisco-meraki".
Proof.
  apply (proj1 deriveKeywordFromGitleaksID_stops_at_credential_word
           "cisco-meraki-api-key" ["cisco"; "meraki"] "api" ["key"]).
  - discriminate.
  - reflexivity.
  - apply (bool_decide_unpack _). vm_compute. exact I.
  - apply (bool_decide_unpack _). vm_compute. exact I.
Defined.

(** C5 as it is worded fails on an identifier that is not lowercase: no
    service token survives in ["PRIVATE-KEY"], and the result is the
    lowercased identifier, not the original one. *)
Lemma deriveKeywordFromGitleaksID_changes_case :
  serviceParts (Split (ToLower (TrimSpace "PRIVATE-KEY")) "-") = []
  ∧ deriveKeywordFromGitleaksID "PRIVATE-KEY" = "private-key"
  ∧ deriveKeywordFromGitleaksID "PRIVATE-KEY" ≠ "PRIVATE-KEY".
Proof. split; [reflexivity|]. split; [reflexivity | by vm_compute]. Qed.

Example deriveKeywordFromGitleaksID_tests :
  deriveKeywordFromGitleaksID "github-pat" = "github"
  ∧ deriveKeywordFromGitleaksID "github-oauth" = "github"
  ∧ deriveKeywordFromGitleaksID "github-app-token" = "github"
  ∧ deriveKeywordFromGitleaksID "microsoft-teams-webhook" = "microsoft-teams"
  ∧ deriveKeywordFromGitleaksID "aws-amazon-bedrock-api-key-long-lived" = "aws"
  ∧ deriveKeywordFromGitleaksID "new-relic-user-api-key" = "newrelic"
  ∧ deriveKeywordFromGitleaksID "jwt" = "jwt"
  ∧ deriveKeywordFromGitleaksID "jwt-base64" = "jwt"
  ∧ deriveKeywordFromGitleaksID "generic-api-key" = "generic".
Proof. by vm_compute. Qed.

Example deriveKeywordFromTHName_tests :
  deriveKeywordFromTHName "cloudflareglobalapikey" = "cloudflare"
  ∧ deriveKeywordFromTHName "airtablepersonalaccesstoken" = "airtable"
  ∧ deriveKeywordFromTHName "npmtoken" = "npm"
  ∧ deriveKeywordFromTHName "sonarcloud" = "sonar"
  ∧ deriveKeywordFromTHName "adafruitio" = "adafruit"
  ∧ deriveKeywordFromTHName "hubspot_apikey" = "hubspot"
  ∧ deriveKeywordFromTHName "keenio" = "keenio"
  ∧ deriveKeywordFromTHName "" = ""
  ∧ deriveKeywordFromTHName "a" = "a".
Proof. by vm_compute. Qed.

(** ** Sorting and walking maps *)

Lemma sortStrings_perm l : sortStrings l ≡ₚ l.
Proof. apply merge_sort_Permutation. Qed.

Lemma sortStrings_sorted l : Sorted String.le (sortStrings l).
Proof. apply (Sorted_merge_sort String.le). Qed.

Lemma sortStrings_elem_of x l : x ∈ sortStrings l ↔ x ∈ l.
Proof. by rewrite sortStrings_perm. Qed.

Lemma sortStrings_nil_inv l : sortStrings l = [] → l = [].
Proof.
  intros H. apply Permutation_nil_r. rewrite <- H. symmetry. apply sortStrings_perm.
Qed.

(** The sorted list does not depend on the order of what is sorted. *)
Lemma sortStrings_proper l1 l2 : l1 ≡ₚ l2 → sortStrings l1 = sortStrings l2.
Proof.
  intros H. apply (Sorted_unique String.le); try apply sortStrings_sorted.
  by rewrite !sortStrings_perm.
Qed.

Section MapOrder.

Context {V : Type}.
Variable order : list string → list string.
Hypothesis order_perm : ∀ l, order l ≡ₚ l.

Lemma rangeKeys_perm (m : gmap string V) : rangeKeys order m ≡ₚ (map_to_list m).*1.
Proof. apply order_perm. Qed.

Lemma rangeKeys_elem_of (m : gmap string V) k :
  k ∈ rangeKeys order m ↔ is_Some (m !! k).
Proof.
  rewrite rangeKeys_perm, list_elem_of_fmap. split.
  - intros ([k' v] & -> & Hin). apply elem_of_map_to_list in Hin. by exists v.
  - intros [v Hv]. exists (k, v). split; [done|]. by apply elem_of_map_to_list.
Qed.

Lemma rangeKeys_NoDup (m : gmap string V) : NoDup (rangeKeys order m).
Proof. rewrite rangeKeys_perm. apply NoDup_fst_map_to_list. Qed.

Lemma rangeKeys_empty : rangeKeys order (∅ : gmap string V) = [].
Proof.
  apply Permutation_nil_r. rewrite rangeKeys_perm. by rewrite map_to_list_empty.
Qed.

End MapOrder.

(** ** The match resolver *)

Section FindTHMatch.

Variable order : list string → list string.
Hypothesis order_perm : ∀ l, order l ≡ₚ l.
Variable glKeyword : string.
Variable thByKeyword : gmap string (list thEntry.t).

Let glNorm := normalizeKeyword glKeyword.

Lemma prefix_matches_elem_of k :
  k ∈ filter (isPrefixMatch glNorm) (rangeKeys order thByKeyword)
  ↔ prefixCandidate glNorm thByKeyword k.
Proof.
  rewrite list_elem_of_filter, rangeKeys_elem_of by done.
  unfold isPrefixMatch, prefixCandidate. rewrite HasPrefix_spec. tauto.
Qed.

Lemma findTHMatch_exact :
  is_Some (thByKeyword !! glNorm) →
  findTHMatch order glKeyword thByKeyword = ([glNorm], "exact").
Proof. intros [es Hes]. unfold findTHMatch. fold glNorm. by rewrite Hes. Qed.

Lemma findTHMatch_alias alias :
  thByKeyword !! glNorm = None →
  serviceAliases !! glKeyword = Some alias →
  is_Some (thByKeyword !! normalizeKeyword alias) →
  findTHMatch order glKeyword thByKeyword = ([normalizeKeyword alias], "alias").
Proof.
  intros Hex Hal [es Hes]. unfold findTHMatch. fold glNorm.
  by rewrite Hex, Hal, Hes.
Qed.

Lemma findTHMatch_after_alias :
  thByKeyword !! glNorm = None →
  aliasMisses glKeyword thByKeyword →
  findTHMatch order glKeyword thByKeyword
  = match (if 4 <=? String.length glNorm
           then filter (isPrefixMatch glNorm) (rangeKeys order thByKeyword)
           else []) with
    | [] => ([], "")
    | ms => (sortStrings ms, "prefix")
    end.
Proof.
  intros Hex Hal. unfold findTHMatch. fold glNorm. rewrite Hex.
  assert (match serviceAliases !! glKeyword with
          | Some alias =>
              match thByKeyword !! normalizeKeyword alias with
              | Some _ => Some (normalizeKeyword alias)
              | None => None
              end
          | None => None
          end = None) as ->.
  { destruct (serviceAliases !! glKeyword) as [alias|] eqn:Ha; [|done].
    by rewrite (Hal alias). }
  cbv zeta. by destruct (if 4 <=? String.length glNorm then _ else _).
Qed.

Lemma findTHMatch_prefix :
  thByKeyword !! glNorm = None →
  aliasMisses glKeyword thByKeyword →
  4 ≤ String.length glNorm →
  (∃ k, prefixCandidate glNorm thByKeyword k) →
  ∃ ms, findTHMatch order glKeyword thByKeyword = (ms, "prefix")
        ∧ Sorted String.le ms ∧ NoDup ms
        ∧ ∀ k, k ∈ ms ↔ prefixCandidate glNorm thByKeyword k.
Proof.
  intros Hex Hal Hlen [k Hk].
  rewrite findTHMatch_after_alias by done.
  apply Nat.leb_le in Hlen. rewrite Hlen.
  apply prefix_matches_elem_of in Hk.
  destruct (filter _ _) as [|m ms] eqn:Hf; [by apply elem_of_nil in Hk|].
  rewrite <- Hf. eexists. split; [done|]. split; [apply sortStrings_sorted|].
  split.
  - rewrite sortStrings_perm. apply NoDup_filter. by apply rangeKeys_NoDup.
  - intros k'. by rewrite sortStrings_elem_of, prefix_matches_elem_of.
Qed.

Lemma findTHMatch_none :
  thByKeyword !! glNorm = None →
  aliasMisses glKeyword thByKeyword →
  String.length glNorm < 4 ∨ (∀ k, ¬ prefixCandidate glNorm thByKeyword k) →
  findTHMatch order glKeyword thByKeyword = ([], "").
Proof.
  intros Hex Hal Hno. rewrite findTHMatch_after_alias by done.
  destruct (Nat.leb_spec 4 (String.length glNorm)) as [Hlen|Hlen]; [|done].
  destruct Hno as [?|Hno]; [lia|].
  destruct (filter _ _) as [|m ms] eqn:Hf; [done|].
  exfalso. apply (Hno m). apply prefix_matches_elem_of. rewrite Hf. by left.
Qed.

End FindTHMatch.

(** C3.  [findTHMatch] tries three tiers in order and returns at the
    first one that succeeds, with the keywords of that tier alone: the
    normalized keyword itself when it is a key of the index (exact);
    otherwise the normalized alias of the keyword when the alias table
    has one that is a key of the index (alias); otherwise, and only for a
    normalized keyword of at least four bytes, every key that starts with
    it and differs from it, in increasing order (prefix); otherwise no
    keyword, with the empty match type.  This holds in whatever order the
    keys of the index are walked. *)
Theorem findTHMatch_three_tiers
    (order : list string → list string) (glKeyword : string)
    (thByKeyword : gmap string (list thEntry.t)) :
  (∀ l, order l ≡ₚ l) →
  let glNorm := normalizeKeyword glKeyword in
  let result := findTHMatch order glKeyword thByKeyword in
  (is_Some (thByKeyword !! glNorm) → result = ([glNorm], "exact"))
  ∧ (∀ alias,
       thByKeyword !! glNorm = None →
       serviceAliases !! glKeyword = Some alias →
       is_Some (thByKeyword !! normalizeKeyword alias) →
       result = ([normalizeKeyword alias], "alias"))
  ∧ (thByKeyword !! glNorm = None →
     aliasMisses glKeyword thByKeyword →
     4 ≤ String.length glNorm →
     (∃ k, prefixCandidate glNorm thByKeyword k) →
     ∃ ms, result = (ms, "prefix")
           ∧ Sorted String.le ms ∧ NoDup ms
           ∧ ∀ k, k ∈ ms ↔ prefixCandidate glNorm thByKeyword k)
  ∧ (thByKeyword !! glNorm = None →
     aliasMisses glKeyword thByKeyword →
     String.length glNorm < 4 ∨ (∀ k, ¬ prefixCandidate glNorm thByKeyword k) →
     result = ([], "")).
Proof.
  intros Hperm glNorm result. repeat split.
  - by apply findTHMatch_exact.
  - intros alias. by apply findTHMatch_alias.
  - by apply findTHMatch_prefix.
  - by apply findTHMatch_none.
Qed.

(** C3 on the sample index: ["meraki"] is a key (exact), ["cisco-meraki"]
    reaches it through the alias table, ["fooba"] is a proper prefix of
    two keys and ["npm"] is too short for the prefix tier. *)
Lemma findTHMatch_three_tiers_witness :
  findTHMatch (λ l, l) "meraki" sampleIndex = (["meraki"], "exact")
  ∧ findTHMatch (λ l, l) "cisco-meraki" sampleIndex = (["meraki"], "alias")
  ∧ (∃ ms, findTHMatch (λ l, l) "fooba" sampleIndex = (ms, "prefix")
           ∧ Sorted String.le ms ∧ NoDup ms
           ∧ ∀ k, k ∈ ms ↔ prefixCandidate "fooba" sampleIndex k)
  ∧ findTHMatch (λ l, l) "npm" sampleIndex = ([], "").
Proof.
  assert (∀ l : list string, (λ l, l) l ≡ₚ l) as Hperm by done.
  split; [|split; [|split]].
  - apply (proj1 (findTHMatch_three_tiers (λ l, l) "meraki" sampleIndex Hperm)).
    vm_compute. eauto.
  - apply (proj1 (proj2 (findTHMatch_three_tiers (λ l, l) "cisco-meraki" sampleIndex Hperm))
             "meraki").
    + reflexivity.
    + reflexivity.
    + vm_compute. eauto.
  - apply (proj1 (proj2 (proj2
             (findTHMatch_three_tiers (λ l, l) "fooba" sampleIndex Hperm)))).
    + reflexivity.
    + intros alias Ha. discriminate Ha.
    + vm_compute. lia.
    + exists "foobar". split; [vm_compute; eauto|]. split; [discriminate|].
      by exists "r".
  - apply (proj2 (proj2 (proj2
             (findTHMatch_three_tiers (λ l, l) "npm" sampleIndex Hperm)))).
    + reflexivity.
    + intros alias Ha. discriminate Ha.
    + left. vm_compute. lia.
Defined.

(** ** The merger: one turn of the main loop *)

Lemma addKeys_app m ks1 ks2 : addKeys m (ks1 ++ ks2) = addKeys (addKeys m ks1) ks2.
Proof. apply foldl_app. Qed.

Lemma lookupBool_insert_true m k k' :
  lookupBool (<[k' := true]> m) k = true ↔ k = k' ∨ lookupBool m k = true.
Proof.
  unfold lookupBool. destruct (decide (k = k')) as [->|Hne].
  - rewrite lookup_insert_eq. simpl. tauto.
  - rewrite lookup_insert_ne by done. split; [tauto | by intros [?|?]].
Qed.

Lemma lookupBool_addKeys m ks k :
  lookupBool (addKeys m ks) k = true ↔ k ∈ ks ∨ lookupBool m k = true.
Proof.
  revert m. induction ks as [|k' ks IH]; intros m; simpl.
  - split; [tauto|]. intros [H|H]; [by apply elem_of_nil in H | done].
  - change (foldl _ (<[k' := true]> m) ks) with (addKeys (<[k' := true]> m) ks).
    rewrite IH, lookupBool_insert_true, elem_of_cons. tauto.
Qed.

Lemma lookupBool_empty k : lookupBool ∅ k = false.
Proof. unfold lookupBool. by rewrite lookup_empty. Qed.

Lemma collectEntry_fold hostSet used names entries :
  foldl collectEntry (hostSet, used, names) entries
  = (addKeys hostSet (entries ≫= thEntry.hosts),
     addKeys used (thEntry.dirName <$> entries),
     names ++ (thEntry.dirName <$> entries)).
Proof.
  revert hostSet used names.
  induction entries as [|e entries IH]; intros hostSet used names.
  - simpl. by rewrite app_nil_r.
  - cbn [foldl]. unfold collectEntry at 2. rewrite IH.
    rewrite bind_cons, addKeys_app, fmap_cons, <- app_assoc. done.
Qed.

Lemma matchedEntries_cons thByKeyword m ms :
  matchedEntries thByKeyword (m :: ms)
  = default [] (thByKeyword !! normalizeKeyword m) ++ matchedEntries thByKeyword ms.
Proof. reflexivity. Qed.

Lemma collectMatch_fold thByKeyword hostSet used names matchedTH :
  foldl (collectMatch thByKeyword) (hostSet, used, names) matchedTH
  = (addKeys hostSet (matchedEntries thByKeyword matchedTH ≫= thEntry.hosts),
     addKeys used (thEntry.dirName <$> matchedEntries thByKeyword matchedTH),
     names ++ (thEntry.dirName <$> matchedEntries thByKeyword matchedTH)).
Proof.
  revert hostSet used names.
  induction matchedTH as [|m ms IH]; intros hostSet used names.
  - simpl. by rewrite app_nil_r.
  - cbn [foldl]. unfold collectMatch at 2. rewrite matchedEntries_cons.
    destruct (thByKeyword !! normalizeKeyword m) as [entries|]; simpl.
    + rewrite collectEntry_fold, IH.
      by rewrite bind_app, fmap_app, !addKeys_app, app_assoc.
    + apply IH.
Qed.

Lemma mergeGroup_eq mapOrder thByKeyword i glg st :
  let svc := groupService (mapOrder (2 * i)) (mapOrder (2 * i + 1)) thByKeyword glg in
  let n := length (glGroup.rules glg) in
  let found := findTHMatch (mapOrder (2 * i)) (glGroup.keyword glg) thByKeyword in
  mergeGroup mapOrder thByKeyword i glg st
  = mkLoopState (services st ++ [svc])
      (if 0 <? length (CombinedSvc.Hosts svc)
       then countWithHosts n (CombinedSvc.MatchType svc) (addRules n (stats st))
       else countNoHosts (addRules n (stats st)))
      (if 0 <? length (CombinedSvc.Hosts svc)
       then glNoHosts st else glNoHosts st ++ [glGroup.keyword glg])
      (addKeys (thUsed st)
         (thEntry.dirName <$> matchedEntries thByKeyword found.1)).
Proof.
  intros svc n found. unfold mergeGroup. subst svc. unfold groupService.
  fold found. destruct found as [matchedTH matchType].
  rewrite collectMatch_fold. cbn [fst snd CombinedSvc.Hosts CombinedSvc.MatchType].
  rewrite app_nil_l.
  by destruct (0 <? length _).
Qed.

Lemma groupService_MatchedTH o1 o2 thByKeyword glg k :
  k ∈ CombinedSvc.MatchedTH (groupService o1 o2 thByKeyword glg)
  ↔ k ∈ thEntry.dirName <$>
          matchedEntries thByKeyword (findTHMatch o1 (glGroup.keyword glg) thByKeyword).1.
Proof. unfold groupService. simpl. apply sortStrings_elem_of. Qed.

(** The service of a turn does not depend on the orders in which its two
    maps are walked. *)
Lemma findTHMatch_order_irrel order glKeyword thByKeyword :
  (∀ l, order l ≡ₚ l) →
  findTHMatch order glKeyword thByKeyword
  = findTHMatch (λ l, l) glKeyword thByKeyword.
Proof.
  intros Hperm. unfold findTHMatch.
  destruct (thByKeyword !! normalizeKeyword glKeyword); [done|].
  destruct (match serviceAliases !! glKeyword with Some _ => _ | None => _ end);
    [done|].
  cbv zeta. destruct (4 <=? String.length (normalizeKeyword glKeyword)); [|done].
  assert (filter (isPrefixMatch (normalizeKeyword glKeyword)) (rangeKeys order thByKeyword)
          ≡ₚ filter (isPrefixMatch (normalizeKeyword glKeyword))
               (rangeKeys (λ l, l) thByKeyword)) as Hf.
  { unfold rangeKeys. by rewrite Hperm. }
  destruct (filter _ (rangeKeys order _)) as [|m ms] eqn:H1;
    destruct (filter _ (rangeKeys (λ l, l) _)) as [|m' ms'] eqn:H2.
  - done.
  - by apply Permutation_nil_cons in Hf.
  - symmetry in Hf. by apply Permutation_nil_cons in Hf.
  - f_equal. by apply sortStrings_proper.
Qed.

Lemma sortedKeys_order_irrel order m :
  (∀ l, order l ≡ₚ l) → sortedKeys order m = sortedKeys (λ l, l) m.
Proof.
  intros Hperm. unfold sortedKeys, rangeKeys. apply sortStrings_proper, Hperm.
Qed.

Lemma groupService_order_irrel o1 o2 thByKeyword glg :
  (∀ l, o1 l ≡ₚ l) → (∀ l, o2 l ≡ₚ l) →
  groupService o1 o2 thByKeyword glg
  = groupService (λ l, l) (λ l, l) thByKeyword glg.
Proof.
  intros H1 H2. unfold groupService.
  by rewrite (findTHMatch_order_irrel o1), (sortedKeys_order_irrel o2).
Qed.

Lemma mergeGroup_order_irrel mapOrder thByKeyword i glg st :
  (∀ n l, mapOrder n l ≡ₚ l) →
  mergeGroup mapOrder thByKeyword i glg st = mergeGroup keepOrder thByKeyword i glg st.
Proof.
  intros Hperm. rewrite !mergeGroup_eq. cbv zeta.
  rewrite (groupService_order_irrel (mapOrder _) (mapOrder _)) by done.
  rewrite (findTHMatch_order_irrel (mapOrder _)) by done.
  done.
Qed.

Lemma mergeLoop_order_irrel mapOrder thByKeyword glGroupMap i glKeywords st :
  (∀ n l, mapOrder n l ≡ₚ l) →
  mergeLoop mapOrder thByKeyword glGroupMap i glKeywords st
  = mergeLoop keepOrder thByKeyword glGroupMap i glKeywords st.
Proof.
  intros Hperm. revert i st.
  induction glKeywords as [|k ks IH]; intros i st; [done|].
  simpl. destruct (glGroupMap !! k) as [glg|]; [|done].
  by rewrite mergeGroup_order_irrel, IH.
Qed.

(** ** The merger: grouping the rules *)

Lemma foldl_invariant {A B} (P : A → Prop) (f : A → B → A) (l : list B) (a : A) :
  P a → (∀ a x, P a → x ∈ l → P (f a x)) → P (foldl f a l).
Proof.
  revert a. induction l as [|x l IH]; intros a Ha Hstep; [done|].
  simpl. apply IH.
  - apply Hstep; [done | by left].
  - intros a' x' Ha' Hin. apply Hstep; [done | by right].
Qed.

Lemma groupRule_ok acc r : groupsOk acc → groupsOk (groupRule acc r).
Proof.
  destruct acc as [gm ks]. intros (Hnd & Hks & Hnorm). unfold groupRule.
  destruct (gm !! normalizeKeyword (GLRule.Keyword r)) as [g|] eqn:Hg;
    repeat split; simpl in *.
  - done.
  - intros Hk. destruct (decide (normalizeKeyword (GLRule.Keyword r) = k)) as [<-|Hne].
    + rewrite lookup_insert_eq. eauto.
    + rewrite lookup_insert_ne by done. by apply Hks.
  - intros Hk. destruct (decide (normalizeKeyword (GLRule.Keyword r) = k)) as [<-|Hne].
    + apply Hks. eauto.
    + rewrite lookup_insert_ne in Hk by done. by apply Hks.
  - intros k g' Hk.
    destruct (decide (normalizeKeyword (GLRule.Keyword r) = k)) as [<-|Hne].
    + rewrite lookup_insert_eq in Hk. injection Hk as <-. simpl. by apply Hnorm.
    + rewrite lookup_insert_ne in Hk by done. by apply Hnorm.
  - apply NoDup_app. split; [done|]. split; [|apply NoDup_singleton].
    intros k Hk ->%list_elem_of_singleton. apply Hks in Hk as [g Hk]. congruence.
  - rewrite elem_of_app, list_elem_of_singleton.
    intros [Hk| ->]; [|rewrite lookup_insert_eq; eauto].
    destruct (decide (normalizeKeyword (GLRule.Keyword r) = k)) as [<-|Hne].
    + rewrite lookup_insert_eq. eauto.
    + rewrite lookup_insert_ne by done. by apply Hks.
  - rewrite elem_of_app, list_elem_of_singleton. intros Hk.
    destruct (decide (normalizeKeyword (GLRule.Keyword r) = k)) as [<-|Hne]; [by right|].
    rewrite lookup_insert_ne in Hk by done. left. by apply Hks.
  - intros k g' Hk.
    destruct (decide (normalizeKeyword (GLRule.Keyword r) = k)) as [<-|Hne].
    + rewrite lookup_insert_eq in Hk. by injection Hk as <-.
    + rewrite lookup_insert_ne in Hk by done. by apply Hnorm.
Qed.

Lemma groupRules_ok glRules : groupsOk (groupRules glRules).
Proof.
  unfold groupRules. apply (foldl_invariant groupsOk).
  - repeat split; simpl.
    + apply NoDup_nil_2.
    + by intros ?%elem_of_nil.
    + rewrite lookup_empty. by intros [? ?].
    + intros k g. by rewrite lookup_empty.
  - intros acc r Hacc _. by apply groupRule_ok.
Qed.

(** ** The merger: the main loop *)

Section MergeLoop.

Variable mapOrder : nat → list string → list string.
Variable thByKeyword : gmap string (list thEntry.t).
Variable glGroupMap : gmap string glGroup.t.

(** The loop never dereferences a missing group. *)
Lemma mergeLoop_total glKeywords i st :
  (∀ k, k ∈ glKeywords → is_Some (glGroupMap !! k)) →
  is_Some (mergeLoop mapOrder thByKeyword glGroupMap i glKeywords st).
Proof.
  revert i st. induction glKeywords as [|k ks IH]; intros i st Hks; simpl; [eauto|].
  destruct (Hks k) as [glg ->]; [by left|].
  apply IH. intros k' Hk'. apply Hks. by right.
Qed.

Lemma mergeLoop_invariant (P : LoopState → Prop) glKeywords i st st' :
  (∀ i glg st, P st → P (mergeGroup mapOrder thByKeyword i glg st)) →
  mergeLoop mapOrder thByKeyword glGroupMap i glKeywords st = Some st' →
  P st → P st'.
Proof.
  intros Hstep. revert i st.
  induction glKeywords as [|k ks IH]; intros i st Hrun Hst; simpl in Hrun.
  - by injection Hrun as <-.
  - destruct (glGroupMap !! k) as [glg|]; [|done].
    eapply IH; [done|]. by apply Hstep.
Qed.

(** The services come out in the order of [glKeywords], one for each. *)
Lemma mergeLoop_keywords glKeywords i st st' :
  (∀ k g, glGroupMap !! k = Some g → normalizeKeyword (glGroup.keyword g) = k) →
  mergeLoop mapOrder thByKeyword glGroupMap i glKeywords st = Some st' →
  normalizeKeyword ∘ CombinedSvc.Keyword <$> services st'
  = (normalizeKeyword ∘ CombinedSvc.Keyword <$> services st) ++ glKeywords.
Proof.
  intros Hnorm. revert i st.
  induction glKeywords as [|k ks IH]; intros i st Hrun; simpl in Hrun.
  - injection Hrun as <-. by rewrite app_nil_r.
  - destruct (glGroupMap !! k) as [glg|] eqn:Hk; [|done].
    rewrite (IH _ _ Hrun), mergeGroup_eq. cbv zeta. cbn [services].
    rewrite fmap_app, <- app_assoc. do 2 f_equal.
    simpl. f_equal. by apply Hnorm.
Qed.

End MergeLoop.

(** [combine] returns, and what it returns is put together from the last
    state of the main loop. *)
Lemma combine_returns sortSlice mapOrder now thDetectors glRules :
  ∃ st,
    mergeLoop mapOrder (indexDetectors thDetectors) (groupRules glRules).1 0
      (sortStrings (groupRules glRules).2) initialState = Some st
    ∧ combine sortSlice mapOrder now thDetectors glRules
      = Some (CombinedExport.mk now
                (setTotals (length (services st))
                   (length (sortSlice _ lessKeyword (thOnlyEntries (thUsed st) thDetectors)))
                   (stats st))
                (services st)
                (sortSlice _ lessKeyword (thOnlyEntries (thUsed st) thDetectors))
                (sortStrings (glNoHosts st))).
Proof.
  destruct (groupRules_ok glRules) as (Hnd & Hks & Hnorm).
  destruct (mergeLoop_total mapOrder (indexDetectors thDetectors)
              (groupRules glRules).1 (sortStrings (groupRules glRules).2) 0 initialState)
    as [st Hst].
  { intros k Hk. apply Hks. by apply sortStrings_elem_of. }
  exists st. split; [done|].
  unfold combine. destruct (groupRules glRules) as [gm ks]. simpl in Hst.
  fold initialState. by rewrite Hst.
Qed.

(** ** The merger: statistics *)

Lemma filter_one_True {A} (P : A → Prop) `{∀ x, Decision (P x)} x :
  P x → filter P [x] = [x].
Proof. intros. by rewrite filter_cons_True. Qed.

Lemma filter_one_False {A} (P : A → Prop) `{∀ x, Decision (P x)} x :
  ¬ P x → filter P [x] = [].
Proof. intros. by rewrite filter_cons_False. Qed.

Lemma statsOf_snoc svcs svc :
  statsOf (svcs ++ [svc])
  = let n := length (CombinedSvc.Rules svc) in
    if 0 <? length (CombinedSvc.Hosts svc)
    then countWithHosts n (CombinedSvc.MatchType svc) (addRules n (statsOf svcs))
    else countNoHosts (addRules n (statsOf svcs)).
Proof.
  unfold statsOf. rewrite !filter_app, !sum_list_with_app, !length_app.
  cbv zeta. destruct (CombinedSvc.Hosts svc) as [|h hs] eqn:Hh.
  - assert (¬ hasHosts svc) as Hno by (unfold hasHosts; rewrite Hh; tauto).
    rewrite (filter_one_False hasHosts) by done.
    rewrite (filter_one_True (λ svc, ¬ hasHosts svc)) by done.
    rewrite !filter_one_False by (unfold hasHostsVia; rewrite Hh; tauto).
    simpl. f_equal; lia.
  - assert (hasHosts svc) as Hyes by (unfold hasHosts; by rewrite Hh).
    rewrite (filter_one_True hasHosts) by done.
    rewrite (filter_one_False (λ svc, ¬ hasHosts svc)) by tauto.
    assert (∀ t, hasHostsVia t svc ↔ CombinedSvc.MatchType svc = t) as Hvia.
    { intros t. unfold hasHostsVia. rewrite Hh. split; [tauto|]. by split. }
    simpl. unfold countMatch.
    destruct (String.eqb_spec (CombinedSvc.MatchType svc) "exact") as [He|He].
    { rewrite (filter_one_True (hasHostsVia "exact")) by by apply Hvia.
      rewrite !filter_one_False by (rewrite Hvia, He; discriminate).
      simpl. f_equal; lia. }
    rewrite (filter_one_False (hasHostsVia "exact")) by by rewrite Hvia.
    destruct (String.eqb_spec (CombinedSvc.MatchType svc) "prefix") as [Hp|Hp].
    { rewrite (filter_one_True (hasHostsVia "prefix")) by by apply Hvia.
      rewrite !filter_one_False by (rewrite Hvia, Hp; discriminate).
      simpl. f_equal; lia. }
    rewrite (filter_one_False (hasHostsVia "prefix")) by by rewrite Hvia.
    destruct (String.eqb_spec (CombinedSvc.MatchType svc) "alias") as [Ha|Ha].
    { rewrite (filter_one_True (hasHostsVia "alias")) by by apply Hvia.
      simpl. f_equal; lia. }
    rewrite (filter_one_False (hasHostsVia "alias")) by by rewrite Hvia.
    simpl. f_equal; lia.
Qed.

Lemma groupService_Rules_length o1 o2 thByKeyword glg :
  length (CombinedSvc.Rules (groupService o1 o2 thByKeyword glg))
  = length (glGroup.rules glg).
Proof. unfold groupService. simpl. apply length_fmap. Qed.

Lemma mergeGroup_stats mapOrder thByKeyword i glg st :
  stats st = statsOf (services st) →
  stats (mergeGroup mapOrder thByKeyword i glg st)
  = statsOf (services (mergeGroup mapOrder thByKeyword i glg st)).
Proof.
  intros Hst. rewrite mergeGroup_eq. cbv zeta. cbn [stats services].
  rewrite statsOf_snoc, Hst. cbv zeta.
  by rewrite groupService_Rules_length.
Qed.

(** The counters that the loop keeps are the counts on the list of
    services it has built. *)
Lemma mergeLoop_stats mapOrder thByKeyword glGroupMap glKeywords st :
  mergeLoop mapOrder thByKeyword glGroupMap 0 glKeywords initialState = Some st →
  stats st = statsOf (services st).
Proof.
  intros Hrun.
  apply (mergeLoop_invariant mapOrder thByKeyword glGroupMap
           (λ st, stats st = statsOf (services st)) _ _ _ _
           (mergeGroup_stats mapOrder thByKeyword) Hrun).
  reflexivity.
Qed.

Lemma filter_complement_length {A} (P : A → Prop) `{∀ x, Decision (P x)} (l : list A) :
  length (filter P l) + length (filter (λ x, ¬ P x) l) = length l.
Proof. by rewrite <- length_app, filter_app_complement. Qed.

(** C6.  [combine] returns for every input, and in the statistics it
    returns the services with hosts and the services without hosts add up
    to the number of services, and the total is the number of services
    plus the number of host-only entries. *)
Theorem combine_stats_totals
    (sortSlice : ∀ A : Type, (A → A → bool) → list A → list A)
    (mapOrder : nat → list string → list string) (now : Time)
    (thDetectors : list THDetector.t) (glRules : list GLRule.t) :
  ∃ out,
    combine sortSlice mapOrder now thDetectors glRules = Some out
    ∧ CombinedStats.ServicesWithHosts (CombinedExport.Stats out)
      + CombinedStats.ServicesNoHosts (CombinedExport.Stats out)
      = length (CombinedExport.Services out)
    ∧ CombinedStats.TotalServices (CombinedExport.Stats out)
      = length (CombinedExport.Services out) + length (CombinedExport.THOnlyHosts out).
Proof.
  destruct (combine_returns sortSlice mapOrder now thDetectors glRules)
    as (st & Hrun & ->).
  eexists. split; [done|].
  apply mergeLoop_stats in Hrun. rewrite Hrun. simpl.
  split; [apply filter_complement_length | done].
Qed.

Lemma findTHMatch_type order glKeyword thByKeyword :
  let found := findTHMatch order glKeyword thByKeyword in
  (found.1 = [] ∧ found.2 = "")
  ∨ (found.1 ≠ [] ∧ found.2 ∈ ["exact"; "prefix"; "alias"]).
Proof.
  unfold findTHMatch.
  destruct (thByKeyword !! normalizeKeyword glKeyword).
  { right. split; [done | set_solver]. }
  destruct (match serviceAliases !! glKeyword with Some _ => _ | None => _ end).
  { right. split; [done | set_solver]. }
  cbv zeta.
  destruct (if 4 <=? String.length (normalizeKeyword glKeyword) then _ else _)
    as [|m ms] eqn:Hms.
  { by left. }
  right. simpl. split; [|set_solver].
  intros Hnil. by apply sortStrings_nil_inv in Hnil.
Qed.

Lemma groupService_hosts_type o1 o2 thByKeyword glg :
  (∀ l, o2 l ≡ₚ l) →
  hasHosts (groupService o1 o2 thByKeyword glg) →
  CombinedSvc.MatchType (groupService o1 o2 thByKeyword glg)
  ∈ ["exact"; "prefix"; "alias"].
Proof.
  intros Hperm. unfold hasHosts, groupService. simpl.
  destruct (findTHMatch_type o1 (glGroup.keyword glg) thByKeyword)
    as [[Hnil _]|[_ Hty]]; [|done].
  rewrite Hnil. intros Hhosts. exfalso. apply Hhosts.
  unfold matchedEntries, sortedKeys. simpl. by rewrite rangeKeys_empty.
Qed.

Lemma mergeLoop_types mapOrder thByKeyword glGroupMap glKeywords st :
  (∀ n l, mapOrder n l ≡ₚ l) →
  mergeLoop mapOrder thByKeyword glGroupMap 0 glKeywords initialState = Some st →
  Forall (λ svc, hasHosts svc →
                 CombinedSvc.MatchType svc ∈ ["exact"; "prefix"; "alias"])
    (services st).
Proof.
  intros Hperm Hrun.
  apply (mergeLoop_invariant mapOrder thByKeyword glGroupMap
           (λ st, Forall (λ svc, hasHosts svc →
                    CombinedSvc.MatchType svc ∈ ["exact"; "prefix"; "alias"])
                    (services st)) _ _ _ _) in Hrun; [done| |by constructor].
  intros i glg st0 Hst0. rewrite mergeGroup_eq. cbv zeta. cbn [services].
  apply Forall_app. split; [done|]. constructor; [|constructor].
  by apply groupService_hosts_type.
Qed.

Lemma hasHosts_by_type svcs :
  Forall (λ svc, hasHosts svc →
                 CombinedSvc.MatchType svc ∈ ["exact"; "prefix"; "alias"]) svcs →
  length (filter (hasHostsVia "exact") svcs)
  + length (filter (hasHostsVia "prefix") svcs)
  + length (filter (hasHostsVia "alias") svcs)
  = length (filter hasHosts svcs).
Proof.
  induction 1 as [|svc svcs Hsvc _ IH]; [done|].
  rewrite !filter_cons.
  destruct (decide (hasHosts svc)) as [Hh|Hh].
  - specialize (Hsvc Hh).
    assert (∀ t, hasHostsVia t svc ↔ CombinedSvc.MatchType svc = t) as Hvia.
    { intros t. unfold hasHostsVia. split; [tauto | by split]. }
    repeat (apply elem_of_cons in Hsvc as [Hsvc|Hsvc]);
      [..|by apply elem_of_nil in Hsvc];
      repeat case_decide; rewrite ?Hvia in *; simpl; try lia; congruence.
  - repeat case_decide; simpl; try lia; unfold hasHostsVia, hasHosts in *; tauto.
Qed.

(** C10.  The three per-match-type counters count the services that have
    hosts, by match type; the services without hosts are counted by
    ServicesNoHosts whatever their match type is, and by no per-match-type
    counter.  So the three counters add up to ServicesWithHosts. *)
Theorem combine_match_counters
    (sortSlice : ∀ A : Type, (A → A → bool) → list A → list A)
    (mapOrder : nat → list string → list string) (now : Time)
    (thDetectors : list THDetector.t) (glRules : list GLRule.t) :
  (∀ n l, mapOrder n l ≡ₚ l) →
  ∃ out,
    combine sortSlice mapOrder now thDetectors glRules = Some out
    ∧ CombinedStats.MatchExact (CombinedExport.Stats out)
      = length (filter (hasHostsVia "exact") (CombinedExport.Services out))
    ∧ CombinedStats.MatchPrefix (CombinedExport.Stats out)
      = length (filter (hasHostsVia "prefix") (CombinedExport.Services out))
    ∧ CombinedStats.MatchAlias (CombinedExport.Stats out)
      = length (filter (hasHostsVia "alias") (CombinedExport.Services out))
    ∧ CombinedStats.ServicesWithHosts (CombinedExport.Stats out)
      = length (filter hasHosts (CombinedExport.Services out))
    ∧ CombinedStats.ServicesNoHosts (CombinedExport.Stats out)
      = length (filter (λ svc, ¬ hasHosts svc) (CombinedExport.Services out))
    ∧ CombinedStats.MatchExact (CombinedExport.Stats out)
      + CombinedStats.MatchPrefix (CombinedExport.Stats out)
      + CombinedStats.MatchAlias (CombinedExport.Stats out)
      = CombinedStats.ServicesWithHosts (CombinedExport.Stats out).
Proof.
  intros Hperm.
  destruct (combine_returns sortSlice mapOrder now thDetectors glRules)
    as (st & Hrun & ->).
  eexists. split; [done|].
  pose proof (mergeLoop_types _ _ _ _ _ Hperm Hrun) as Hty.
  apply mergeLoop_stats in Hrun. rewrite Hrun. simpl.
  repeat split. by apply hasHosts_by_type.
Qed.

(** C10 on the sample catalogs, walked in the order the maps list their
    keys. *)
Lemma combine_match_counters_witness :
  ∃ out,
    combine insertionSort keepOrder 0%Z sampleDetectors sampleRules = Some out
    ∧ CombinedStats.MatchExact (CombinedExport.Stats out)
      = length (filter (hasHostsVia "exact") (CombinedExport.Services out))
    ∧ CombinedStats.MatchPrefix (CombinedExport.Stats out)
      = length (filter (hasHostsVia "prefix") (CombinedExport.Services out))
    ∧ CombinedStats.MatchAlias (CombinedExport.Stats out)
      = length (filter (hasHostsVia "alias") (CombinedExport.Services out))
    ∧ CombinedStats.ServicesWithHosts (CombinedExport.Stats out)
      = length (filter hasHosts (CombinedExport.Services out))
    ∧ CombinedStats.ServicesNoHosts (CombinedExport.Stats out)
      = length (filter (λ svc, ¬ hasHosts svc) (CombinedExport.Services out))
    ∧ CombinedStats.MatchExact (CombinedExport.Stats out)
      + CombinedStats.MatchPrefix (CombinedExport.Stats out)
      + CombinedStats.MatchAlias (CombinedExport.Stats out)
      = CombinedStats.ServicesWithHosts (CombinedExport.Stats out).
Proof.
  apply (combine_match_counters insertionSort keepOrder 0%Z sampleDetectors sampleRules).
  intros n l. reflexivity.
Defined.

(** In the sample catalogs the detector ["quiet"] has no hosts.  Its
    service is matched exactly and has its match type set, and it is
    counted as a service without hosts and by no per-match-type counter:
    the one exact match that is counted is ["meraki"]. *)
Example combine_match_without_hosts :
  ∃ out,
    combine insertionSort keepOrder 0%Z sampleDetectors sampleRules = Some out
    ∧ CombinedExport.Services out !! 4
      = Some (CombinedSvc.mk "quiet" [] "exact" ["quiet"]
                (toCombinedRule <$> [sampleRule "quiet-token" "quiet";
                                     sampleRule "quiet-key" "Quiet"]))
    ∧ CombinedStats.ServicesNoHosts (CombinedExport.Stats out) = 2
    ∧ CombinedStats.MatchExact (CombinedExport.Stats out) = 1
    ∧ CombinedExport.GLNoHosts out = ["noth"; "quiet"].
Proof. eexists. split; [by vm_compute|]. by vm_compute. Qed.

(** ** The merger: determinism *)

Lemma combine_order_irrel sortSlice mapOrder now thDetectors glRules :
  (∀ n l, mapOrder n l ≡ₚ l) →
  combine sortSlice mapOrder now thDetectors glRules
  = combine sortSlice keepOrder now thDetectors glRules.
Proof.
  intros Hperm. unfold combine. destruct (groupRules glRules) as [gm ks].
  by rewrite mergeLoop_order_irrel.
Qed.

(** C7.  Two runs of [combine] on the same lists return the same list of
    services, in the same order and with the same content, in whatever
    orders the two runs walk their maps (and whatever the clock shows). *)
Theorem combine_services_deterministic
    (sortSlice1 sortSlice2 : ∀ A : Type, (A → A → bool) → list A → list A)
    (mapOrder1 mapOrder2 : nat → list string → list string) (now1 now2 : Time)
    (thDetectors : list THDetector.t) (glRules : list GLRule.t) :
  (∀ n l, mapOrder1 n l ≡ₚ l) →
  (∀ n l, mapOrder2 n l ≡ₚ l) →
  ∃ out1 out2,
    combine sortSlice1 mapOrder1 now1 thDetectors glRules = Some out1
    ∧ combine sortSlice2 mapOrder2 now2 thDetectors glRules = Some out2
    ∧ CombinedExport.Services out1 = CombinedExport.Services out2.
Proof.
  intros H1 H2.
  rewrite (combine_order_irrel sortSlice1 mapOrder1) by done.
  rewrite (combine_order_irrel sortSlice2 mapOrder2) by done.
  destruct (combine_returns sortSlice1 keepOrder now1 thDetectors glRules)
    as (st1 & Hrun1 & ->).
  destruct (combine_returns sortSlice2 keepOrder now2 thDetectors glRules)
    as (st2 & Hrun2 & ->).
  do 2 eexists. split; [done|]. split; [done|]. simpl. congruence.
Qed.

(** Walking every map backwards is one of the orders the runtime may
    pick. *)
Lemma combine_services_deterministic_witness :
  ∃ out1 out2,
    combine insertionSort keepOrder 0%Z sampleDetectors sampleRules = Some out1
    ∧ combine insertionSort (λ _, reverse) 1%Z sampleDetectors sampleRules = Some out2
    ∧ CombinedExport.Services out1 = CombinedExport.Services out2.
Proof.
  apply (combine_services_deterministic insertionSort insertionSort
           keepOrder (λ _, reverse) 0%Z 1%Z sampleDetectors sampleRules).
  - intros n l. reflexivity.
  - intros n l. apply reverse_Permutation.
Defined.

(** C2, as the code has it.  Two runs of [combine] on the same lists
    return the same statistics, services, host-only entries and list of
    keywords without hosts, in whatever orders the two runs walk their
    maps; each output carries the time of its own run in GeneratedAt. *)
Theorem combine_deterministic_but_for_time
    (sortSlice : ∀ A : Type, (A → A → bool) → list A → list A)
    (mapOrder1 mapOrder2 : nat → list string → list string) (now1 now2 : Time)
    (thDetectors : list THDetector.t) (glRules : list GLRule.t) :
  (∀ n l, mapOrder1 n l ≡ₚ l) →
  (∀ n l, mapOrder2 n l ≡ₚ l) →
  ∃ out1 out2,
    combine sortSlice mapOrder1 now1 thDetectors glRules = Some out1
    ∧ combine sortSlice mapOrder2 now2 thDetectors glRules = Some out2
    ∧ CombinedExport.GeneratedAt out1 = now1
    ∧ CombinedExport.GeneratedAt out2 = now2
    ∧ CombinedExport.Stats out1 = CombinedExport.Stats out2
    ∧ CombinedExport.Services out1 = CombinedExport.Services out2
    ∧ CombinedExport.THOnlyHosts out1 = CombinedExport.THOnlyHosts out2
    ∧ CombinedExport.GLNoHosts out1 = CombinedExport.GLNoHosts out2.
Proof.
  intros H1 H2.
  rewrite (combine_order_irrel sortSlice mapOrder1) by done.
  rewrite (combine_order_irrel sortSlice mapOrder2) by done.
  destruct (combine_returns sortSlice keepOrder now1 thDetectors glRules)
    as (st1 & Hrun1 & ->).
  destruct (combine_returns sortSlice keepOrder now2 thDetectors glRules)
    as (st2 & Hrun2 & ->).
  assert (st1 = st2) as -> by congruence.
  do 2 eexists. split; [done|]. split; [done|]. by simpl.
Qed.

Lemma combine_deterministic_but_for_time_witness :
  ∃ out1 out2,
    combine insertionSort keepOrder 0%Z sampleDetectors sampleRules = Some out1
    ∧ combine insertionSort (λ _, reverse) 1%Z sampleDetectors sampleRules = Some out2
    ∧ CombinedExport.GeneratedAt out1 = 0%Z
    ∧ CombinedExport.GeneratedAt out2 = 1%Z
    ∧ CombinedExport.Stats out1 = CombinedExport.Stats out2
    ∧ CombinedExport.Services out1 = CombinedExport.Services out2
    ∧ CombinedExport.THOnlyHosts out1 = CombinedExport.THOnlyHosts out2
    ∧ CombinedExport.GLNoHosts out1 = CombinedExport.GLNoHosts out2.
Proof.
  apply (combine_deterministic_but_for_time insertionSort
           keepOrder (λ _, reverse) 0%Z 1%Z sampleDetectors sampleRules).
  - intros n l. reflexivity.
  - intros n l. apply reverse_Permutation.
Defined.

(** C2 as it is worded fails: two runs on the same (here empty) lists, a
    nanosecond apart, return outputs that differ. *)
Lemma combine_outputs_differ_in_time :
  combine insertionSort keepOrder 0%Z [] []
  ≠ combine insertionSort keepOrder 1%Z [] [].
Proof. by vm_compute. Qed.

(** ** The merger: consumed and host-only entities *)

(** A source name is marked used exactly when a service lists it. *)
Lemma mergeLoop_used mapOrder thByKeyword glGroupMap glKeywords st :
  mergeLoop mapOrder thByKeyword glGroupMap 0 glKeywords initialState = Some st →
  ∀ name, lookupBool (thUsed st) name = true
          ↔ ∃ svc, svc ∈ services st ∧ name ∈ CombinedSvc.MatchedTH svc.
Proof.
  intros Hrun.
  apply (mergeLoop_invariant mapOrder thByKeyword glGroupMap
           (λ st, ∀ name, lookupBool (thUsed st) name = true
                    ↔ ∃ svc, svc ∈ services st ∧ name ∈ CombinedSvc.MatchedTH svc)
           glKeywords 0 initialState st); [|done|].
  - intros i glg st0 Hst0 name. rewrite mergeGroup_eq. cbv zeta. cbn [thUsed services].
    rewrite lookupBool_addKeys, Hst0, <- groupService_MatchedTH. split.
    + intros [Hnew|(svc & Hin & Hname)].
      * eexists. split; [|exact Hnew]. apply elem_of_app. right. by left.
      * exists svc. split; [|done]. apply elem_of_app. by left.
    + intros (svc & Hin & Hname). apply elem_of_app in Hin as [Hin|Hin].
      * right. by exists svc.
      * apply list_elem_of_singleton in Hin as ->. by left.
  - intros name. simpl. rewrite lookupBool_empty. split; [done|].
    by intros (svc & Hin%elem_of_nil & _).
Qed.

Lemma consumers_nil out name :
  consumers out name = []
  ↔ ¬ ∃ svc, svc ∈ CombinedExport.Services out ∧ name ∈ CombinedSvc.MatchedTH svc.
Proof.
  unfold consumers. split.
  - intros Hnil (svc & Hin & Hname).
    exact (filter_nil_not_elem_of _ _ svc Hnil Hname Hin).
  - intros Hno. destruct (filter _ _) as [|svc l] eqn:Hf; [done|].
    exfalso. apply Hno. exists svc.
    assert (svc ∈ filter (λ svc, name ∈ CombinedSvc.MatchedTH svc)
                    (CombinedExport.Services out)) as Hin
      by (rewrite Hf; by left).
    apply list_elem_of_filter in Hin. tauto.
Qed.

Lemma thOnlyEntries_of_name used thDetectors name :
  filter (λ e, THOnlyEntry.DirName e = name) (thOnlyEntries used thDetectors)
  = if lookupBool used name then []
    else toTHOnlyEntry <$> filter (λ d, THDetector.DirName d = name) thDetectors.
Proof.
  unfold thOnlyEntries. induction thDetectors as [|d ds IH].
  - by destruct (lookupBool used name).
  - rewrite (filter_cons (λ d, lookupBool used _ = false)).
    rewrite (filter_cons (λ d, THDetector.DirName d = name)).
    destruct (decide (THDetector.DirName d = name)) as [<-|Hne].
    + destruct (lookupBool used (THDetector.DirName d)) eqn:Hu.
      * rewrite decide_False by done. by rewrite IH.
      * rewrite decide_True by done. rewrite fmap_cons, filter_cons_True by done.
        by rewrite IH.
    + case_decide.
      * rewrite fmap_cons, filter_cons_False by done. by rewrite IH.
      * by rewrite IH.
Qed.

(** C1, as the code has it.  For every host entity of the input, either
    at least one service lists its source name among its matched names
    and no host-only entry has that name, or no service lists it and the
    host-only entries of that name are the input entities of that name,
    unmodified: the entity itself and nothing else when source names are
    distinct. *)
Theorem combine_consumed_or_host_only
    (sortSlice : ∀ A : Type, (A → A → bool) → list A → list A)
    (mapOrder : nat → list string → list string) (now : Time)
    (thDetectors : list THDetector.t) (glRules : list GLRule.t) :
  (∀ A less l, sortSlice A less l ≡ₚ l) →
  ∃ out,
    combine sortSlice mapOrder now thDetectors glRules = Some out
    ∧ ∀ d, d ∈ thDetectors →
        (consumers out (THDetector.DirName d) ≠ []
         ∧ hostOnly out (THDetector.DirName d) = [])
        ∨ (consumers out (THDetector.DirName d) = []
           ∧ hostOnly out (THDetector.DirName d)
             ≡ₚ toTHOnlyEntry <$>
                  filter (λ d', THDetector.DirName d' = THDetector.DirName d) thDetectors
           ∧ (NoDup (THDetector.DirName <$> thDetectors) →
              hostOnly out (THDetector.DirName d) = [toTHOnlyEntry d])).
Proof.
  intros Hsort.
  destruct (combine_returns sortSlice mapOrder now thDetectors glRules)
    as (st & Hrun & ->).
  eexists. split; [done|]. intros d Hd.
  pose proof (mergeLoop_used _ _ _ _ _ Hrun (THDetector.DirName d)) as Hused.
  assert (hostOnly
            (CombinedExport.mk now
               (setTotals (length (services st))
                  (length (sortSlice _ lessKeyword (thOnlyEntries (thUsed st) thDetectors)))
                  (stats st))
               (services st)
               (sortSlice _ lessKeyword (thOnlyEntries (thUsed st) thDetectors))
               (sortStrings (glNoHosts st))) (THDetector.DirName d)
          ≡ₚ if lookupBool (thUsed st) (THDetector.DirName d) then []
             else toTHOnlyEntry <$>
                    filter (λ d', THDetector.DirName d' = THDetector.DirName d)
                      thDetectors) as Hkept.
  { unfold hostOnly. cbn [CombinedExport.THOnlyHosts].
    by rewrite Hsort, thOnlyEntries_of_name. }
  destruct (lookupBool (thUsed st) (THDetector.DirName d)) eqn:Hu.
  - left. split.
    + rewrite consumers_nil. intros Hno. apply Hno. by apply Hused.
    + by apply Permutation_nil_r.
  - right. split; [|split; [done|]].
    + apply consumers_nil. cbn [CombinedExport.Services].
      rewrite <- Hused. congruence.
    + intros Hnd. apply Permutation_singleton_r. rewrite Hkept.
      assert (filter (λ d', THDetector.DirName d' = THDetector.DirName d) thDetectors
              = [d]) as ->; [|done].
      clear -Hd Hnd. induction thDetectors as [|d0 ds IH]; [by apply elem_of_nil in Hd|].
      rewrite fmap_cons in Hnd. apply NoDup_cons in Hnd as [Hnotin Hnd].
      apply elem_of_cons in Hd as [->|Hd].
      * rewrite filter_cons_True by done. f_equal.
        destruct (filter _ ds) as [|d1 l] eqn:Hf; [done|].
        exfalso. apply Hnotin.
        assert (d1 ∈ filter (λ d', THDetector.DirName d' = THDetector.DirName d0) ds)
          as Hin by (rewrite Hf; by left).
        apply list_elem_of_filter in Hin as [<- Hin].
        apply list_elem_of_fmap. by exists d1.
      * rewrite filter_cons_False; [by apply IH|].
        intros Heq. apply Hnotin. rewrite Heq.
        apply list_elem_of_fmap. by exists d.
Qed.

Lemma sink_perm {A} (less : A → A → bool) x sorted : sink less x sorted ≡ₚ x :: sorted.
Proof.
  induction sorted as [|y rest IH]; simpl; [done|].
  destruct (less x y); [|done]. rewrite IH. apply Permutation_swap.
Qed.

Lemma insertionSort_perm A (less : A → A → bool) l : insertionSort A less l ≡ₚ l.
Proof.
  unfold insertionSort. rewrite reverse_Permutation.
  assert (∀ acc, foldl (λ sorted x, sink less x sorted) acc l ≡ₚ acc ++ l) as H.
  { induction l as [|x l IH]; intros acc; simpl; [by rewrite app_nil_r|].
    rewrite IH, sink_perm. simpl. apply Permutation_middle. }
  apply (H []).
Qed.

Lemma combine_consumed_or_host_only_witness :
  ∃ out,
    combine insertionSort keepOrder 0%Z sampleDetectors sampleRules = Some out
    ∧ ∀ d, d ∈ sampleDetectors →
        (consumers out (THDetector.DirName d) ≠ []
         ∧ hostOnly out (THDetector.DirName d) = [])
        ∨ (consumers out (THDetector.DirName d) = []
           ∧ hostOnly out (THDetector.DirName d)
             ≡ₚ toTHOnlyEntry <$>
                  filter (λ d', THDetector.DirName d' = THDetector.DirName d)
                    sampleDetectors
           ∧ (NoDup (THDetector.DirName <$> sampleDetectors) →
              hostOnly out (THDetector.DirName d) = [toTHOnlyEntry d])).
Proof.
  apply (combine_consumed_or_host_only insertionSort keepOrder 0%Z
           sampleDetectors sampleRules).
  exact insertionSort_perm.
Defined.

(** C1 as it is worded fails: the rule keywords ["cisco-meraki"] (through
    the alias table) and ["meraki"] (exactly) both match the detector
    ["meraki"], and both services list it. *)
Lemma combine_entity_consumed_twice :
  ∃ out,
    combine insertionSort keepOrder 0%Z merakiDetectors merakiRules = Some out
    ∧ CombinedSvc.Keyword <$> consumers out "meraki" = ["cisco-meraki"; "meraki"]
    ∧ ¬ consumedOnceOrKeptOnce out "meraki".
Proof.
  eexists. split; [by vm_compute|]. split; [by vm_compute|].
  intros [[H _]|[H _]]; vm_compute in H; discriminate H.
Qed.

(** ** The projection *)

Lemma hasHosts_ltb svc : (0 <? length (CombinedSvc.Hosts svc)) = true ↔ hasHosts svc.
Proof.
  unfold hasHosts. rewrite Nat.ltb_lt.
  destruct (CombinedSvc.Hosts svc); simpl; split; (done || lia).
Qed.

Lemma NoDup_fmap_eq {A B} (f : A → B) (l : list A) x y :
  NoDup (f <$> l) → x ∈ l → y ∈ l → f x = f y → x = y.
Proof.
  induction l as [|a l IH]; intros Hnd Hx Hy Heq; [by apply elem_of_nil in Hx|].
  rewrite fmap_cons in Hnd. apply NoDup_cons in Hnd as [Hnotin Hnd].
  apply elem_of_cons in Hx as [->|Hx]; apply elem_of_cons in Hy as [->|Hy].
  - done.
  - exfalso. apply Hnotin. rewrite Heq. apply list_elem_of_fmap. by exists y.
  - exfalso. apply Hnotin. rewrite <- Heq. apply list_elem_of_fmap. by exists x.
  - by apply IH.
Qed.

Lemma uniqueServices_keywords svcs :
  uniqueServices svcs → NoDup (CombinedSvc.Keyword <$> svcs).
Proof.
  unfold uniqueServices. rewrite list_fmap_compose. apply NoDup_fmap_1.
Qed.

(** The two maps that the first loop of [toGondolinExport] builds. *)
Lemma indexHosts_hasHosts svcs k :
  lookupBool (foldl indexHosts (∅, ∅) svcs).2 k = true
  ↔ ∃ svc, svc ∈ svcs ∧ hasHosts svc ∧ normalizeKeyword (CombinedSvc.Keyword svc) = k.
Proof.
  induction svcs as [|svc svcs IH] using rev_ind.
  - simpl. rewrite lookupBool_empty. split; [done|].
    by intros (svc & Hin%elem_of_nil & _).
  - rewrite foldl_snoc. destruct (foldl indexHosts (∅, ∅) svcs) as [kh hh].
    unfold indexHosts. simpl in IH.
    destruct (0 <? length (CombinedSvc.Hosts svc)) eqn:Hh; cbn [snd].
    + apply hasHosts_ltb in Hh. rewrite lookupBool_insert_true, IH. split.
      * intros [->|(svc' & Hin & Hs)].
        -- exists svc. split; [|done]. apply elem_of_app. right. by left.
        -- exists svc'. split; [|done]. apply elem_of_app. by left.
      * intros (svc' & Hin & Hh' & Hk). apply elem_of_app in Hin as [Hin|Hin].
        -- right. by exists svc'.
        -- apply list_elem_of_singleton in Hin as ->. by left.
    + rewrite IH. split.
      * intros (svc' & Hin & Hs). exists svc'. split; [|done].
        apply elem_of_app. by left.
      * intros (svc' & Hin & Hh' & Hk). apply elem_of_app in Hin as [Hin|Hin].
        -- by exists svc'.
        -- apply list_elem_of_singleton in Hin as ->.
           apply hasHosts_ltb in Hh'. congruence.
Qed.

Lemma indexHosts_keywordHosts svcs k hs :
  NoDup (CombinedSvc.Keyword <$> svcs) →
  (foldl indexHosts (∅, ∅) svcs).1 !! k = Some hs
  ↔ ∃ svc, svc ∈ svcs ∧ CombinedSvc.Keyword svc = k
           ∧ CombinedSvc.Hosts svc = hs ∧ hs ≠ [].
Proof.
  induction svcs as [|svc svcs IH] using rev_ind; intros Hnd.
  - simpl. rewrite lookup_empty. split; [done|].
    by intros (svc & Hin%elem_of_nil & _).
  - rewrite fmap_app in Hnd. apply NoDup_app in Hnd as (Hnd & Hfresh & _).
    specialize (IH Hnd).
    assert (∀ svc', svc' ∈ svcs → CombinedSvc.Keyword svc' ≠ CombinedSvc.Keyword svc)
      as Hne.
    { intros svc' Hin Heq. apply (Hfresh (CombinedSvc.Keyword svc')).
      - apply list_elem_of_fmap. by exists svc'.
      - rewrite Heq. by left. }
    rewrite foldl_snoc. destruct (foldl indexHosts (∅, ∅) svcs) as [kh hh].
    unfold indexHosts. simpl in IH.
    destruct (0 <? length (CombinedSvc.Hosts svc)) eqn:Hh; cbn [fst].
    + apply hasHosts_ltb in Hh.
      destruct (decide (CombinedSvc.Keyword svc = k)) as [<-|Hk].
      * rewrite lookup_insert_eq. split.
        -- intros [= <-]. exists svc. split; [|done]. apply elem_of_app. right. by left.
        -- intros (svc' & Hin & Hkw & Hhs & _). apply elem_of_app in Hin as [Hin|Hin].
           ++ by apply Hne in Hin.
           ++ apply list_elem_of_singleton in Hin as ->. by rewrite Hhs.
      * rewrite lookup_insert_ne, IH by done. split.
        -- intros (svc' & Hin & Hs). exists svc'. split; [|done].
           apply elem_of_app. by left.
        -- intros (svc' & Hin & Hkw & Hs). apply elem_of_app in Hin as [Hin|Hin].
           ++ by exists svc'.
           ++ by apply list_elem_of_singleton in Hin as ->.
    + rewrite IH. split.
      * intros (svc' & Hin & Hs). exists svc'. split; [|done].
        apply elem_of_app. by left.
      * intros (svc' & Hin & Hkw & Hhs & Hnil). apply elem_of_app in Hin as [Hin|Hin].
        -- by exists svc'.
        -- apply list_elem_of_singleton in Hin as ->.
           assert (hasHosts svc) as Hyes by (unfold hasHosts; by rewrite Hhs).
           apply hasHosts_ltb in Hyes. congruence.
Qed.

Lemma toGondolinExport_fields sortSlice tableOrder full :
  GondolinExport.KeywordHostMap (toGondolinExport sortSlice tableOrder full)
  = (foldl indexHosts (∅, ∅) (CombinedExport.Services full)).1
  ∧ GondolinExport.ValuePatterns (toGondolinExport sortSlice tableOrder full)
    = sortSlice _ lessPattern
        (CombinedExport.Services full
           ≫= servicePatterns (foldl indexHosts (∅, ∅) (CombinedExport.Services full)).2).
Proof.
  unfold toGondolinExport.
  by destruct (foldl indexHosts (∅, ∅) (CombinedExport.Services full)).
Qed.

Lemma bind_ext_elem_of {A B} (f g : A → list B) (l : list A) :
  (∀ x, x ∈ l → f x = g x) → l ≫= f = l ≫= g.
Proof.
  induction l as [|x l IH]; intros H; [done|].
  rewrite !bind_cons, (H x) by (by left). f_equal. apply IH.
  intros y Hy. apply H. by right.
Qed.

(** The projection of a dataset that has one service for each normalized
    keyword. *)
Lemma toGondolinExport_unique sortSlice tableOrder full :
  (∀ A less l, sortSlice A less l ≡ₚ l) →
  uniqueServices (CombinedExport.Services full) →
  let slim := toGondolinExport sortSlice tableOrder full in
  (∀ k hs,
     GondolinExport.KeywordHostMap slim !! k = Some hs
     ↔ ∃ svc, svc ∈ CombinedExport.Services full ∧ CombinedSvc.Keyword svc = k
              ∧ CombinedSvc.Hosts svc = hs ∧ hs ≠ [])
  ∧ GondolinExport.ValuePatterns slim
    ≡ₚ CombinedExport.Services full
         ≫= (λ svc, linkedPattern (GondolinExport.KeywordHostMap slim) svc
                      <$> CombinedSvc.Rules svc).
Proof.
  intros Hsort Huniq slim.
  destruct (toGondolinExport_fields sortSlice tableOrder full) as [Hmap Hpat].
  subst slim. rewrite Hmap, Hpat. clear Hmap Hpat.
  pose proof (uniqueServices_keywords _ Huniq) as Hkw.
  split.
  - intros k hs. by apply indexHosts_keywordHosts.
  - rewrite Hsort.
    rewrite (bind_ext_elem_of (servicePatterns _)
               (λ svc, linkedPattern
                         (foldl indexHosts (∅, ∅) (CombinedExport.Services full)).1 svc
                         <$> CombinedSvc.Rules svc)); [done|].
    intros svc Hsvc. unfold servicePatterns. apply list_fmap_ext.
    intros _ r _. unfold toValuePattern, linkedPattern. f_equal.
    destruct (lookupBool _ (normalizeKeyword (CombinedSvc.Keyword svc))) eqn:Hl.
    + apply indexHosts_hasHosts in Hl as (svc' & Hin & Hh & Heq).
      assert (svc' = svc) as -> by (by apply (NoDup_fmap_eq _ _ _ _ Huniq)).
      rewrite decide_True; [done|].
      exists (CombinedSvc.Hosts svc). apply indexHosts_keywordHosts; [done|].
      by exists svc.
    + rewrite decide_False; [done|]. intros [hs Hhs].
      apply indexHosts_keywordHosts in Hhs as (svc' & Hin & Heq & Hhosts & Hnil);
        [|done].
      apply not_true_iff_false in Hl. apply Hl. apply indexHosts_hasHosts.
      exists svc'. split; [done|]. split; [|by rewrite Heq].
      unfold hasHosts. by rewrite Hhosts.
Qed.

(** The services that [combine] returns are one for each normalized
    keyword. *)
Lemma combine_uniqueServices sortSlice mapOrder now thDetectors glRules out :
  combine sortSlice mapOrder now thDetectors glRules = Some out →
  uniqueServices (CombinedExport.Services out).
Proof.
  destruct (combine_returns sortSlice mapOrder now thDetectors glRules)
    as (st & Hrun & ->).
  intros [= <-]. cbn [CombinedExport.Services].
  destruct (groupRules_ok glRules) as (Hnd & Hks & Hnorm).
  unfold uniqueServices.
  rewrite (mergeLoop_keywords _ _ _ _ _ _ _ Hnorm Hrun). simpl.
  by rewrite sortStrings_perm.
Qed.

(** C8.  For the dataset that [combine] returns, the keyword-to-hosts map
    of the projection holds exactly the services whose host list is not
    empty, each under its keyword with its hosts, and the pattern list is
    the flattened list of the rules of the services, in some order, where
    the pattern of a rule carries the keyword of its service if and only
    if that keyword is a key of the map. *)
Theorem toGondolinExport_links
    (sortSlice : ∀ A : Type, (A → A → bool) → list A → list A)
    (mapOrder : nat → list string → list string)
    (tableOrder : list string → list string) (now : Time)
    (thDetectors : list THDetector.t) (glRules : list GLRule.t) :
  (∀ A less l, sortSlice A less l ≡ₚ l) →
  ∃ full,
    combine sortSlice mapOrder now thDetectors glRules = Some full
    ∧ let slim := toGondolinExport sortSlice tableOrder full in
      (∀ k hs,
         GondolinExport.KeywordHostMap slim !! k = Some hs
         ↔ ∃ svc, svc ∈ CombinedExport.Services full ∧ CombinedSvc.Keyword svc = k
                  ∧ CombinedSvc.Hosts svc = hs ∧ hs ≠ [])
      ∧ GondolinExport.ValuePatterns slim
        ≡ₚ CombinedExport.Services full
             ≫= (λ svc, linkedPattern (GondolinExport.KeywordHostMap slim) svc
                          <$> CombinedSvc.Rules svc).
Proof.
  intros Hsort.
  destruct (combine_returns sortSlice mapOrder now thDetectors glRules)
    as (st & Hrun & Hout).
  eexists. split; [exact Hout|].
  apply toGondolinExport_unique; [done|].
  by apply (combine_uniqueServices _ _ _ _ _ _ Hout).
Qed.

Lemma toGondolinExport_links_witness :
  ∃ full,
    combine insertionSort keepOrder 0%Z sampleDetectors sampleRules = Some full
    ∧ let slim := toGondolinExport insertionSort (λ l, l) full in
      (∀ k hs,
         GondolinExport.KeywordHostMap slim !! k = Some hs
         ↔ ∃ svc, svc ∈ CombinedExport.Services full ∧ CombinedSvc.Keyword svc = k
                  ∧ CombinedSvc.Hosts svc = hs ∧ hs ≠ [])
      ∧ GondolinExport.ValuePatterns slim
        ≡ₚ CombinedExport.Services full
             ≫= (λ svc, linkedPattern (GondolinExport.KeywordHostMap slim) svc
                          <$> CombinedSvc.Rules svc).
Proof.
  apply (toGondolinExport_links insertionSort keepOrder (λ l, l) 0%Z
           sampleDetectors sampleRules).
  exact insertionSort_perm.
Defined.

(** The projection scenario of the specification: the map holds ["stripe"]
    only, both patterns are listed, the pattern of stripe is linked and
    comes first, the pattern of age carries no keyword. *)
Example toGondolinExport_stripe_and_age :
  let slim := toGondolinExport insertionSort (λ l, l) stripeAndAge in
  map_to_list (GondolinExport.KeywordHostMap slim) = [("stripe", ["api.stripe.com"])]
  ∧ (ValuePattern.ID <$> GondolinExport.ValuePatterns slim)
    = ["stripe-access-token"; "age-secret-key"]
  ∧ (ValuePattern.Keyword <$> GondolinExport.ValuePatterns slim) = ["stripe"; ""]
  ∧ GondolinExport.ExactNameHostMap slim = exactNameHostMap
  ∧ GondolinExport.SchemaVersion slim = 1%Z.
Proof. repeat split; vm_compute; reflexivity. Qed.

(** The linkage rests on that invariant.  In a hand-built dataset that
    spells one normalized keyword in two ways, which [combine] never
    returns, the second spelling is linked through the hosts of the
    first. *)
Example toGondolinExport_two_spellings :
  let full :=
    CombinedExport.mk 0%Z CombinedStats.zero
      [ CombinedSvc.mk "new-relic" ["api.newrelic.com"] "exact" ["newrelic"] [];
        CombinedSvc.mk "newrelic" [] "" []
          [CombinedRule.mk "new-relic-user-api-key" "" "NRAK-[a-z0-9]{27}" 0%Z 0%Z []] ]
      [] [] in
  let slim := toGondolinExport insertionSort (λ l, l) full in
  ¬ uniqueServices (CombinedExport.Services full)
  ∧ GondolinExport.KeywordHostMap slim !! "newrelic" = None
  ∧ (ValuePattern.Keyword <$> GondolinExport.ValuePatterns slim) = ["newrelic"].
Proof.
  split; [|split; vm_compute; reflexivity].
  unfold uniqueServices. vm_compute. intros H.
  apply NoDup_cons in H as [H _]. apply H. by left.
Qed.

(** ** The tests of the repository *)

Example TestCombineBasic :
  ∃ out,
    combine insertionSort keepOrder 0%Z
      [ THDetector.mk "anthropic" "anthropic" ["api.anthropic.com"];
        THDetector.mk "openai" "openai" ["api.openai.com"];
        THDetector.mk "cloudflareapitoken" "cloudflare" ["api.cloudflare.com"];
        THDetector.mk "nogl" "nogl" ["api.nogl.com"] ]
      [ sampleRule "anthropic-api-key" "anthropic";
        sampleRule "openai-api-key" "openai";
        sampleRule "cloudflare-api-key" "cloudflare";
        sampleRule "noth-secret" "noth" ] = Some out
    ∧ CombinedStats.ServicesWithHosts (CombinedExport.Stats out) = 3
    ∧ CombinedStats.ServicesNoHosts (CombinedExport.Stats out) = 1
    ∧ CombinedStats.THOnlyServices (CombinedExport.Stats out) = 1
    ∧ CombinedStats.TotalRules (CombinedExport.Stats out) = 4
    ∧ (CombinedSvc.Keyword <$> CombinedExport.Services out)
      = ["anthropic"; "cloudflare"; "noth"; "openai"]
    ∧ (CombinedSvc.MatchType <$> CombinedExport.Services out)
      = ["exact"; "exact"; ""; "exact"]
    ∧ (THOnlyEntry.Keyword <$> CombinedExport.THOnlyHosts out) = ["nogl"].
Proof. eexists. split; [by vm_compute|]. repeat split; vm_compute; reflexivity. Qed.

Example TestCombineAliasMatch :
  ∃ out,
    combine insertionSort keepOrder 0%Z
      [ THDetector.mk "meraki" "meraki" ["api.meraki.com"] ]
      [ sampleRule "cisco-meraki-api-key" "cisco-meraki" ] = Some out
    ∧ CombinedStats.ServicesWithHosts (CombinedExport.Stats out) = 1
    ∧ CombinedStats.MatchAlias (CombinedExport.Stats out) = 1
    ∧ (CombinedSvc.Keyword <$> CombinedExport.Services out) = ["cisco-meraki"]
    ∧ (CombinedSvc.Hosts <$> CombinedExport.Services out) = [["api.meraki.com"]].
Proof. eexists. split; [by vm_compute|]. repeat split; vm_compute; reflexivity. Qed.

Example TestCombinePrefixMatch :
  ∃ out,
    combine insertionSort keepOrder 0%Z
      [ THDetector.mk "foobartoken" "foobar" ["api.foobar.com"];
        THDetector.mk "foobarsecret" "foobar" ["auth.foobar.com"] ]
      [ sampleRule "foobar-api-key" "foobar" ] = Some out
    ∧ CombinedStats.ServicesWithHosts (CombinedExport.Stats out) = 1
    ∧ (CombinedSvc.Hosts <$> CombinedExport.Services out)
      = [["api.foobar.com"; "auth.foobar.com"]].
Proof. eexists. split; [by vm_compute|]. repeat split; vm_compute; reflexivity. Qed.

Example TestCombineMultipleRulesSameService :
  ∃ out,
    combine insertionSort keepOrder 0%Z
      [ THDetector.mk "slack" "slack" ["slack.com"; "api.slack.com"] ]
      [ sampleRule "slack-bot-token" "slack";
        sampleRule "slack-user-token" "slack";
        sampleRule "slack-app-token" "slack" ] = Some out
    ∧ CombinedStats.ServicesWithHosts (CombinedExport.Stats out) = 1
    ∧ CombinedStats.TotalRules (CombinedExport.Stats out) = 3
    ∧ (length ∘ CombinedSvc.Rules <$> CombinedExport.Services out) = [3].
Proof. eexists. split; [by vm_compute|]. repeat split; vm_compute; reflexivity. Qed.

Example TestToGondolinExportSorting :
  ValuePattern.ID <$>
    GondolinExport.ValuePatterns
      (toGondolinExport insertionSort (λ l, l)
         (CombinedExport.mk 0%Z CombinedStats.zero
            [ CombinedSvc.mk "zebra" [] "" []
                [CombinedRule.mk "zebra-key" "" "zebra_[a-z]+" 0%Z 0%Z []];
              CombinedSvc.mk "alpha" ["api.alpha.com"] "" []
                [CombinedRule.mk "alpha-key" "" "alpha_[a-z]+" 0%Z 0%Z ["alpha_"]] ]
            [] []))
  = ["alpha-key"; "zebra-key"].
Proof. vm_compute. reflexivity. Qed.

Example TestNoFalsePositives :
  deriveKeywordFromTHName "alienvault" = "alienvault"
  ∧ deriveKeywordFromTHName "finage" = "finage"
  ∧ deriveKeywordFromTHName "coincap" = "coincap".
Proof. repeat split; vm_compute; reflexivity. Qed.

(** * Further properties *)

(** ** The index of the detectors *)

Lemma indexDetectors_snoc ths d :
  indexDetectors (ths ++ [d]) = indexDetector (indexDetectors ths) d.
Proof. unfold indexDetectors. apply foldl_snoc. Qed.

Lemma detectorsFor_snoc k ths d :
  detectorsFor k (ths ++ [d])
  = detectorsFor k ths
    ++ (if decide (normalizeKeyword (THDetector.Keyword d) = k) then [d] else []).
Proof.
  unfold detectorsFor. rewrite filter_app. by f_equal.
Qed.

Lemma indexDetectors_lookup_aux thDetectors k :
  indexDetectors thDetectors !! k
  = match toEntry <$> detectorsFor k thDetectors with
    | [] => None
    | entries => Some entries
    end.
Proof.
  induction thDetectors as [|d ths IH] using rev_ind; [done|].
  rewrite indexDetectors_snoc, detectorsFor_snoc, fmap_app.
  unfold indexDetector.
  destruct (decide (normalizeKeyword (THDetector.Keyword d) = k)) as [<-|Hne].
  - rewrite lookup_insert_eq, IH. simpl.
    by destruct (toEntry <$> detectorsFor _ ths).
  - rewrite lookup_insert_ne, IH by done. simpl. by rewrite app_nil_r.
Qed.

(** X1.  The index that [combine] builds holds, at a normalized keyword,
    the entries of the detectors of that normalized keyword in input
    order, and nothing at a key that no detector has.  Its keys are
    normal forms and it never holds an empty list. *)
Theorem indexDetectors_lookup (thDetectors : list THDetector.t) (k : string) :
  (∀ entries,
     indexDetectors thDetectors !! k = Some entries
     ↔ entries ≠ [] ∧ entries = toEntry <$> detectorsFor k thDetectors)
  ∧ (indexDetectors thDetectors !! k = None
     ↔ ∀ d, d ∈ thDetectors → normalizeKeyword (THDetector.Keyword d) ≠ k)
  ∧ (is_Some (indexDetectors thDetectors !! k) → normalizeKeyword k = k).
Proof.
  rewrite indexDetectors_lookup_aux.
  assert (∀ d, d ∈ detectorsFor k thDetectors
               ↔ d ∈ thDetectors ∧ normalizeKeyword (THDetector.Keyword d) = k)
    as Hfor.
  { intros d. unfold detectorsFor. rewrite list_elem_of_filter. tauto. }
  destruct (detectorsFor k thDetectors) as [|d ds] eqn:Hds.
  - split; [|split].
    + intros entries. simpl. split; [done|]. by intros [Hne ->].
    + split; [|done]. intros _ d Hd Hk.
      apply (elem_of_nil d). apply Hfor. by split.
    + by intros [? [= ]].
  - assert (normalizeKeyword (THDetector.Keyword d) = k) as Hd
      by (apply Hfor; by left).
    split; [|split].
    + intros entries. simpl. split.
      * by intros [= <-].
      * by intros [_ ->].
    + split; [done|]. intros Hnone. exfalso.
      apply (Hnone d); [|done]. apply Hfor. by left.
    + intros _. rewrite <- Hd. apply normalizeKeyword_idemp.
Qed.

Lemma indexDetectors_key_normal thDetectors k :
  is_Some (indexDetectors thDetectors !! k) → normalizeKeyword k = k.
Proof.
  rewrite indexDetectors_lookup_aux. intros Hsome.
  destruct (detectorsFor k thDetectors) as [|d ds] eqn:Hds; [by destruct Hsome|].
  assert (d ∈ detectorsFor k thDetectors) as Hin by (rewrite Hds; by left).
  apply list_elem_of_filter in Hin as [<- _]. apply normalizeKeyword_idemp.
Qed.

Lemma indexDetectors_default thDetectors k :
  default [] (indexDetectors thDetectors !! k) = toEntry <$> detectorsFor k thDetectors.
Proof.
  rewrite indexDetectors_lookup_aux.
  by destruct (toEntry <$> detectorsFor k thDetectors).
Qed.

(** ** The groups of the rules *)

Lemma groupRules_snoc gls r :
  groupRules (gls ++ [r]) = groupRule (groupRules gls) r.
Proof. unfold groupRules. apply foldl_snoc. Qed.

Lemma rulesFor_snoc k gls r :
  rulesFor k (gls ++ [r])
  = rulesFor k gls
    ++ (if decide (normalizeKeyword (GLRule.Keyword r) = k) then [r] else []).
Proof. unfold rulesFor. rewrite filter_app. by f_equal. Qed.

Lemma groupRules_lookup glRules k :
  (groupRules glRules).1 !! k
  = match rulesFor k glRules with
    | [] => None
    | r :: rs => Some (glGroup.mk (GLRule.Keyword r) (r :: rs))
    end.
Proof.
  induction glRules as [|r gls IH] using rev_ind; [done|].
  rewrite groupRules_snoc, rulesFor_snoc.
  destruct (groupRules gls) as [gm ks]. simpl in IH. unfold groupRule.
  destruct (decide (normalizeKeyword (GLRule.Keyword r) = k)) as [<-|Hne].
  - rewrite IH.
    destruct (rulesFor (normalizeKeyword (GLRule.Keyword r)) gls) as [|r0 rs];
      simpl; by rewrite lookup_insert_eq.
  - rewrite app_nil_r.
    destruct (gm !! normalizeKeyword (GLRule.Keyword r)); simpl;
      by rewrite lookup_insert_ne.
Qed.

Lemma groupRules_keys glRules k :
  k ∈ (groupRules glRules).2
  ↔ ∃ r, r ∈ glRules ∧ normalizeKeyword (GLRule.Keyword r) = k.
Proof.
  destruct (groupRules_ok glRules) as (_ & Hks & _).
  rewrite Hks, groupRules_lookup. split.
  - destruct (rulesFor k glRules) as [|r rs] eqn:Hrs; [by intros [? [= ]]|].
    intros _. exists r.
    assert (r ∈ rulesFor k glRules) as Hin by (rewrite Hrs; by left).
    apply list_elem_of_filter in Hin. tauto.
  - intros (r & Hin & Hk).
    assert (r ∈ rulesFor k glRules) as Hr by (by apply list_elem_of_filter).
    destruct (rulesFor k glRules); [by apply elem_of_nil in Hr | eauto].
Qed.

(** ** The services, one by one *)

Lemma mergeLoop_services mapOrder thByKeyword glGroupMap glKeywords i st st' :
  mergeLoop mapOrder thByKeyword glGroupMap i glKeywords st = Some st' →
  ∃ new,
    services st' = services st ++ new
    ∧ Forall2 (λ k svc, ∃ glg j,
                 glGroupMap !! k = Some glg
                 ∧ svc = groupService (mapOrder (2 * j)) (mapOrder (2 * j + 1))
                           thByKeyword glg)
        glKeywords new.
Proof.
  revert i st. induction glKeywords as [|k ks IH]; intros i st Hrun; simpl in Hrun.
  - injection Hrun as <-. exists []. by rewrite app_nil_r.
  - destruct (glGroupMap !! k) as [glg|] eqn:Hk; [|done].
    destruct (IH _ _ Hrun) as (new & Hnew & Hall).
    rewrite mergeGroup_eq in Hnew. cbv zeta in Hnew. cbn [services] in Hnew.
    eexists (_ :: new). split; [by rewrite Hnew, <- app_assoc|].
    constructor; [|done]. by exists glg, i.
Qed.

(** Every service that [combine] returns is the service of the group of
    one normalized rule keyword. *)
Lemma combine_service_inv sortSlice mapOrder now thDetectors glRules out svc :
  combine sortSlice mapOrder now thDetectors glRules = Some out →
  svc ∈ CombinedExport.Services out →
  ∃ r rs j,
    rulesFor (normalizeKeyword (CombinedSvc.Keyword svc)) glRules = r :: rs
    ∧ svc = groupService (mapOrder (2 * j)) (mapOrder (2 * j + 1))
              (indexDetectors thDetectors) (glGroup.mk (GLRule.Keyword r) (r :: rs)).
Proof.
  destruct (combine_returns sortSlice mapOrder now thDetectors glRules)
    as (st & Hrun & ->).
  intros [= <-]. cbn [CombinedExport.Services]. intros Hsvc.
  destruct (mergeLoop_services _ _ _ _ _ _ _ Hrun) as (new & Hnew & Hall).
  simpl in Hnew. rewrite Hnew in Hsvc.
  apply list_elem_of_lookup in Hsvc as [n Hn].
  destruct (Forall2_lookup_r _ _ _ _ _ Hall Hn) as (k & Hk & glg & j & Hglg & ->).
  rewrite groupRules_lookup in Hglg.
  destruct (rulesFor k glRules) as [|r rs] eqn:Hrs; [done|].
  injection Hglg as <-. exists r, rs, j.
  assert (normalizeKeyword (GLRule.Keyword r) = k) as Hr.
  { assert (r ∈ rulesFor k glRules) as Hin by (rewrite Hrs; by left).
    apply list_elem_of_filter in Hin. tauto. }
  unfold groupService at 1. cbn [CombinedSvc.Keyword glGroup.keyword].
  by rewrite Hr, Hrs.
Qed.

(** X2.  [combine] returns one service for each normalized keyword that
    occurs among the rules, and lists the services in strictly increasing
    order of normalized keyword, whatever the order of the rules. *)
Theorem combine_services_sorted
    (sortSlice : ∀ A : Type, (A → A → bool) → list A → list A)
    (mapOrder : nat → list string → list string) (now : Time)
    (thDetectors : list THDetector.t) (glRules : list GLRule.t) :
  ∃ out,
    combine sortSlice mapOrder now thDetectors glRules = Some out
    ∧ Sorted String.le (normalizeKeyword ∘ CombinedSvc.Keyword <$> CombinedExport.Services out)
    ∧ NoDup (normalizeKeyword ∘ CombinedSvc.Keyword <$> CombinedExport.Services out)
    ∧ ∀ k, k ∈ normalizeKeyword ∘ CombinedSvc.Keyword <$> CombinedExport.Services out
           ↔ ∃ r, r ∈ glRules ∧ normalizeKeyword (GLRule.Keyword r) = k.
Proof.
  destruct (combine_returns sortSlice mapOrder now thDetectors glRules)
    as (st & Hrun & ->).
  eexists. split; [done|]. cbn [CombinedExport.Services].
  destruct (groupRules_ok glRules) as (Hnd & Hks & Hnorm).
  rewrite (mergeLoop_keywords _ _ _ _ _ _ _ Hnorm Hrun). simpl.
  split; [apply sortStrings_sorted|]. split; [by rewrite sortStrings_perm|].
  intros k. by rewrite sortStrings_elem_of, groupRules_keys.
Qed.

(** X3.  A service holds the rules of its normalized keyword, all of
    them, in input order and field by field, and it is labelled with the
    keyword of the first of them as that rule spells it. *)
Theorem combine_service_rules
    (sortSlice : ∀ A : Type, (A → A → bool) → list A → list A)
    (mapOrder : nat → list string → list string) (now : Time)
    (thDetectors : list THDetector.t) (glRules : list GLRule.t) :
  ∃ out,
    combine sortSlice mapOrder now thDetectors glRules = Some out
    ∧ ∀ svc, svc ∈ CombinedExport.Services out →
        ∃ r rs,
          rulesFor (normalizeKeyword (CombinedSvc.Keyword svc)) glRules = r :: rs
          ∧ CombinedSvc.Keyword svc = GLRule.Keyword r
          ∧ CombinedSvc.Rules svc = toCombinedRule <$> r :: rs.
Proof.
  destruct (combine_returns sortSlice mapOrder now thDetectors glRules)
    as (st & Hrun & Hout).
  eexists. split; [exact Hout|]. intros svc Hsvc.
  destruct (combine_service_inv _ _ _ _ _ _ _ Hout Hsvc) as (r & rs & j & Hrs & Hsvc').
  exists r, rs. split; [done|]. rewrite Hsvc' at 1 2. done.
Qed.

(** ** Conservation of the rules *)

Lemma bind_filter_fresh {A} (f : A → string) (x : A) (l : list A) (ks : list string) :
  f x ∉ ks →
  ks ≫= (λ k, filter (λ y, f y = k) (x :: l)) = ks ≫= (λ k, filter (λ y, f y = k) l).
Proof.
  intros Hfresh. apply bind_ext_elem_of. intros k Hk.
  rewrite filter_cons_False; [done|]. intros Heq. apply Hfresh. by rewrite Heq.
Qed.

Lemma bind_filter_cons {A} (f : A → string) (x : A) (l : list A) (ks : list string) :
  NoDup ks → f x ∈ ks →
  ks ≫= (λ k, filter (λ y, f y = k) (x :: l))
  ≡ₚ x :: (ks ≫= (λ k, filter (λ y, f y = k) l)).
Proof.
  induction ks as [|k ks IH]; intros Hnd Hin; [by apply elem_of_nil in Hin|].
  apply NoDup_cons in Hnd as [Hk Hnd]. rewrite !bind_cons.
  destruct (decide (f x = k)) as [Heq|Hne].
  - rewrite filter_cons_True by done.
    rewrite bind_filter_fresh by (by rewrite Heq). done.
  - rewrite filter_cons_False by done.
    apply elem_of_cons in Hin as [Hin|Hin]; [done|].
    rewrite IH by done. symmetry. apply Permutation_middle.
Qed.

(** Cutting a list into the classes of a key, one class for each key of
    a duplicate-free list that covers the keys, loses nothing. *)
Lemma bind_filter_partition {A} (f : A → string) (l : list A) (ks : list string) :
  NoDup ks → (∀ x, x ∈ l → f x ∈ ks) →
  ks ≫= (λ k, filter (λ y, f y = k) l) ≡ₚ l.
Proof.
  intros Hnd. induction l as [|x l IH]; intros Hcover.
  - clear. induction ks as [|k ks IH]; [done|]. by rewrite bind_cons, IH.
  - rewrite bind_filter_cons; [|done|apply Hcover; by left].
    f_equiv. apply IH. intros y Hy. apply Hcover. by right.
Qed.

Lemma Forall2_bind {A B C} (R : A → B → Prop) (f : A → list C) (g : B → list C) l k :
  Forall2 R l k → (∀ x y, R x y → g y = f x) → k ≫= g = l ≫= f.
Proof.
  intros Hall Hfg. induction Hall as [|x y l k Hxy _ IH]; [done|].
  by rewrite !bind_cons, (Hfg x y), IH.
Qed.

Lemma sum_list_with_bind {A B} (g : A → list B) (l : list A) :
  sum_list_with (length ∘ g) l = length (l ≫= g).
Proof.
  induction l as [|x l IH]; [done|].
  rewrite bind_cons, length_app. simpl. by rewrite IH.
Qed.

Lemma combine_rules_perm sortSlice mapOrder now thDetectors glRules out :
  combine sortSlice mapOrder now thDetectors glRules = Some out →
  CombinedExport.Services out ≫= CombinedSvc.Rules ≡ₚ toCombinedRule <$> glRules.
Proof.
  destruct (combine_returns sortSlice mapOrder now thDetectors glRules)
    as (st & Hrun & ->).
  intros [= <-]. cbn [CombinedExport.Services].
  destruct (mergeLoop_services _ _ _ _ _ _ _ Hrun) as (new & Hnew & Hall).
  simpl in Hnew. rewrite Hnew.
  rewrite (Forall2_bind _ (λ k, toCombinedRule <$> rulesFor k glRules) _ _ _ Hall).
  - destruct (groupRules_ok glRules) as (Hnd & _ & _).
    assert (sortStrings (groupRules glRules).2 ≫= (λ k, rulesFor k glRules) ≡ₚ glRules)
      as Hpart.
    { apply bind_filter_partition; [by rewrite sortStrings_perm|].
      intros r Hr. apply sortStrings_elem_of, groupRules_keys. by exists r. }
    rewrite <- Hpart at 2. clear.
    induction (sortStrings (groupRules glRules).2) as [|k ks IH]; [done|].
    by rewrite !bind_cons, fmap_app, IH.
  - intros k svc (glg & j & Hglg & ->). unfold groupService. simpl.
    rewrite groupRules_lookup in Hglg.
    destruct (rulesFor k glRules); [done|]. by injection Hglg as <-.
Qed.

(** X4.  No rule is lost and none is repeated: the rules of the services
    are the input rules, and TotalRules is the number of input rules;
    RulesWithHosts counts the rules of the services that have hosts. *)
Theorem combine_rules_conserved
    (sortSlice : ∀ A : Type, (A → A → bool) → list A → list A)
    (mapOrder : nat → list string → list string) (now : Time)
    (thDetectors : list THDetector.t) (glRules : list GLRule.t) :
  ∃ out,
    combine sortSlice mapOrder now thDetectors glRules = Some out
    ∧ CombinedExport.Services out ≫= CombinedSvc.Rules ≡ₚ toCombinedRule <$> glRules
    ∧ CombinedStats.TotalRules (CombinedExport.Stats out) = length glRules
    ∧ CombinedStats.RulesWithHosts (CombinedExport.Stats out)
      = length (filter hasHosts (CombinedExport.Services out) ≫= CombinedSvc.Rules)
    ∧ CombinedStats.RulesWithHosts (CombinedExport.Stats out)
      ≤ CombinedStats.TotalRules (CombinedExport.Stats out).
Proof.
  destruct (combine_returns sortSlice mapOrder now thDetectors glRules)
    as (st & Hrun & Hout).
  pose proof (combine_rules_perm _ _ _ _ _ _ Hout) as Hperm.
  eexists. split; [exact Hout|]. split; [exact Hperm|].
  cbn [CombinedExport.Services CombinedExport.Stats] in *.
  clear Hout. apply mergeLoop_stats in Hrun. rewrite Hrun. simpl.
  rewrite !sum_list_with_bind. split; [|split; [done|]].
  - by rewrite Hperm, length_fmap.
  - rewrite <- !sum_list_with_bind. generalize (services st). clear.
    intros l. induction l as [|svc l IH]; [done|].
    rewrite filter_cons. case_decide; simpl; lia.
Qed.

(** ** The hosts and the matched names of a service *)

Lemma addKeys_lookup_is_Some m ks k :
  is_Some (addKeys m ks !! k) ↔ k ∈ ks ∨ is_Some (m !! k).
Proof.
  revert m. induction ks as [|k' ks IH]; intros m; simpl.
  - split; [tauto|]. intros [H|H]; [by apply elem_of_nil in H | done].
  - change (foldl _ (<[k' := true]> m) ks) with (addKeys (<[k' := true]> m) ks).
    rewrite IH, elem_of_cons. destruct (decide (k = k')) as [->|Hne].
    + rewrite lookup_insert_eq. split; [|by eauto]. intros _. left. by left.
    + rewrite lookup_insert_ne by done. tauto.
Qed.

Lemma sortedKeys_facts (order : list string → list string) (m : gmap string bool) :
  (∀ l, order l ≡ₚ l) →
  Sorted String.le (sortedKeys order m)
  ∧ NoDup (sortedKeys order m)
  ∧ (∀ k, k ∈ sortedKeys order m ↔ is_Some (m !! k))
  ∧ length (sortedKeys order m) = size m.
Proof.
  intros Hperm. unfold sortedKeys. split; [apply sortStrings_sorted|].
  rewrite sortStrings_perm. split; [by apply rangeKeys_NoDup|].
  split; [intros k; rewrite ?sortStrings_elem_of; apply (rangeKeys_elem_of order Hperm)|].
  unfold rangeKeys. by rewrite Hperm, length_fmap, length_map_to_list.
Qed.

(** X5.  [sortedKeys] returns the keys of the map, each once, in
    increasing order, in whatever order the map is walked. *)
Theorem sortedKeys_spec (order : list string → list string) (m : gmap string bool) :
  (∀ l, order l ≡ₚ l) →
  Sorted String.le (sortedKeys order m)
  ∧ NoDup (sortedKeys order m)
  ∧ (∀ k, k ∈ sortedKeys order m ↔ is_Some (m !! k))
  ∧ length (sortedKeys order m) = size m.
Proof. apply sortedKeys_facts. Qed.

Lemma sortedKeys_spec_witness :
  Sorted String.le (sortedKeys reverse (addKeys ∅ ["b.example"; "a.example"; "b.example"]))
  ∧ NoDup (sortedKeys reverse (addKeys ∅ ["b.example"; "a.example"; "b.example"]))
  ∧ (∀ k, k ∈ sortedKeys reverse (addKeys ∅ ["b.example"; "a.example"; "b.example"])
          ↔ is_Some (addKeys ∅ ["b.example"; "a.example"; "b.example"] !! k))
  ∧ length (sortedKeys reverse (addKeys ∅ ["b.example"; "a.example"; "b.example"]))
    = size (addKeys ∅ ["b.example"; "a.example"; "b.example"]).
Proof.
  apply (sortedKeys_spec reverse (addKeys ∅ ["b.example"; "a.example"; "b.example"])).
  intros l. apply reverse_Permutation.
Defined.

Lemma findTHMatch_keys order glKeyword thByKeyword m :
  (∀ l, order l ≡ₚ l) →
  m ∈ (findTHMatch order glKeyword thByKeyword).1 → is_Some (thByKeyword !! m).
Proof.
  intros Hperm. unfold findTHMatch.
  destruct (thByKeyword !! normalizeKeyword glKeyword) as [es|] eqn:Hex.
  { simpl. intros ->%list_elem_of_singleton. by rewrite Hex. }
  destruct (serviceAliases !! glKeyword) as [alias|].
  - destruct (thByKeyword !! normalizeKeyword alias) as [es|] eqn:Hal.
    { simpl. intros ->%list_elem_of_singleton. by rewrite Hal. }
    cbv zeta. destruct (4 <=? _); [|by intros ?%elem_of_nil].
    destruct (filter _ _) as [|m0 ms] eqn:Hf; [by intros ?%elem_of_nil|].
    simpl. rewrite sortStrings_elem_of, <- Hf, list_elem_of_filter.
    intros [_ Hin]. by apply (rangeKeys_elem_of order Hperm) in Hin.
  - cbv zeta. destruct (4 <=? _); [|by intros ?%elem_of_nil].
    destruct (filter _ _) as [|m0 ms] eqn:Hf; [by intros ?%elem_of_nil|].
    simpl. rewrite sortStrings_elem_of, <- Hf, list_elem_of_filter.
    intros [_ Hin]. by apply (rangeKeys_elem_of order Hperm) in Hin.
Qed.

Lemma findTHMatch_NoDup order glKeyword thByKeyword :
  (∀ l, order l ≡ₚ l) → NoDup (findTHMatch order glKeyword thByKeyword).1.
Proof.
  intros Hperm. unfold findTHMatch.
  destruct (thByKeyword !! normalizeKeyword glKeyword); [apply NoDup_singleton|].
  destruct (match serviceAliases !! glKeyword with Some _ => _ | None => _ end);
    [apply NoDup_singleton|].
  cbv zeta. destruct (4 <=? _); [|apply NoDup_nil_2].
  destruct (filter _ _) as [|m0 ms] eqn:Hf; [apply NoDup_nil_2|].
  simpl. rewrite sortStrings_perm, <- Hf. apply NoDup_filter.
  by apply rangeKeys_NoDup.
Qed.

(** The entries that a list of keys of the index selects. *)
Lemma matchedEntries_index thDetectors ms :
  (∀ m, m ∈ ms → is_Some (indexDetectors thDetectors !! m)) →
  matchedEntries (indexDetectors thDetectors) ms
  = toEntry <$> (ms ≫= (λ m, detectorsFor m thDetectors)).
Proof.
  intros Hkeys. unfold matchedEntries.
  induction ms as [|m ms IH]; [done|].
  rewrite !bind_cons, fmap_app, IH by (intros m' Hm'; apply Hkeys; by right).
  f_equal. rewrite indexDetectors_default.
  by rewrite (indexDetectors_key_normal thDetectors m) by (apply Hkeys; by left).
Qed.

Lemma detectors_matching thDetectors ms :
  NoDup ms →
  ms ≫= (λ m, detectorsFor m thDetectors)
  ≡ₚ filter (λ d, normalizeKeyword (THDetector.Keyword d) ∈ ms) thDetectors.
Proof.
  intros Hnd.
  etrans; [|apply (bind_filter_partition (normalizeKeyword ∘ THDetector.Keyword)
                     (filter (λ d, normalizeKeyword (THDetector.Keyword d) ∈ ms)
                        thDetectors) ms Hnd)].
  - rewrite (bind_ext_elem_of (λ m, detectorsFor m thDetectors)
               (λ k, filter (λ d, (normalizeKeyword ∘ THDetector.Keyword) d = k)
                       (filter (λ d, normalizeKeyword (THDetector.Keyword d) ∈ ms)
                          thDetectors))); [done|].
    intros m Hm. unfold detectorsFor. rewrite list_filter_filter.
    apply list_filter_iff. intros d. simpl. split; [intros <-; by split | tauto].
  - intros d Hd. apply list_elem_of_filter in Hd. simpl. tauto.
Qed.

Lemma groupService_index o1 o2 thDetectors glg :
  (∀ l, o1 l ≡ₚ l) → (∀ l, o2 l ≡ₚ l) →
  let found := findTHMatch (λ l, l) (glGroup.keyword glg) (indexDetectors thDetectors) in
  let svc := groupService o1 o2 (indexDetectors thDetectors) glg in
  let matched :=
    filter (λ d, normalizeKeyword (THDetector.Keyword d) ∈ found.1) thDetectors in
  CombinedSvc.MatchType svc = found.2
  ∧ Sorted String.le (CombinedSvc.Hosts svc)
  ∧ NoDup (CombinedSvc.Hosts svc)
  ∧ (∀ h, h ∈ CombinedSvc.Hosts svc ↔ ∃ d, d ∈ matched ∧ h ∈ THDetector.Hosts d)
  ∧ Sorted String.le (CombinedSvc.MatchedTH svc)
  ∧ CombinedSvc.MatchedTH svc ≡ₚ THDetector.DirName <$> matched.
Proof.
  intros H1 H2 found svc matched. subst svc.
  rewrite groupService_order_irrel by done. unfold groupService. fold found.
  cbn [CombinedSvc.MatchType CombinedSvc.Hosts CombinedSvc.MatchedTH].
  assert (∀ l : list string, (λ l, l) l ≡ₚ l) as Hid by done.
  rewrite matchedEntries_index
    by (intros m Hm;
        exact (findTHMatch_keys (λ l, l) (glGroup.keyword glg)
                 (indexDetectors thDetectors) m Hid Hm)).
  pose proof (detectors_matching thDetectors found.1
                (findTHMatch_NoDup (λ l, l) _ _ Hid)) as Hmatched.
  fold matched in Hmatched.
  destruct (sortedKeys_facts (λ l, l)
              (addKeys ∅ ((toEntry <$> found.1 ≫= (λ m, detectorsFor m thDetectors))
                            ≫= thEntry.hosts)) Hid)
    as (Hsorted & Hnd & Hin & _).
  split; [done|]. split; [done|]. split; [done|]. split; [|split].
  - intros h. rewrite Hin, addKeys_lookup_is_Some, lookup_empty, list_elem_of_bind.
    split.
    + intros [(e & Hh & He)|[? [= ]]].
      apply list_elem_of_fmap in He as (d & -> & Hd).
      exists d. split; [by rewrite <- Hmatched | done].
    + intros (d & Hd & Hh). left. exists (toEntry d). split; [done|].
      apply list_elem_of_fmap. exists d. split; [done|]. by rewrite Hmatched.
  - apply sortStrings_sorted.
  - rewrite sortStrings_perm, <- list_fmap_compose, <- Hmatched. done.
Qed.

(** X6.  The match type of a service is the one [findTHMatch] gives for
    the keyword of the service, and with [ms] the normalized keywords it
    returns: the hosts of the service are the hosts of the detectors whose
    normalized keyword is in [ms], each once and in increasing order, and
    its matched names are the source names of those detectors, in
    increasing order. *)
Theorem combine_service_hosts
    (sortSlice : ∀ A : Type, (A → A → bool) → list A → list A)
    (mapOrder : nat → list string → list string) (now : Time)
    (thDetectors : list THDetector.t) (glRules : list GLRule.t) :
  (∀ n l, mapOrder n l ≡ₚ l) →
  ∃ out,
    combine sortSlice mapOrder now thDetectors glRules = Some out
    ∧ ∀ svc, svc ∈ CombinedExport.Services out →
        let found :=
          findTHMatch (λ l, l) (CombinedSvc.Keyword svc) (indexDetectors thDetectors) in
        let matched :=
          filter (λ d, normalizeKeyword (THDetector.Keyword d) ∈ found.1) thDetectors in
        CombinedSvc.MatchType svc = found.2
        ∧ Sorted String.le (CombinedSvc.Hosts svc)
        ∧ NoDup (CombinedSvc.Hosts svc)
        ∧ (∀ h, h ∈ CombinedSvc.Hosts svc ↔ ∃ d, d ∈ matched ∧ h ∈ THDetector.Hosts d)
        ∧ Sorted String.le (CombinedSvc.MatchedTH svc)
        ∧ CombinedSvc.MatchedTH svc ≡ₚ THDetector.DirName <$> matched.
Proof.
  intros Hperm.
  destruct (combine_returns sortSlice mapOrder now thDetectors glRules)
    as (st & Hrun & Hout).
  eexists. split; [exact Hout|]. intros svc Hsvc.
  destruct (combine_service_inv _ _ _ _ _ _ _ Hout Hsvc) as (r & rs & j & Hrs & Hsvc').
  assert (CombinedSvc.Keyword svc = GLRule.Keyword r) as -> by (by rewrite Hsvc').
  rewrite Hsvc'.
  apply (groupService_index _ _ thDetectors (glGroup.mk (GLRule.Keyword r) (r :: rs)));
    apply Hperm.
Qed.

Lemma combine_service_hosts_witness :
  ∃ out,
    combine insertionSort (λ _, reverse) 0%Z sampleDetectors sampleRules = Some out
    ∧ ∀ svc, svc ∈ CombinedExport.Services out →
        let found :=
          findTHMatch (λ l, l) (CombinedSvc.Keyword svc) (indexDetectors sampleDetectors) in
        let matched :=
          filter (λ d, normalizeKeyword (THDetector.Keyword d) ∈ found.1)
            sampleDetectors in
        CombinedSvc.MatchType svc = found.2
        ∧ Sorted String.le (CombinedSvc.Hosts svc)
        ∧ NoDup (CombinedSvc.Hosts svc)
        ∧ (∀ h, h ∈ CombinedSvc.Hosts svc ↔ ∃ d, d ∈ matched ∧ h ∈ THDetector.Hosts d)
        ∧ Sorted String.le (CombinedSvc.MatchedTH svc)
        ∧ CombinedSvc.MatchedTH svc ≡ₚ THDetector.DirName <$> matched.
Proof.
  apply (combine_service_hosts insertionSort (λ _, reverse) 0%Z
           sampleDetectors sampleRules).
  intros n l. apply reverse_Permutation.
Defined.

Lemma indexDetectors_key_detector thDetectors m :
  is_Some (indexDetectors thDetectors !! m) →
  ∃ d, d ∈ thDetectors ∧ normalizeKeyword (THDetector.Keyword d) = m.
Proof.
  rewrite indexDetectors_lookup_aux. intros Hsome.
  destruct (detectorsFor m thDetectors) as [|d ds] eqn:Hds; [by destruct Hsome|].
  assert (d ∈ detectorsFor m thDetectors) as Hin by (rewrite Hds; by left).
  apply list_elem_of_filter in Hin. exists d. tauto.
Qed.

Lemma groupService_matched o1 o2 thDetectors glg :
  (∀ l, o1 l ≡ₚ l) → (∀ l, o2 l ≡ₚ l) →
  let svc := groupService o1 o2 (indexDetectors thDetectors) glg in
  (CombinedSvc.MatchType svc = "" ↔ CombinedSvc.MatchedTH svc = [])
  ∧ CombinedSvc.MatchType svc ∈ [""; "exact"; "prefix"; "alias"]
  ∧ (CombinedSvc.Hosts svc ≠ [] → CombinedSvc.MatchedTH svc ≠ [])
  ∧ ((∀ d, d ∈ thDetectors → THDetector.Hosts d ≠ []) →
     (CombinedSvc.Hosts svc = [] ↔ CombinedSvc.MatchType svc = "")).
Proof.
  intros H1 H2 svc.
  destruct (groupService_index o1 o2 thDetectors glg H1 H2)
    as (Hty & _ & _ & Hhosts & _ & Hnames).
  fold svc in Hty, Hhosts, Hnames. cbv zeta in Hhosts, Hnames.
  set (found := findTHMatch (λ l, l) (glGroup.keyword glg) (indexDetectors thDetectors))
    in *.
  set (matched := filter (λ d, normalizeKeyword (THDetector.Keyword d) ∈ found.1)
                    thDetectors) in *.
  assert (∀ l : list string, (λ l, l) l ≡ₚ l) as Hid by done.
  assert (CombinedSvc.MatchedTH svc = [] ↔ matched = []) as HnamesNil.
  { split; intros Hnil.
    - rewrite Hnil in Hnames. symmetry in Hnames.
      apply Permutation_nil_r in Hnames. by apply fmap_nil_inv in Hnames.
    - rewrite Hnil in Hnames. by apply Permutation_nil_r. }
  assert (matched = [] ↔ found.1 = []) as HmatchedNil.
  { split; intros Hnil.
    - destruct found.1 as [|m ms] eqn:Hms; [done|]. exfalso.
      destruct (indexDetectors_key_detector thDetectors m) as (d & Hd & Hk).
      { apply (findTHMatch_keys (λ l, l) (glGroup.keyword glg) _ m Hid).
        fold found. rewrite Hms. by left. }
      apply (elem_of_nil d). rewrite <- Hnil. apply list_elem_of_filter.
      split; [|done]. rewrite Hk. by left.
    - subst matched. rewrite Hnil. clear.
      induction thDetectors as [|d ds IH]; [done|].
      rewrite filter_cons_False; [done|]. by intros ?%elem_of_nil. }
  pose proof (findTHMatch_type (λ l, l) (glGroup.keyword glg)
                (indexDetectors thDetectors)) as Htype.
  fold found in Htype. cbv zeta in Htype. rewrite Hty.
  split; [|split; [|split]].
  - rewrite HnamesNil, HmatchedNil.
    destruct Htype as [[-> ->]|[Hne Hin]]; [done|].
    split; [|done]. intros Heq. rewrite Heq in Hin. set_solver.
  - destruct Htype as [[_ ->]|[_ Hin]]; set_solver.
  - intros Hh Hnil. apply HnamesNil in Hnil.
    destruct (CombinedSvc.Hosts svc) as [|h hs] eqn:Hsvc; [done|].
    destruct (proj1 (Hhosts h)) as (d & Hd & _); [by left|].
    rewrite Hnil in Hd. by apply elem_of_nil in Hd.
  - intros Hall. split.
    + intros Hnil.
      destruct Htype as [[_ ->]|[Hne _]]; [done|]. exfalso.
      apply Hne, HmatchedNil.
      destruct matched as [|d ds] eqn:Hm; [done|]. exfalso.
      assert (d ∈ thDetectors) as Hd.
      { assert (d ∈ matched) as Hin by (rewrite Hm; by left).
        subst matched. apply list_elem_of_filter in Hin. tauto. }
      destruct (THDetector.Hosts d) as [|h hs] eqn:Hhd; [by apply (Hall d)|].
      apply (elem_of_nil h). rewrite <- Hnil. apply Hhosts.
      exists d. split; [by left|]. rewrite Hhd. by left.
    + intros Hempty.
      destruct Htype as [[Hnil _]|[_ Hin]]; [|rewrite Hempty in Hin; set_solver].
      apply HmatchedNil in Hnil.
      destruct (CombinedSvc.Hosts svc) as [|h hs] eqn:Hsvc; [done|].
      destruct (proj1 (Hhosts h)) as (d & Hd & _); [by left|].
      rewrite Hnil in Hd. by apply elem_of_nil in Hd.
Qed.

(** X7.  A service has a match type exactly when it lists matched names,
    the match type is one of the three tiers or empty, and a service with
    hosts lists matched names.  When every detector has at least one host,
    a service is without hosts exactly when no tier matched. *)
Theorem combine_matched_iff_typed
    (sortSlice : ∀ A : Type, (A → A → bool) → list A → list A)
    (mapOrder : nat → list string → list string) (now : Time)
    (thDetectors : list THDetector.t) (glRules : list GLRule.t) :
  (∀ n l, mapOrder n l ≡ₚ l) →
  ∃ out,
    combine sortSlice mapOrder now thDetectors glRules = Some out
    ∧ ∀ svc, svc ∈ CombinedExport.Services out →
        (CombinedSvc.MatchType svc = "" ↔ CombinedSvc.MatchedTH svc = [])
        ∧ CombinedSvc.MatchType svc ∈ [""; "exact"; "prefix"; "alias"]
        ∧ (CombinedSvc.Hosts svc ≠ [] → CombinedSvc.MatchedTH svc ≠ [])
        ∧ ((∀ d, d ∈ thDetectors → THDetector.Hosts d ≠ []) →
           (CombinedSvc.Hosts svc = [] ↔ CombinedSvc.MatchType svc = "")).
Proof.
  intros Hperm.
  destruct (combine_returns sortSlice mapOrder now thDetectors glRules)
    as (st & Hrun & Hout).
  eexists. split; [exact Hout|]. intros svc Hsvc.
  destruct (combine_service_inv _ _ _ _ _ _ _ Hout Hsvc) as (r & rs & j & Hrs & ->).
  apply groupService_matched; apply Hperm.
Qed.

Lemma combine_matched_iff_typed_witness :
  ∃ out,
    combine insertionSort keepOrder 0%Z sampleDetectors sampleRules = Some out
    ∧ ∀ svc, svc ∈ CombinedExport.Services out →
        (CombinedSvc.MatchType svc = "" ↔ CombinedSvc.MatchedTH svc = [])
        ∧ CombinedSvc.MatchType svc ∈ [""; "exact"; "prefix"; "alias"]
        ∧ (CombinedSvc.Hosts svc ≠ [] → CombinedSvc.MatchedTH svc ≠ [])
        ∧ ((∀ d, d ∈ sampleDetectors → THDetector.Hosts d ≠ []) →
           (CombinedSvc.Hosts svc = [] ↔ CombinedSvc.MatchType svc = "")).
Proof.
  apply (combine_matched_iff_typed insertionSort keepOrder 0%Z
           sampleDetectors sampleRules).
  intros n l. reflexivity.
Defined.

(** ** The keywords without hosts *)

Lemma mergeLoop_glNoHosts mapOrder thByKeyword glGroupMap glKeywords st :
  mergeLoop mapOrder thByKeyword glGroupMap 0 glKeywords initialState = Some st →
  glNoHosts st = CombinedSvc.Keyword <$> filter (λ svc, ¬ hasHosts svc) (services st).
Proof.
  intros Hrun.
  apply (mergeLoop_invariant mapOrder thByKeyword glGroupMap
           (λ st, glNoHosts st
                  = CombinedSvc.Keyword <$> filter (λ svc, ¬ hasHosts svc) (services st))
           glKeywords 0 initialState st); [|done|done].
  intros i glg st0 Hst0. rewrite mergeGroup_eq. cbv zeta. cbn [glNoHosts services].
  rewrite filter_app, fmap_app, <- Hst0.
  destruct (0 <? length _) eqn:Hh.
  - apply hasHosts_ltb in Hh.
    rewrite filter_one_False by tauto. by rewrite app_nil_r.
  - rewrite filter_one_True; [done|]. intros Hyes%hasHosts_ltb. congruence.
Qed.

(** X8.  GLNoHosts lists the keywords of the services without hosts, one
    entry for each such service, in increasing order; there are
    ServicesNoHosts of them. *)
Theorem combine_GLNoHosts
    (sortSlice : ∀ A : Type, (A → A → bool) → list A → list A)
    (mapOrder : nat → list string → list string) (now : Time)
    (thDetectors : list THDetector.t) (glRules : list GLRule.t) :
  ∃ out,
    combine sortSlice mapOrder now thDetectors glRules = Some out
    ∧ Sorted String.le (CombinedExport.GLNoHosts out)
    ∧ CombinedExport.GLNoHosts out
      ≡ₚ CombinedSvc.Keyword <$>
           filter (λ svc, ¬ hasHosts svc) (CombinedExport.Services out)
    ∧ length (CombinedExport.GLNoHosts out)
      = CombinedStats.ServicesNoHosts (CombinedExport.Stats out).
Proof.
  destruct (combine_returns sortSlice mapOrder now thDetectors glRules)
    as (st & Hrun & ->).
  eexists. split; [done|]. cbn [CombinedExport.GLNoHosts CombinedExport.Services].
  rewrite (mergeLoop_glNoHosts _ _ _ _ _ Hrun).
  split; [apply sortStrings_sorted|]. split; [apply sortStrings_perm|].
  etrans; [apply Permutation_length, sortStrings_perm|]. rewrite length_fmap.
  apply mergeLoop_stats in Hrun. cbn [CombinedExport.Stats]. by rewrite Hrun.
Qed.

(** ** Empty catalogs *)

(** X9.  Without rules [combine] returns no service: every detector is a
    host-only entry, unmodified, and the statistics count them. *)
Theorem combine_no_rules
    (sortSlice : ∀ A : Type, (A → A → bool) → list A → list A)
    (mapOrder : nat → list string → list string) (now : Time)
    (thDetectors : list THDetector.t) :
  (∀ A less l, sortSlice A less l ≡ₚ l) →
  ∃ out,
    combine sortSlice mapOrder now thDetectors [] = Some out
    ∧ CombinedExport.Services out = []
    ∧ CombinedExport.GLNoHosts out = []
    ∧ CombinedExport.THOnlyHosts out ≡ₚ toTHOnlyEntry <$> thDetectors
    ∧ CombinedExport.Stats out
      = CombinedStats.mk (length thDetectors) 0 0 (length thDetectors) 0 0 0 0 0.
Proof.
  intros Hsort. eexists. split; [reflexivity|].
  cbn [CombinedExport.Services CombinedExport.GLNoHosts CombinedExport.THOnlyHosts
       CombinedExport.Stats services glNoHosts thUsed stats].
  assert (thOnlyEntries ∅ thDetectors = toTHOnlyEntry <$> thDetectors) as ->.
  { unfold thOnlyEntries. f_equal. induction thDetectors as [|d ds IH]; [done|].
    rewrite filter_cons_True by apply lookupBool_empty. by rewrite IH. }
  split; [done|]. split; [done|]. split; [apply Hsort|].
  unfold setTotals, CombinedStats.zero. simpl.
  by rewrite (Permutation_length (Hsort _ _ _)), length_fmap.
Qed.

Lemma combine_no_rules_witness :
  ∃ out,
    combine insertionSort keepOrder 0%Z sampleDetectors [] = Some out
    ∧ CombinedExport.Services out = []
    ∧ CombinedExport.GLNoHosts out = []
    ∧ CombinedExport.THOnlyHosts out ≡ₚ toTHOnlyEntry <$> sampleDetectors
    ∧ CombinedExport.Stats out
      = CombinedStats.mk (length sampleDetectors) 0 0 (length sampleDetectors) 0 0 0 0 0.
Proof.
  apply (combine_no_rules insertionSort keepOrder 0%Z sampleDetectors).
  exact insertionSort_perm.
Defined.

(** X10.  Without detectors no service has hosts or a match: every
    service has an empty host list, an empty match type and no matched
    name, every keyword is listed in GLNoHosts, and there is no host-only
    entry. *)
Theorem combine_no_detectors
    (sortSlice : ∀ A : Type, (A → A → bool) → list A → list A)
    (mapOrder : nat → list string → list string) (now : Time)
    (glRules : list GLRule.t) :
  (∀ A less l, sortSlice A less l ≡ₚ l) →
  (∀ n l, mapOrder n l ≡ₚ l) →
  ∃ out,
    combine sortSlice mapOrder now [] glRules = Some out
    ∧ CombinedExport.THOnlyHosts out = []
    ∧ (∀ svc, svc ∈ CombinedExport.Services out →
         CombinedSvc.Hosts svc = [] ∧ CombinedSvc.MatchType svc = ""
         ∧ CombinedSvc.MatchedTH svc = [])
    ∧ CombinedExport.GLNoHosts out ≡ₚ CombinedSvc.Keyword <$> CombinedExport.Services out
    ∧ CombinedStats.ServicesWithHosts (CombinedExport.Stats out) = 0
    ∧ CombinedStats.ServicesNoHosts (CombinedExport.Stats out)
      = length (CombinedExport.Services out).
Proof.
  intros Hsort Hperm.
  destruct (combine_returns sortSlice mapOrder now [] glRules) as (st & Hrun & Hout).
  eexists. split; [exact Hout|].
  assert (∀ svc, svc ∈ services st →
            CombinedSvc.Hosts svc = [] ∧ CombinedSvc.MatchType svc = ""
            ∧ CombinedSvc.MatchedTH svc = []) as Hsvcs.
  { intros svc Hsvc.
    destruct (combine_service_inv _ _ _ _ _ _ svc Hout Hsvc)
      as (r & rs & j & Hrs & ->).
    destruct (groupService_matched (mapOrder (2 * j)) (mapOrder (2 * j + 1)) []
                (glGroup.mk (GLRule.Keyword r) (r :: rs)) (Hperm _) (Hperm _))
      as (Hnames & _ & _ & Hhosts).
    destruct (groupService_index (mapOrder (2 * j)) (mapOrder (2 * j + 1)) []
                (glGroup.mk (GLRule.Keyword r) (r :: rs)) (Hperm _) (Hperm _))
      as (_ & _ & _ & _ & _ & Hnil).
    rewrite filter_nil, fmap_nil in Hnil. apply Permutation_nil_r in Hnil.
    split; [|split; [|done]].
    - apply Hhosts; [by intros d ?%elem_of_nil|]. by apply Hnames.
    - by apply Hnames. }
  assert (filter hasHosts (services st) = []) as Hnone.
  { clear -Hsvcs. induction (services st) as [|svc l IH]; [done|].
    rewrite filter_cons_False.
    - apply IH. intros svc' Hin. apply Hsvcs. by right.
    - unfold hasHosts. destruct (Hsvcs svc) as [-> _]; [by left | tauto]. }
  cbn [CombinedExport.THOnlyHosts CombinedExport.Services CombinedExport.GLNoHosts
       CombinedExport.Stats].
  split; [apply Permutation_nil_r; by rewrite Hsort|]. split; [done|].
  pose proof (filter_complement_length hasHosts (services st)) as Hlen.
  rewrite Hnone in Hlen. simpl in Hlen.
  split; [|split].
  - rewrite sortStrings_perm, (mergeLoop_glNoHosts _ _ _ _ _ Hrun).
    assert (filter (λ svc, ¬ hasHosts svc) (services st) = services st) as ->; [|done].
    clear -Hsvcs. induction (services st) as [|svc l IH]; [done|].
    rewrite filter_cons_True.
    + f_equal. apply IH. intros svc' Hin. apply Hsvcs. by right.
    + unfold hasHosts. destruct (Hsvcs svc) as [-> _]; [by left | tauto].
  - apply mergeLoop_stats in Hrun. rewrite Hrun. simpl. by rewrite Hnone.
  - apply mergeLoop_stats in Hrun. rewrite Hrun. simpl. exact Hlen.
Qed.

Lemma combine_no_detectors_witness :
  ∃ out,
    combine insertionSort keepOrder 0%Z [] sampleRules = Some out
    ∧ CombinedExport.THOnlyHosts out = []
    ∧ (∀ svc, svc ∈ CombinedExport.Services out →
         CombinedSvc.Hosts svc = [] ∧ CombinedSvc.MatchType svc = ""
         ∧ CombinedSvc.MatchedTH svc = [])
    ∧ CombinedExport.GLNoHosts out ≡ₚ CombinedSvc.Keyword <$> CombinedExport.Services out
    ∧ CombinedStats.ServicesWithHosts (CombinedExport.Stats out) = 0
    ∧ CombinedStats.ServicesNoHosts (CombinedExport.Stats out)
      = length (CombinedExport.Services out).
Proof.
  apply (combine_no_detectors insertionSort keepOrder 0%Z sampleRules).
  - exact insertionSort_perm.
  - intros n l. reflexivity.
Defined.

(** ** The projection: the copied table and the patterns *)

Lemma copyEntry_fold_lookup (table m : gmap string (list string)) ks k :
  foldl (copyEntry table) m ks !! k
  = match (if decide (k ∈ ks) then table !! k else None) with
    | Some v => Some v
    | None => m !! k
    end.
Proof.
  revert m. induction ks as [|k' ks IH]; intros m.
  - cbn [foldl]. destruct (decide (k ∈ [])) as [Hin|_]; [|done].
    by apply elem_of_nil in Hin.
  - cbn [foldl]. rewrite IH. unfold copyEntry.
    destruct (decide (k ∈ ks)) as [Hin|Hnotin];
      destruct (decide (k ∈ k' :: ks)) as [Hin'|Hnotin'].
    + destruct (table !! k) as [v|] eqn:Hk; [done|].
      destruct (table !! k') as [v'|] eqn:Hk'; [|done].
      rewrite lookup_insert_ne; [done|]. intros ->. congruence.
    + exfalso. apply Hnotin'. by right.
    + apply elem_of_cons in Hin' as [->|Hin']; [|done].
      destruct (table !! k') as [v'|]; [by rewrite lookup_insert_eq | done].
    + assert (k' ≠ k) as Hne by (intros ->; apply Hnotin'; by left).
      destruct (table !! k'); [by rewrite lookup_insert_ne | done].
Qed.

(** X11.  The exact-name table of the projection is the static table,
    entry for entry, in whatever order the runtime walks the table while
    copying it; the time stamp of the dataset is kept and the schema
    version is 1. *)
Theorem toGondolinExport_exact_table
    (sortSlice : ∀ A : Type, (A → A → bool) → list A → list A)
    (tableOrder : list string → list string) (full : CombinedExport.t) :
  (∀ l, tableOrder l ≡ₚ l) →
  GondolinExport.ExactNameHostMap (toGondolinExport sortSlice tableOrder full)
  = exactNameHostMap
  ∧ GondolinExport.GeneratedAt (toGondolinExport sortSlice tableOrder full)
    = CombinedExport.GeneratedAt full
  ∧ GondolinExport.SchemaVersion (toGondolinExport sortSlice tableOrder full) = 1%Z.
Proof.
  intros Hperm. unfold toGondolinExport.
  destruct (foldl indexHosts (∅, ∅) (CombinedExport.Services full)) as [kh hh].
  cbn [GondolinExport.ExactNameHostMap GondolinExport.GeneratedAt
       GondolinExport.SchemaVersion].
  split; [|done]. apply map_eq. intros k.
  rewrite copyEntry_fold_lookup, lookup_empty.
  destruct (decide (k ∈ rangeKeys tableOrder exactNameHostMap)) as [Hin|Hnotin].
  - by destruct (exactNameHostMap !! k).
  - destruct (exactNameHostMap !! k) as [v|] eqn:Hk; [|done].
    exfalso. apply Hnotin. apply (rangeKeys_elem_of tableOrder Hperm). by rewrite Hk.
Qed.

Lemma toGondolinExport_exact_table_witness :
  GondolinExport.ExactNameHostMap (toGondolinExport insertionSort reverse stripeAndAge)
  = exactNameHostMap
  ∧ GondolinExport.GeneratedAt (toGondolinExport insertionSort reverse stripeAndAge)
    = CombinedExport.GeneratedAt stripeAndAge
  ∧ GondolinExport.SchemaVersion (toGondolinExport insertionSort reverse stripeAndAge)
    = 1%Z.
Proof.
  apply (toGondolinExport_exact_table insertionSort reverse stripeAndAge).
  intros l. apply reverse_Permutation.
Defined.

(** What a pattern takes over from its rule. *)
Lemma toValuePattern_core hh svc r :
  (ValuePattern.ID (toValuePattern hh svc r), ValuePattern.Regex (toValuePattern hh svc r),
   ValuePattern.Keywords (toValuePattern hh svc r),
   ValuePattern.SecretGroup (toValuePattern hh svc r))
  = (CombinedRule.ID r, CombinedRule.Regex r, CombinedRule.Keywords r,
     CombinedRule.SecretGroup r).
Proof. reflexivity. Qed.

Lemma fmap_bind_fmap {A B C D} (f : C → D) (g : A → B → C) (h : B → D)
    (rules : A → list B) (l : list A) :
  (∀ x r, f (g x r) = h r) →
  f <$> (l ≫= (λ x, g x <$> rules x)) = h <$> (l ≫= rules).
Proof.
  intros Hfg. induction l as [|x l IH]; [done|].
  rewrite !bind_cons, !fmap_app, IH. f_equal.
  rewrite <- list_fmap_compose. apply list_fmap_ext. intros _ r _. apply Hfg.
Qed.

(** X12.  From the rules to the value patterns nothing is lost and
    nothing is added: the patterns of the projection of what [combine]
    returns carry the ids, regular expressions, hint words and secret
    groups of the input rules, one pattern for each rule. *)
Theorem toGondolinExport_patterns_conserved
    (sortSlice : ∀ A : Type, (A → A → bool) → list A → list A)
    (mapOrder : nat → list string → list string)
    (tableOrder : list string → list string) (now : Time)
    (thDetectors : list THDetector.t) (glRules : list GLRule.t) :
  (∀ A less l, sortSlice A less l ≡ₚ l) →
  ∃ full,
    combine sortSlice mapOrder now thDetectors glRules = Some full
    ∧ (λ p, (ValuePattern.ID p, ValuePattern.Regex p, ValuePattern.Keywords p,
             ValuePattern.SecretGroup p))
        <$> GondolinExport.ValuePatterns (toGondolinExport sortSlice tableOrder full)
      ≡ₚ (λ r, (GLRule.ID r, GLRule.Regex r, GLRule.Keywords r, GLRule.SecretGroup r))
           <$> glRules
    ∧ length (GondolinExport.ValuePatterns (toGondolinExport sortSlice tableOrder full))
      = length glRules.
Proof.
  intros Hsort.
  destruct (combine_returns sortSlice mapOrder now thDetectors glRules)
    as (st & Hrun & Hout).
  eexists. split; [exact Hout|].
  pose proof (combine_rules_perm _ _ _ _ _ _ Hout) as Hrules.
  match goal with |- context [toGondolinExport _ _ ?full] => set (out := full) in * end.
  destruct (toGondolinExport_fields sortSlice tableOrder out) as [_ ->].
  assert ((λ p, (ValuePattern.ID p, ValuePattern.Regex p, ValuePattern.Keywords p,
                 ValuePattern.SecretGroup p))
            <$> sortSlice _ lessPattern
                  (CombinedExport.Services out
                     ≫= servicePatterns
                          (foldl indexHosts (∅, ∅) (CombinedExport.Services out)).2)
          ≡ₚ (λ r, (GLRule.ID r, GLRule.Regex r, GLRule.Keywords r, GLRule.SecretGroup r))
               <$> glRules) as Hcore.
  { rewrite Hsort. unfold servicePatterns.
    rewrite (fmap_bind_fmap _ _
               (λ r, (CombinedRule.ID r, CombinedRule.Regex r, CombinedRule.Keywords r,
                      CombinedRule.SecretGroup r)))
      by (intros svc r; apply toValuePattern_core).
    rewrite Hrules, <- list_fmap_compose. done. }
  split; [exact Hcore|].
  apply Permutation_length in Hcore. by rewrite !length_fmap in Hcore.
Qed.

Lemma toGondolinExport_patterns_conserved_witness :
  ∃ full,
    combine insertionSort keepOrder 0%Z sampleDetectors sampleRules = Some full
    ∧ (λ p, (ValuePattern.ID p, ValuePattern.Regex p, ValuePattern.Keywords p,
             ValuePattern.SecretGroup p))
        <$> GondolinExport.ValuePatterns (toGondolinExport insertionSort (λ l, l) full)
      ≡ₚ (λ r, (GLRule.ID r, GLRule.Regex r, GLRule.Keywords r, GLRule.SecretGroup r))
           <$> sampleRules
    ∧ length (GondolinExport.ValuePatterns (toGondolinExport insertionSort (λ l, l) full))
      = length sampleRules.
Proof.
  apply (toGondolinExport_patterns_conserved insertionSort keepOrder (λ l, l) 0%Z
           sampleDetectors sampleRules).
  exact insertionSort_perm.
Defined.

(** ** Linked patterns *)

Lemma countLinkedPatterns_filter patterns :
  countLinkedPatterns patterns
  = length (filter (λ p, ValuePattern.Keyword p ≠ "") patterns).
Proof.
  unfold countLinkedPatterns.
  assert (∀ n, foldl (λ n p, if negb (String.eqb (ValuePattern.Keyword p) "")
                             then n + 1 else n) n patterns
               = n + length (filter (λ p, ValuePattern.Keyword p ≠ "") patterns)) as H.
  { induction patterns as [|p l IH]; intros n; simpl; [lia|].
    rewrite IH, filter_cons.
    destruct (String.eqb_spec (ValuePattern.Keyword p) ""); case_decide;
      simpl; (done || lia). }
  apply (H 0).
Qed.

Lemma filter_ext_elem_of {A} (P Q : A → Prop) `{∀ x, Decision (P x)}
    `{∀ x, Decision (Q x)} (l : list A) :
  (∀ x, x ∈ l → P x ↔ Q x) → filter P l = filter Q l.
Proof.
  induction l as [|x l IH]; intros Hext; [done|].
  rewrite !filter_cons.
  destruct (decide (P x)) as [HP|HP]; destruct (decide (Q x)) as [HQ|HQ].
  - f_equal. apply IH. intros y Hy. apply Hext. by right.
  - exfalso. apply HQ. apply Hext; [by left | done].
  - exfalso. apply HP. apply Hext; [by left | done].
  - apply IH. intros y Hy. apply Hext. by right.
Qed.

Lemma linked_count (kh : gmap string (list string)) (svcs : list CombinedSvc.t) :
  length (filter (λ p, ValuePattern.Keyword p ≠ "")
            (svcs ≫= (λ svc, linkedPattern kh svc <$> CombinedSvc.Rules svc)))
  = length (filter (λ svc, is_Some (kh !! CombinedSvc.Keyword svc)
                           ∧ CombinedSvc.Keyword svc ≠ "") svcs
              ≫= CombinedSvc.Rules).
Proof.
  induction svcs as [|svc l IH]; [done|].
  rewrite bind_cons, filter_app, length_app, IH, filter_cons.
  assert (length (filter (λ p, ValuePattern.Keyword p ≠ "")
                    (linkedPattern kh svc <$> CombinedSvc.Rules svc))
          = if decide (is_Some (kh !! CombinedSvc.Keyword svc)
                       ∧ CombinedSvc.Keyword svc ≠ "")
            then length (CombinedSvc.Rules svc) else 0) as ->.
  { induction (CombinedSvc.Rules svc) as [|r rs IHr]; [by case_decide|].
    rewrite fmap_cons, filter_cons. unfold linkedPattern at 1. simpl.
    destruct (decide (is_Some (kh !! CombinedSvc.Keyword svc))) as [Hs|Hs];
      destruct (decide (CombinedSvc.Keyword svc = "")) as [Hk|Hk].
    - rewrite decide_False by tauto. rewrite decide_False in IHr by tauto.
      by rewrite decide_False by tauto.
    - rewrite decide_True by done. rewrite decide_True in IHr by done.
      rewrite decide_True by done. simpl. by rewrite IHr.
    - rewrite decide_False by tauto. rewrite decide_False in IHr by tauto.
      by rewrite decide_False by tauto.
    - rewrite decide_False by tauto. rewrite decide_False in IHr by tauto.
      by rewrite decide_False by tauto. }
  case_decide; [by rewrite bind_cons, length_app | done].
Qed.

Lemma filter_and_bind_le {A B} (P Q : A → Prop) `{∀ x, Decision (P x)}
    `{∀ x, Decision (Q x)} (g : A → list B) (l : list A) :
  length (filter (λ x, P x ∧ Q x) l ≫= g) ≤ length (filter P l ≫= g).
Proof.
  induction l as [|x l IH]; [done|].
  rewrite !filter_cons.
  destruct (decide (P x)) as [HP|HP]; destruct (decide (Q x)) as [HQ|HQ].
  - rewrite decide_True by done. rewrite !bind_cons, !length_app. lia.
  - rewrite decide_False by tauto. rewrite bind_cons, length_app. lia.
  - rewrite decide_False by tauto. done.
  - rewrite decide_False by tauto. done.
Qed.

(** X13.  The patterns that [countLinkedPatterns] counts in the projection
    of what [combine] returns are the rules of the services that have
    hosts and a keyword that is not empty: never more than
    RulesWithHosts, and exactly RulesWithHosts when no rule has an empty
    keyword. *)
Theorem countLinkedPatterns_rules_with_hosts
    (sortSlice : ∀ A : Type, (A → A → bool) → list A → list A)
    (mapOrder : nat → list string → list string)
    (tableOrder : list string → list string) (now : Time)
    (thDetectors : list THDetector.t) (glRules : list GLRule.t) :
  (∀ A less l, sortSlice A less l ≡ₚ l) →
  ∃ full,
    combine sortSlice mapOrder now thDetectors glRules = Some full
    ∧ let linked :=
        countLinkedPatterns
          (GondolinExport.ValuePatterns (toGondolinExport sortSlice tableOrder full)) in
      linked
      = length (filter (λ svc, hasHosts svc ∧ CombinedSvc.Keyword svc ≠ "")
                  (CombinedExport.Services full) ≫= CombinedSvc.Rules)
      ∧ linked ≤ CombinedStats.RulesWithHosts (CombinedExport.Stats full)
      ∧ ((∀ r, r ∈ glRules → GLRule.Keyword r ≠ "") →
         linked = CombinedStats.RulesWithHosts (CombinedExport.Stats full)).
Proof.
  intros Hsort.
  destruct (combine_returns sortSlice mapOrder now thDetectors glRules)
    as (st & Hrun & Hout).
  eexists. split; [exact Hout|].
  pose proof (combine_uniqueServices _ _ _ _ _ _ Hout) as Huniq.
  match goal with |- context [toGondolinExport _ _ ?full] => set (out := full) in * end.
  destruct (toGondolinExport_unique sortSlice tableOrder out Hsort Huniq)
    as [Hmap Hpat].
  cbv zeta in Hmap, Hpat |- *.
  set (kh := GondolinExport.KeywordHostMap (toGondolinExport sortSlice tableOrder out))
    in *.
  assert (∀ svc, svc ∈ CombinedExport.Services out →
            is_Some (kh !! CombinedSvc.Keyword svc) ↔ hasHosts svc) as Hlinked.
  { intros svc Hsvc. split.
    - intros [hs Hhs]. apply Hmap in Hhs as (svc' & Hin & Hkw & Hhosts & Hne).
      assert (svc' = svc) as ->.
      { apply (NoDup_fmap_eq _ _ _ _ Huniq Hin Hsvc). simpl. by rewrite Hkw. }
      unfold hasHosts. by rewrite Hhosts.
    - intros Hh. exists (CombinedSvc.Hosts svc). apply Hmap. by exists svc. }
  assert (countLinkedPatterns
            (GondolinExport.ValuePatterns (toGondolinExport sortSlice tableOrder out))
          = length (filter (λ svc, hasHosts svc ∧ CombinedSvc.Keyword svc ≠ "")
                      (CombinedExport.Services out) ≫= CombinedSvc.Rules)) as Hcount.
  { rewrite countLinkedPatterns_filter, Hpat, linked_count. do 2 f_equal.
    apply filter_ext_elem_of. intros svc Hsvc. by rewrite Hlinked. }
  assert (CombinedStats.RulesWithHosts (CombinedExport.Stats out)
          = length (filter hasHosts (CombinedExport.Services out) ≫= CombinedSvc.Rules))
    as Hstat.
  { subst out. cbn [CombinedExport.Stats CombinedExport.Services].
    apply mergeLoop_stats in Hrun. rewrite Hrun. simpl. apply sum_list_with_bind. }
  split; [exact Hcount|]. rewrite Hcount, Hstat. split.
  - apply filter_and_bind_le.
  - intros Hkw. do 2 f_equal. apply filter_ext_elem_of. intros svc Hsvc.
    split; [tauto|]. intros Hh. split; [done|].
    destruct (combine_service_inv _ _ _ _ _ _ svc Hout Hsvc)
      as (r & rs & j & Hrs & Hsvc').
    assert (CombinedSvc.Keyword svc = GLRule.Keyword r) as -> by (by rewrite Hsvc').
    apply Hkw.
    assert (r ∈ rulesFor (normalizeKeyword (CombinedSvc.Keyword svc)) glRules) as Hin
      by (rewrite Hrs; by left).
    apply list_elem_of_filter in Hin. tauto.
Qed.

Lemma countLinkedPatterns_rules_with_hosts_witness :
  ∃ full,
    combine insertionSort keepOrder 0%Z sampleDetectors sampleRules = Some full
    ∧ let linked :=
        countLinkedPatterns
          (GondolinExport.ValuePatterns (toGondolinExport insertionSort (λ l, l) full)) in
      linked
      = length (filter (λ svc, hasHosts svc ∧ CombinedSvc.Keyword svc ≠ "")
                  (CombinedExport.Services full) ≫= CombinedSvc.Rules)
      ∧ linked ≤ CombinedStats.RulesWithHosts (CombinedExport.Stats full)
      ∧ ((∀ r, r ∈ sampleRules → GLRule.Keyword r ≠ "") →
         linked = CombinedStats.RulesWithHosts (CombinedExport.Stats full)).
Proof.
  apply (countLinkedPatterns_rules_with_hosts insertionSort keepOrder (λ l, l) 0%Z
           sampleDetectors sampleRules).
  exact insertionSort_perm.
Defined.

(** ** The order of the value patterns *)

Lemma string_compare_refl s : String.compare s s = Eq.
Proof.
  pose proof (String.compare_antisym s s) as H.
  destruct (String.compare s s); simpl in H; congruence.
Qed.

Lemma string_ltb_le a b : String.ltb a b = true ↔ String.le a b ∧ a ≠ b.
Proof.
  unfold String.le, String.leb, String.ltb.
  destruct (String.compare a b) eqn:Hc.
  - apply String.compare_eq_iff in Hc. split; [done|]. intros [_ ?]. done.
  - split; [|done]. intros _. split; [done|]. intros ->.
    rewrite string_compare_refl in Hc. done.
  - split; [done|]. intros [[] _].
Qed.

Lemma string_ltb_irrefl a : String.ltb a a = false.
Proof. unfold String.ltb. by rewrite string_compare_refl. Qed.

Lemma string_ltb_trans a b c :
  String.ltb a b = true → String.ltb b c = true → String.ltb a c = true.
Proof.
  rewrite !string_ltb_le. intros [Hab Hne] [Hbc Hne']. split.
  - by etrans.
  - intros ->. apply Hne. by apply (anti_symm String.le).
Qed.

Lemma string_ltb_asym a b : String.ltb a b = true → String.ltb b a = false.
Proof.
  intros Hab. destruct (String.ltb b a) eqn:Hba; [|done].
  pose proof (string_ltb_trans _ _ _ Hab Hba) as H.
  by rewrite string_ltb_irrefl in H.
Qed.

Lemma string_ltb_total a b :
  String.ltb a b = false → String.ltb b a = false → a = b.
Proof.
  intros Hab Hba. destruct (decide (a = b)) as [|Hne]; [done|]. exfalso.
  destruct (total String.le a b) as [Hle|Hle].
  - assert (String.ltb a b = true) by (by apply string_ltb_le). congruence.
  - assert (String.ltb b a = true) by (apply string_ltb_le; split; [done|congruence]).
    congruence.
Qed.

Lemma string_ltb_empty a : a ≠ "" → String.ltb "" a = true.
Proof. by destruct a. Qed.

(** The comparison read as a lexicographic one: first the patterns with a
    keyword, then the keywords, then the ids. *)
Lemma lessPattern_lex p q :
  lessPattern p q = true
  ↔ (ValuePattern.Keyword p ≠ "" ∧ ValuePattern.Keyword q = "")
    ∨ ((ValuePattern.Keyword p = "" ↔ ValuePattern.Keyword q = "")
       ∧ (String.ltb (ValuePattern.Keyword p) (ValuePattern.Keyword q) = true
          ∨ (ValuePattern.Keyword p = ValuePattern.Keyword q
             ∧ String.ltb (ValuePattern.ID p) (ValuePattern.ID q) = true))).
Proof.
  unfold lessPattern. cbv zeta.
  destruct (String.eqb_spec (ValuePattern.Keyword p) "") as [Hp|Hp];
    destruct (String.eqb_spec (ValuePattern.Keyword q) "") as [Hq|Hq];
    destruct (String.eqb_spec (ValuePattern.Keyword p) (ValuePattern.Keyword q))
      as [Hpq|Hpq]; simpl.
  - rewrite Hp, Hq. rewrite string_ltb_irrefl. split.
    + intros H. right. split; [done|]. by right.
    + intros [[? _]|[_ [?|[_ ?]]]]; done.
  - congruence.
  - congruence.
  - split; [done|]. intros [[? _]|[[H _] _]]; [done|]. by specialize (H Hp).
  - congruence.
  - split; [by left | done].
  - split.
    + intros H. right. split; [tauto|]. by right.
    + intros [[_ ?]|[_ [H|[_ ?]]]]; [done| |done].
      rewrite Hpq, string_ltb_irrefl in H. done.
  - split.
    + intros H. right. split; [tauto|]. by left.
    + intros [[_ ?]|[_ [?|[? _]]]]; done.
Qed.

Lemma lessPattern_irrefl p : lessPattern p p = false.
Proof.
  destruct (lessPattern p p) eqn:H; [|done].
  apply lessPattern_lex in H as [[? ?]|[_ [H|[_ H]]]]; [done|..];
    by rewrite string_ltb_irrefl in H.
Qed.

Lemma lessPattern_trans p q r :
  lessPattern p q = true → lessPattern q r = true → lessPattern p r = true.
Proof.
  rewrite !lessPattern_lex.
  intros [[Hp Hq]|[Hpq Hlt]] [[Hq' Hr]|[Hqr Hlt']].
  - done.
  - left. tauto.
  - left. tauto.
  - right. split; [tauto|].
    destruct Hlt as [Hlt|[-> Hlt]], Hlt' as [Hlt'|[Heq Hlt']].
    + left. by eapply string_ltb_trans.
    + left. by rewrite <- Heq.
    + by left.
    + right. split; [done|]. by eapply string_ltb_trans.
Qed.

Lemma lessPattern_ties p q :
  lessPattern p q = false → lessPattern q p = false →
  ValuePattern.Keyword p = ValuePattern.Keyword q
  ∧ ValuePattern.ID p = ValuePattern.ID q.
Proof.
  intros Hpq Hqp.
  assert (¬ lessPattern p q = true) as Hn by congruence.
  assert (¬ lessPattern q p = true) as Hn' by congruence.
  rewrite lessPattern_lex in Hn, Hn'.
  destruct (decide (ValuePattern.Keyword p = "")) as [Hp|Hp];
    destruct (decide (ValuePattern.Keyword q = "")) as [Hq|Hq];
    try (exfalso; tauto).
  - split; [congruence|]. apply string_ltb_total.
    + destruct (String.ltb (ValuePattern.ID p) (ValuePattern.ID q)) eqn:E; [|done].
      exfalso. apply Hn. right. split; [tauto|]. right. split; congruence.
    + destruct (String.ltb (ValuePattern.ID q) (ValuePattern.ID p)) eqn:E; [|done].
      exfalso. apply Hn'. right. split; [tauto|]. right. split; congruence.
  - assert (ValuePattern.Keyword p = ValuePattern.Keyword q) as Hk.
    { apply string_ltb_total.
      - destruct (String.ltb (ValuePattern.Keyword p) (ValuePattern.Keyword q)) eqn:E;
          [|done]. exfalso. apply Hn. right. split; [tauto|]. by left.
      - destruct (String.ltb (ValuePattern.Keyword q) (ValuePattern.Keyword p)) eqn:E;
          [|done]. exfalso. apply Hn'. right. split; [tauto|]. by left. }
    split; [done|]. apply string_ltb_total.
    + destruct (String.ltb (ValuePattern.ID p) (ValuePattern.ID q)) eqn:E; [|done].
      exfalso. apply Hn. right. split; [tauto|]. by right.
    + destruct (String.ltb (ValuePattern.ID q) (ValuePattern.ID p)) eqn:E; [|done].
      exfalso. apply Hn'. right. split; [tauto|]. by right.
Qed.

Lemma lessPattern_same_key p q :
  ValuePattern.Keyword p = ValuePattern.Keyword q →
  ValuePattern.ID p = ValuePattern.ID q →
  lessPattern p q = false.
Proof.
  intros Hk Hid. destruct (lessPattern p q) eqn:H; [|done].
  apply lessPattern_lex in H as [[? ?]|[_ [H|[_ H]]]].
  - congruence.
  - by rewrite Hk, string_ltb_irrefl in H.
  - by rewrite Hid, string_ltb_irrefl in H.
Qed.

(** X14.  The comparison that [toGondolinExport] gives to [sort.Slice] is
    a strict weak order, as [sort.Slice] asks: nothing is before itself,
    it is transitive, and two patterns neither of which is before the
    other are those with the same keyword and the same id, so that being
    tied is an equivalence. A pattern with a keyword is before every
    pattern without one. *)
Theorem lessPattern_strict_weak_order :
  (∀ p, lessPattern p p = false)
  ∧ (∀ p q r, lessPattern p q = true → lessPattern q r = true →
              lessPattern p r = true)
  ∧ (∀ p q, lessPattern p q = false ∧ lessPattern q p = false
            ↔ ValuePattern.Keyword p = ValuePattern.Keyword q
              ∧ ValuePattern.ID p = ValuePattern.ID q)
  ∧ (∀ p q, ValuePattern.Keyword p ≠ "" → ValuePattern.Keyword q = "" →
            lessPattern p q = true).
Proof.
  split; [exact lessPattern_irrefl|].
  split; [exact lessPattern_trans|].
  split.
  - intros p q. split.
    + intros [H1 H2]. by apply lessPattern_ties.
    + intros [Hk Hid]. split; by apply lessPattern_same_key.
  - intros p q Hp Hq. apply lessPattern_lex. by left.
Qed.

(** ** What the sorted slices look like *)

Lemma StronglySorted_lookup {A} (R : relation A) (l : list A) i j a b :
  StronglySorted R l → i < j → l !! i = Some a → l !! j = Some b → R a b.
Proof.
  intros Hs. revert i j. induction Hs as [|x l Hs IH Hall]; intros i j Hij Hi Hj.
  - done.
  - destruct j as [|j]; [lia|]. destruct i as [|i]; simpl in *.
    + injection Hi as <-. rewrite Forall_forall in Hall. apply Hall.
      by eapply list_elem_of_lookup_2.
    + apply (IH i j); [lia|done..].
Qed.

Lemma StronglySorted_reverse {A} (R : relation A) (l : list A) :
  StronglySorted R l → StronglySorted (flip R) (reverse l).
Proof.
  induction 1 as [|x l Hs IH Hall]; [constructor|].
  rewrite reverse_cons. apply StronglySorted_app_2.
  - intros y z Hy Hz. apply list_elem_of_singleton in Hz as ->.
    rewrite elem_of_reverse in Hy. rewrite Forall_forall in Hall.
    unfold flip. by apply Hall.
  - exact IH.
  - repeat constructor.
Qed.

Section InsertionSort.

Context {A : Type} (less : A → A → bool).
Hypothesis less_asym : ∀ a b, less a b = true → less b a = false.
Hypothesis less_negtrans :
  ∀ a b c, less a b = false → less b c = false → less a c = false.

Lemma sink_sorted x sorted :
  StronglySorted (λ a b, less a b = false) sorted →
  StronglySorted (λ a b, less a b = false) (sink less x sorted).
Proof.
  induction 1 as [|y rest Hs IH Hall]; simpl; [repeat constructor|].
  destruct (less x y) eqn:Hxy.
  - constructor; [done|]. rewrite sink_perm. constructor; [|done].
    by apply less_asym.
  - constructor; [by constructor|]. constructor; [done|].
    eapply Forall_impl; [exact Hall|]. intros z Hz. simpl in Hz.
    by eapply less_negtrans.
Qed.

Lemma insertionSort_noInversion l : noInversion less (insertionSort A less l).
Proof.
  unfold noInversion, insertionSort.
  apply (StronglySorted_reverse (λ a b, less a b = false)).
  induction l as [|x l IH] using rev_ind; [constructor|].
  rewrite foldl_snoc. by apply sink_sorted.
Qed.

End InsertionSort.

Lemma string_ltb_false a b : String.ltb b a = false ↔ String.le a b.
Proof.
  split.
  - intros Hlt. destruct (total String.le a b) as [|Hle]; [done|].
    destruct (decide (b = a)) as [->|Hne]; [done|].
    assert (String.ltb b a = true) by (by apply string_ltb_le). congruence.
  - intros Hle. destruct (String.ltb b a) eqn:Hlt; [|done].
    apply string_ltb_le in Hlt as [Hle' Hne]. exfalso. apply Hne.
    by apply (anti_symm String.le).
Qed.

Lemma lessKeyword_asym a b : lessKeyword a b = true → lessKeyword b a = false.
Proof. apply string_ltb_asym. Qed.

Lemma lessKeyword_negtrans a b c :
  lessKeyword a b = false → lessKeyword b c = false → lessKeyword a c = false.
Proof.
  unfold lessKeyword. rewrite !string_ltb_false. intros ??. by etrans.
Qed.

Lemma lessPattern_asym p q : lessPattern p q = true → lessPattern q p = false.
Proof.
  intros Hpq. destruct (lessPattern q p) eqn:Hqp; [|done].
  pose proof (lessPattern_trans _ _ _ Hpq Hqp) as H.
  by rewrite lessPattern_irrefl in H.
Qed.

Lemma lessPattern_key_l p p' q :
  ValuePattern.Keyword p = ValuePattern.Keyword p' →
  ValuePattern.ID p = ValuePattern.ID p' →
  lessPattern p q = lessPattern p' q.
Proof. unfold lessPattern. cbv zeta. by intros -> ->. Qed.

Lemma lessPattern_key_r p q q' :
  ValuePattern.Keyword q = ValuePattern.Keyword q' →
  ValuePattern.ID q = ValuePattern.ID q' →
  lessPattern p q = lessPattern p q'.
Proof. unfold lessPattern. cbv zeta. by intros -> ->. Qed.

Lemma lessPattern_false p q :
  lessPattern p q = false
  → lessPattern q p = true
    ∨ (ValuePattern.Keyword p = ValuePattern.Keyword q
       ∧ ValuePattern.ID p = ValuePattern.ID q).
Proof.
  intros Hpq. destruct (lessPattern q p) eqn:Hqp; [by left|].
  right. by apply lessPattern_ties.
Qed.

Lemma lessPattern_negtrans p q r :
  lessPattern p q = false → lessPattern q r = false → lessPattern p r = false.
Proof.
  intros [Hqp|[Hk Hi]]%lessPattern_false [Hrq|[Hk' Hi']]%lessPattern_false.
  - apply lessPattern_asym. by eapply lessPattern_trans.
  - apply lessPattern_asym. by rewrite <- (lessPattern_key_l q r p).
  - apply lessPattern_asym. by rewrite (lessPattern_key_r r p q).
  - apply lessPattern_same_key; congruence.
Qed.

(** X15.  When [sort.Slice] sorts, the value patterns of the projection
    stand in this order: the patterns with a keyword before those
    without, the keywords ascending, and the ids ascending among the
    patterns of one keyword (also among those without keyword). *)
Theorem toGondolinExport_patterns_ordered
    (sortSlice : ∀ A : Type, (A → A → bool) → list A → list A)
    (tableOrder : list string → list string) (full : CombinedExport.t) :
  (∀ l, noInversion lessPattern (sortSlice _ lessPattern l)) →
  ∀ i j p q,
    i < j →
    GondolinExport.ValuePatterns (toGondolinExport sortSlice tableOrder full) !! i
    = Some p →
    GondolinExport.ValuePatterns (toGondolinExport sortSlice tableOrder full) !! j
    = Some q →
    (ValuePattern.Keyword p = "" → ValuePattern.Keyword q = "")
    ∧ (ValuePattern.Keyword q ≠ "" →
       String.le (ValuePattern.Keyword p) (ValuePattern.Keyword q))
    ∧ (ValuePattern.Keyword p = ValuePattern.Keyword q →
       String.le (ValuePattern.ID p) (ValuePattern.ID q)).
Proof.
  intros Hsorted i j p q Hij Hp Hq.
  assert (lessPattern q p = false) as Hqp.
  { unfold toGondolinExport in Hp, Hq.
    destruct (foldl indexHosts _ _) as [keywordHosts hasHosts].
    cbn [GondolinExport.ValuePatterns] in Hp, Hq.
    exact (StronglySorted_lookup _ _ i j p q (Hsorted _) Hij Hp Hq). }
  assert (¬ lessPattern q p = true) as Hn by congruence.
  rewrite lessPattern_lex in Hn.
  assert (ValuePattern.Keyword p = "" → ValuePattern.Keyword q = "") as Hempty.
  { intros Hpe. destruct (decide (ValuePattern.Keyword q = "")); [done|].
    exfalso. apply Hn. by left. }
  split; [done|]. split.
  - intros Hq'. apply string_ltb_false.
    destruct (String.ltb (ValuePattern.Keyword q) (ValuePattern.Keyword p)) eqn:Hlt;
      [|done].
    exfalso. apply Hn. right. split; [|by left]. tauto.
  - intros Hk. apply string_ltb_false.
    destruct (String.ltb (ValuePattern.ID q) (ValuePattern.ID p)) eqn:Hlt; [|done].
    exfalso. apply Hn. right. split; [by rewrite Hk|]. by right.
Qed.

Lemma toGondolinExport_patterns_ordered_witness :
  ∃ p q,
    GondolinExport.ValuePatterns (toGondolinExport insertionSort (λ l, l) stripeAndAge)
      !! 0 = Some p
    ∧ GondolinExport.ValuePatterns (toGondolinExport insertionSort (λ l, l) stripeAndAge)
        !! 1 = Some q
    ∧ (ValuePattern.Keyword p = "" → ValuePattern.Keyword q = "")
    ∧ (ValuePattern.Keyword q ≠ "" →
       String.le (ValuePattern.Keyword p) (ValuePattern.Keyword q))
    ∧ (ValuePattern.Keyword p = ValuePattern.Keyword q →
       String.le (ValuePattern.ID p) (ValuePattern.ID q)).
Proof.
  eexists _, _. split; [vm_compute; reflexivity|]. split; [vm_compute; reflexivity|].
  apply (toGondolinExport_patterns_ordered insertionSort (λ l, l) stripeAndAge
           (λ l, insertionSort_noInversion lessPattern lessPattern_asym
                   lessPattern_negtrans l) 0 1).
  - lia.
  - vm_compute. reflexivity.
  - vm_compute. reflexivity.
Defined.

Lemma combine_THOnly_perm sortSlice mapOrder now thDetectors glRules out :
  (∀ A less l, sortSlice A less l ≡ₚ l) →
  combine sortSlice mapOrder now thDetectors glRules = Some out →
  CombinedExport.THOnlyHosts out
  ≡ₚ toTHOnlyEntry <$>
       filter (λ d, THDetector.DirName d
                    ∉ CombinedExport.Services out ≫= CombinedSvc.MatchedTH)
         thDetectors.
Proof.
  intros Hperm.
  destruct (combine_returns sortSlice mapOrder now thDetectors glRules)
    as (st & Hrun & ->).
  intros [= <-]. cbn [CombinedExport.THOnlyHosts CombinedExport.Services].
  rewrite Hperm. unfold thOnlyEntries. f_equiv.
  erewrite filter_ext_elem_of; [done|]. intros d _. simpl.
  pose proof (mergeLoop_used _ _ _ _ _ Hrun (THDetector.DirName d)) as Hused.
  rewrite list_elem_of_bind.
  destruct (lookupBool (thUsed st) (THDetector.DirName d)).
  - split; [done|]. intros Hno. exfalso. apply Hno.
    destruct (proj1 Hused eq_refl) as (svc & ? & ?). by exists svc.
  - split; [|done]. intros _ (svc & ? & ?).
    assert (false = true); [|done]. apply Hused. by exists svc.
Qed.

(** X16.  The host-only entries that [combine] returns are the detectors
    whose name no service lists among its matched names, each as often
    as it is in the input, and, when [sort.Slice] sorts, in ascending
    order of their keywords. *)
Theorem combine_THOnlyHosts
    (sortSlice : ∀ A : Type, (A → A → bool) → list A → list A)
    (mapOrder : nat → list string → list string) (now : Time)
    (thDetectors : list THDetector.t) (glRules : list GLRule.t) :
  (∀ A less l, sortSlice A less l ≡ₚ l) →
  (∀ l, noInversion lessKeyword (sortSlice _ lessKeyword l)) →
  ∃ out,
    combine sortSlice mapOrder now thDetectors glRules = Some out
    ∧ CombinedExport.THOnlyHosts out
      ≡ₚ toTHOnlyEntry <$>
           filter (λ d, THDetector.DirName d
                        ∉ CombinedExport.Services out ≫= CombinedSvc.MatchedTH)
             thDetectors
    ∧ ∀ i j a b,
        i < j →
        CombinedExport.THOnlyHosts out !! i = Some a →
        CombinedExport.THOnlyHosts out !! j = Some b →
        String.le (THOnlyEntry.Keyword a) (THOnlyEntry.Keyword b).
Proof.
  intros Hperm Hsorted.
  destruct (combine_returns sortSlice mapOrder now thDetectors glRules)
    as (st & Hrun & Hout).
  eexists. split; [exact Hout|].
  split; [exact (combine_THOnly_perm _ _ _ _ _ _ Hperm Hout)|].
  cbn [CombinedExport.THOnlyHosts].
  intros i j a b Hij Ha Hb. apply string_ltb_false.
  exact (StronglySorted_lookup _ _ i j a b (Hsorted _) Hij Ha Hb).
Qed.

Lemma combine_THOnlyHosts_witness :
  ∃ out,
    combine insertionSort keepOrder 0%Z sampleDetectors sampleRules = Some out
    ∧ CombinedExport.THOnlyHosts out
      ≡ₚ toTHOnlyEntry <$>
           filter (λ d, THDetector.DirName d
                        ∉ CombinedExport.Services out ≫= CombinedSvc.MatchedTH)
             sampleDetectors
    ∧ ∀ i j a b,
        i < j →
        CombinedExport.THOnlyHosts out !! i = Some a →
        CombinedExport.THOnlyHosts out !! j = Some b →
        String.le (THOnlyEntry.Keyword a) (THOnlyEntry.Keyword b).
Proof.
  apply (combine_THOnlyHosts insertionSort keepOrder 0%Z sampleDetectors sampleRules).
  - exact insertionSort_perm.
  - intros l. apply insertionSort_noInversion.
    + exact lessKeyword_asym.
    + exact lessKeyword_negtrans.
Defined.

(** ** What the derivers keep of a name *)

Lemma append_nil_r s : s +:+ "" = s.
Proof. induction s as [|c s IH]; [done|]. rewrite append_cons. by rewrite IH. Qed.

Lemma stripSuffixes_prefix name suffixes :
  (∃ rest, name = stripSuffixes name suffixes +:+ rest)
  ∧ (stripSuffixes name suffixes = name
     ∨ 3 ≤ String.length (stripSuffixes name suffixes)).
Proof.
  induction suffixes as [|suf rest IH].
  - split; [|by left]. exists "". simpl. by rewrite append_nil_r.
  - rewrite stripSuffixes_step. destruct (accepted name suf) eqn:Hacc; [|done].
    apply accepted_spec in Hacc as (base & -> & Hlen).
    rewrite sliceTo_append. split; [by exists suf | by right].
Qed.

Lemma thKeywordOverrides_prefix k ov :
  thKeywordOverrides !! k = Some ov →
  (∃ rest, k = ov +:+ rest) ∧ 3 ≤ String.length ov ∧ 3 < String.length k.
Proof.
  intros Hov. unfold thKeywordOverrides in Hov.
  apply elem_of_list_to_map_2 in Hov.
  repeat (apply elem_of_cons in Hov as [Hov|Hov];
          [injection Hov as -> ->;
           split; [eexists; cbn; reflexivity | cbn; lia]|]).
  by apply elem_of_nil in Hov.
Qed.

(** X17.  The keyword that [deriveKeywordFromTHName] returns is always a
    prefix of the trimmed, lowercased name, also when it comes from the
    override table.  A name of at most three bytes is returned as it is,
    a longer one keeps at least three bytes; so the keyword is empty
    only for an empty or blank name. *)
Theorem deriveKeywordFromTHName_prefix (name : string) :
  (∃ rest, ToLower (TrimSpace name) = deriveKeywordFromTHName name +:+ rest)
  ∧ (String.length (ToLower (TrimSpace name)) ≤ 3 →
     deriveKeywordFromTHName name = ToLower (TrimSpace name))
  ∧ (3 ≤ String.length (ToLower (TrimSpace name)) →
     3 ≤ String.length (deriveKeywordFromTHName name))
  ∧ (deriveKeywordFromTHName name = "" ↔ ToLower (TrimSpace name) = "").
Proof.
  unfold deriveKeywordFromTHName. cbv zeta.
  generalize (ToLower (TrimSpace name)). intros canon.
  destruct (String.eqb_spec canon "") as [->|Hne].
  { split; [by exists ""|]. split; [done|]. split; [done|]. done. }
  assert (0 < String.length canon) as Hpos by (destruct canon; [done | simpl; lia]).
  destruct (thKeywordOverrides !! canon) as [ov|] eqn:Hov.
  - apply thKeywordOverrides_prefix in Hov as (Hpre & Hlen & Hk).
    split; [done|]. split; [lia|]. split; [done|].
    split; [|done]. intros ->. simpl in Hlen. lia.
  - destruct (stripSuffixes_prefix canon credentialSuffixes) as [[rest Hrest] Hcase].
    revert Hrest Hcase. generalize (stripSuffixes canon credentialSuffixes).
    intros kw Hrest Hcase.
    split; [by exists rest|]. split; [|split].
    + intros Hle. destruct Hcase as [|Hge]; [done|].
      pose proof (f_equal String.length Hrest) as Hlen.
      rewrite length_append in Hlen.
      destruct rest as [|c rest]; [|cbn [String.length] in Hlen; lia].
      by rewrite append_nil_r in Hrest.
    + destruct Hcase as [->|]; done.
    + split; [|done]. intros Hnil. destruct Hcase as [Heq|Hge].
      * congruence.
      * rewrite Hnil in Hge. simpl in Hge. lia.
Qed.

Lemma append_assoc_s a b c : (a +:+ b) +:+ c = a +:+ (b +:+ c).
Proof. induction a as [|x a IH]; [done|]. rewrite !append_cons. by rewrite IH. Qed.

Lemma Join_app l1 l2 sep :
  l1 ≠ [] → l2 ≠ [] →
  Join (l1 ++ l2) sep = Join l1 sep +:+ sep +:+ Join l2 sep.
Proof.
  intros H1 H2. induction l1 as [|e l1 IH]; [done|].
  destruct l1 as [|e' l1].
  - cbn [app]. by rewrite Join_cons.
  - rewrite <- app_comm_cons, Join_cons by done.
    rewrite IH by done. rewrite (Join_cons e (e' :: l1)) by done.
    by rewrite !append_assoc_s.
Qed.

Lemma Join_empty sp sep : sp ≠ [] → Join sp (String sep "") = "" → sp = [""].
Proof.
  intros Hne Hj. destruct sp as [|e es]; [done|]. destruct es as [|e' es].
  - simpl in Hj. by rewrite Hj.
  - rewrite Join_cons in Hj by done.
    apply (f_equal String.length) in Hj. rewrite !length_append in Hj.
    simpl in Hj. lia.
Qed.

(** The tokens that the loop keeps, and what stopped it. *)
Lemma serviceParts_split parts :
  ∃ post,
    parts = serviceParts parts ++ post
    ∧ Forall (λ p, p ∉ credentialWordList) (serviceParts parts)
    ∧ (post = [] ∨ ∃ w post', post = w :: post' ∧ w ∈ credentialWordList).
Proof.
  induction parts as [|p ps (post & Heq & Hall & Hpost)].
  - exists []. split; [done|]. split; [constructor | by left].
  - rewrite serviceParts_cons. destruct (lookupBool credentialWords p) eqn:Hb.
    + exists (p :: ps). split; [done|]. split; [constructor|]. right.
      exists p, ps. split; [done|]. by apply credentialWords_spec.
    + exists post. split; [by rewrite <- app_comm_cons, <- Heq|]. split; [|done].
      constructor; [|done]. rewrite <- credentialWords_spec. congruence.
Qed.

Lemma glServiceOverrides_entry k ov :
  glServiceOverrides !! k = Some ov →
  ov ≠ "" ∧ ∃ p ps, Split k "-" = p :: ps ∧ p ≠ "" ∧ p ∉ credentialWordList.
Proof.
  intros Hov. unfold glServiceOverrides in Hov.
  apply elem_of_list_to_map_2 in Hov.
  repeat (apply elem_of_cons in Hov as [Hov|Hov];
          [injection Hov as -> ->;
           split; [done|]; eexists _, _;
           split; [vm_compute; reflexivity|];
           split; [done|]; apply (bool_decide_unpack _); vm_compute; exact I|]).
  by apply elem_of_nil in Hov.
Qed.

Lemma overridden_empty name : overridden name = "" ↔ name = "".
Proof.
  unfold overridden. destruct (glServiceOverrides !! name) as [ov|] eqn:Hov; [|done].
  apply glServiceOverrides_entry in Hov as (Hne & p & ps & Hsplit & Hp & _).
  simpl. split; [done|]. intros ->. simpl in Hsplit. congruence.
Qed.

Lemma empty_not_credential : "" ∉ credentialWordList.
Proof. apply (bool_decide_unpack _). vm_compute. exact I. Qed.

(** X18.  The keyword that [deriveKeywordFromGitleaksID] returns is what
    the override table makes of a prefix of the trimmed, lowercased
    identifier.  It is empty for a blank identifier and for one that
    starts with a hyphen followed by a credential word, such as
    ["-api-key"], and for no other. *)
Theorem deriveKeywordFromGitleaksID_prefix (ruleID : string) :
  (∃ name rest,
     ToLower (TrimSpace ruleID) = name +:+ rest
     ∧ deriveKeywordFromGitleaksID ruleID = overridden name)
  ∧ (deriveKeywordFromGitleaksID ruleID = ""
     ↔ ToLower (TrimSpace ruleID) = ""
       ∨ ∃ w post,
           Split (ToLower (TrimSpace ruleID)) "-" = "" :: w :: post
           ∧ w ∈ credentialWordList).
Proof.
  destruct (decide (ToLower (TrimSpace ruleID) = "")) as [Hnil|Hne].
  { assert (deriveKeywordFromGitleaksID ruleID = "") as ->.
    { unfold deriveKeywordFromGitleaksID. by rewrite Hnil. }
    split; [|split; [by left | done]].
    exists "", "". rewrite Hnil. split; [done|]. by apply overridden_empty. }
  rewrite deriveKeywordFromGitleaksID_unfold by done.
  pose proof (Join_Split (ToLower (TrimSpace ruleID)) "-") as Hjoin.
  revert Hne Hjoin. generalize (ToLower (TrimSpace ruleID)). intros canon Hne Hjoin.
  destruct (serviceParts_split (Split canon "-")) as (post & Heq & Hall & Hpost).
  destruct (serviceParts (Split canon "-")) as [|p sp] eqn:Hsp.
  - (* the first token is a credential word *)
    destruct Hpost as [->|(w & post' & -> & Hw)].
    { by apply Split_nonempty in Heq. }
    rewrite app_nil_l in Heq. split.
    + exists canon, "". split; [by rewrite append_nil_r|].
      unfold overridden. destruct (glServiceOverrides !! canon) as [ov|] eqn:Hov; [|done].
      apply glServiceOverrides_entry in Hov as (_ & p & ps & Hsplit & _ & Hp).
      rewrite Heq in Hsplit. congruence.
    + split; [done|]. intros [?|(w' & post & Hsplit & _)]; [done|].
      rewrite Heq in Hsplit. injection Hsplit as -> _.
      by apply empty_not_credential in Hw.
  - (* some tokens are kept *)
    split.
    + exists (Join (p :: sp) "-").
      destruct Hpost as [->|(w & post' & -> & Hw)].
      * exists "". rewrite app_nil_r in Heq. rewrite <- Heq, Hjoin.
        split; [by rewrite append_nil_r | done].
      * exists ("-" +:+ Join (w :: post') "-"). split; [|done].
        rewrite <- Hjoin at 1. rewrite Heq. by apply Join_app.
    + rewrite overridden_empty. split.
      * intros Hj. right. apply Join_empty in Hj; [|done].
        injection Hj as -> ->. destruct Hpost as [->|(w & post' & -> & Hw)].
        -- rewrite Heq in Hjoin. simpl in Hjoin. congruence.
        -- exists w, post'. by rewrite Heq.
      * intros [?|(w & post' & Hsplit & Hw)]; [done|].
        rewrite Hsplit in Hsp. rewrite serviceParts_cons in Hsp.
        destruct (lookupBool credentialWords "") eqn:Hb.
        { apply credentialWords_spec in Hb. by apply empty_not_credential in Hb. }
        rewrite serviceParts_cons in Hsp. apply credentialWords_spec in Hw.
        rewrite Hw in Hsp. by injection Hsp as <- <-.
Qed.

(** ** Case and surrounding white space *)

Lemma is_space_lowerByte c : Ascii.is_space (lowerByte c) = Ascii.is_space c.
Proof. destruct c as [[] [] [] [] [] [] [] []]; reflexivity. Qed.

Lemma ToLower_idemp s : ToLower (ToLower s) = ToLower s.
Proof. induction s as [|c t IH]; simpl; [done|]. by rewrite lowerByte_idemp, IH. Qed.

Lemma trimLeft_ToLower s : trimLeft (ToLower s) = ToLower (trimLeft s).
Proof.
  induction s as [|c t IH]; simpl; [done|].
  rewrite is_space_lowerByte. by destruct (Ascii.is_space c).
Qed.

Lemma trimRight_ToLower s : trimRight (ToLower s) = ToLower (trimRight s).
Proof.
  induction s as [|c t IH]; simpl; [done|].
  rewrite IH, is_space_lowerByte.
  destruct (trimRight t) as [|d t']; simpl; [|done].
  by destruct (Ascii.is_space c).
Qed.

Lemma TrimSpace_ToLower s : TrimSpace (ToLower s) = ToLower (TrimSpace s).
Proof. unfold TrimSpace. by rewrite trimLeft_ToLower, trimRight_ToLower. Qed.

Lemma trimRight_idemp s : trimRight (trimRight s) = trimRight s.
Proof.
  induction s as [|c t IH]; [done|]. cbn [trimRight].
  destruct (trimRight t) as [|d t'] eqn:Ht.
  - destruct (Ascii.is_space c) eqn:Hc; [done|]. simpl. by rewrite Hc.
  - cbn [trimRight]. cbn [trimRight] in IH. by rewrite IH.
Qed.

Lemma trimLeft_head s :
  match trimLeft s with "" => True | String c _ => Ascii.is_space c = false end.
Proof.
  induction s as [|c t IH]; simpl; [done|].
  by destruct (Ascii.is_space c) eqn:Hc.
Qed.

Lemma trimLeft_trimRight s :
  match s with "" => True | String c _ => Ascii.is_space c = false end →
  trimLeft (trimRight s) = trimRight s.
Proof.
  destruct s as [|c t]; [done|]. intros Hc. cbn [trimRight].
  destruct (trimRight t); rewrite ?Hc; simpl; by rewrite Hc.
Qed.

Lemma TrimSpace_idemp s : TrimSpace (TrimSpace s) = TrimSpace s.
Proof.
  unfold TrimSpace.
  rewrite (trimLeft_trimRight (trimLeft s)) by apply trimLeft_head.
  apply trimRight_idemp.
Qed.

Lemma canonical_ToLower s : ToLower (TrimSpace (ToLower s)) = ToLower (TrimSpace s).
Proof. by rewrite TrimSpace_ToLower, ToLower_idemp. Qed.

Lemma canonical_TrimSpace s : ToLower (TrimSpace (TrimSpace s)) = ToLower (TrimSpace s).
Proof. by rewrite TrimSpace_idemp. Qed.

Lemma normalizeKeyword_ToLower s : normalizeKeyword (ToLower s) = normalizeKeyword s.
Proof. unfold normalizeKeyword. by rewrite ToLower_idemp. Qed.

(** X19.  Neither deriver sees the case of its argument or the white
    space around it: both give the same keyword for a name, for the name
    lowercased and for the name trimmed.  [normalizeKeyword] does not see
    the case either, so that the index of [combine] and the groups of
    rules do not depend on it. *)
Theorem derivers_ignore_case_and_blanks (s : string) :
  deriveKeywordFromTHName (ToLower s) = deriveKeywordFromTHName s
  ∧ deriveKeywordFromTHName (TrimSpace s) = deriveKeywordFromTHName s
  ∧ deriveKeywordFromGitleaksID (ToLower s) = deriveKeywordFromGitleaksID s
  ∧ deriveKeywordFromGitleaksID (TrimSpace s) = deriveKeywordFromGitleaksID s
  ∧ normalizeKeyword (ToLower s) = normalizeKeyword s
  ∧ normalizeKeyword (deriveKeywordFromTHName (ToLower s))
    = normalizeKeyword (deriveKeywordFromTHName s).
Proof.
  assert (deriveKeywordFromTHName (ToLower s) = deriveKeywordFromTHName s) as Hth.
  { unfold deriveKeywordFromTHName. by rewrite canonical_ToLower. }
  split; [exact Hth|]. split.
  { unfold deriveKeywordFromTHName. by rewrite canonical_TrimSpace. }
  split.
  { unfold deriveKeywordFromGitleaksID. by rewrite canonical_ToLower. }
  split.
  { unfold deriveKeywordFromGitleaksID. by rewrite canonical_TrimSpace. }
  split; [apply normalizeKeyword_ToLower|]. by rewrite Hth.
Qed.

(** ** The reader of the rule catalog *)

Lemma lessRule_false a b :
  lessRule a b = false
  ↔ String.le (GLRule.Keyword b) (GLRule.Keyword a)
    ∧ (GLRule.Keyword a = GLRule.Keyword b → String.le (GLRule.ID b) (GLRule.ID a)).
Proof.
  unfold lessRule.
  destruct (String.eqb_spec (GLRule.Keyword a) (GLRule.Keyword b)) as [Heq|Hne].
  - rewrite string_ltb_false, Heq. split; [|tauto]. intros H. split; [done|]. by intros _.
  - rewrite string_ltb_false. split; [|tauto]. intros H. split; [done|]. by intros ?.
Qed.

Lemma lessRule_asym a b : lessRule a b = true → lessRule b a = false.
Proof.
  intros Hab. apply lessRule_false.
  assert (¬ lessRule a b = false) as Hn by congruence.
  rewrite lessRule_false in Hn.
  destruct (total String.le (GLRule.Keyword a) (GLRule.Keyword b)) as [Hk|Hk].
  - split; [done|]. intros Heq.
    destruct (total String.le (GLRule.ID a) (GLRule.ID b)) as [|Hid]; [done|].
    exfalso. apply Hn. split; [by rewrite Heq|]. by intros _.
  - destruct (decide (GLRule.Keyword a = GLRule.Keyword b)) as [Heq|Hne].
    + split; [by rewrite Heq|]. intros _.
      destruct (total String.le (GLRule.ID a) (GLRule.ID b)) as [|Hid]; [done|].
      exfalso. apply Hn. split; [done|]. by intros _.
    + exfalso. apply Hn. split; [done|]. by intros ?.
Qed.

Lemma lessRule_negtrans a b c :
  lessRule a b = false → lessRule b c = false → lessRule a c = false.
Proof.
  rewrite !lessRule_false. intros [Hba Hid] [Hcb Hid']. split; [by etrans|].
  intros Hac. rewrite Hac in Hba.
  assert (GLRule.Keyword b = GLRule.Keyword c) as Hbc
    by (by apply (anti_symm String.le)).
  etrans; [apply Hid'; done | apply Hid; congruence].
Qed.

(** X20.  [extractGitleaksRules] hands on the error of the read and the
    error of the decoder.  Otherwise it returns one rule for each rule of
    the file that is not marked [skipReport] and has an expression that
    is not blank, and no other; each with the keyword derived from its
    id and with its other fields untouched.  When [sort.Slice] sorts, the
    rules stand in ascending order of keyword and, within one keyword, of
    id. *)
Theorem extractGitleaksRules_spec {error : Type}
    (ReadFile : string → result error string)
    (Unmarshal : string → result error gitleaksConfig.t)
    (sortSlice : ∀ A : Type, (A → A → bool) → list A → list A)
    (tomlPath : string) :
  (∀ A less l, sortSlice A less l ≡ₚ l) →
  (∀ l, noInversion lessRule (sortSlice _ lessRule l)) →
  (∀ err, ReadFile tomlPath = Err err →
     extractGitleaksRules ReadFile Unmarshal sortSlice tomlPath = Err err)
  ∧ (∀ data err, ReadFile tomlPath = Ok data → Unmarshal data = Err err →
       extractGitleaksRules ReadFile Unmarshal sortSlice tomlPath = Err err)
  ∧ (∀ data cfg, ReadFile tomlPath = Ok data → Unmarshal data = Ok cfg →
       ∃ rules,
         extractGitleaksRules ReadFile Unmarshal sortSlice tomlPath = Ok rules
         ∧ rules
           ≡ₚ toGLRule <$>
                filter (λ r, gitleaksRule.SkipReport r = false
                             ∧ TrimSpace (gitleaksRule.Regex r) ≠ "")
                  (gitleaksConfig.Rules cfg)
         ∧ (∀ r, r ∈ rules →
              GLRule.Keyword r = deriveKeywordFromGitleaksID (GLRule.ID r)
              ∧ TrimSpace (GLRule.Regex r) ≠ "")
         ∧ length rules ≤ length (gitleaksConfig.Rules cfg)
         ∧ ∀ i j a b, i < j → rules !! i = Some a → rules !! j = Some b →
             String.le (GLRule.Keyword a) (GLRule.Keyword b)
             ∧ (GLRule.Keyword a = GLRule.Keyword b →
                String.le (GLRule.ID a) (GLRule.ID b))).
Proof.
  intros Hperm Hsorted. unfold extractGitleaksRules.
  split; [by intros err ->|]. split; [by intros data err -> ->|].
  intros data cfg -> ->. eexists. split; [done|].
  assert (filter (λ r, keepRule r = true) (gitleaksConfig.Rules cfg)
          = filter (λ r, gitleaksRule.SkipReport r = false
                         ∧ TrimSpace (gitleaksRule.Regex r) ≠ "")
              (gitleaksConfig.Rules cfg)) as ->.
  { apply list_filter_iff. intros r. unfold keepRule.
    destruct (gitleaksRule.SkipReport r); [naive_solver|].
    destruct (String.eqb_spec (TrimSpace (gitleaksRule.Regex r)) ""); naive_solver. }
  split; [apply Hperm|]. split; [|split].
  - intros r Hr. rewrite Hperm in Hr.
    apply list_elem_of_fmap in Hr as (g & -> & Hg).
    apply list_elem_of_filter in Hg as [[_ Hregex] _]. done.
  - rewrite Hperm, length_fmap. apply length_filter.
  - intros i j a b Hij Ha Hb.
    pose proof (StronglySorted_lookup _ _ i j a b (Hsorted _) Hij Ha Hb) as Hba.
    simpl in Hba. apply lessRule_false in Hba as [Hk Hid].
    split; [done|]. intros Heq. by apply Hid.
Qed.

Lemma extractGitleaksRules_spec_witness :
  ∃ rules,
    extractGitleaksRules (error := string) (λ _, Ok "data") (λ _, Ok sampleConfig)
      insertionSort "gitleaks.toml" = Ok rules
    ∧ rules
      ≡ₚ toGLRule <$>
           filter (λ r, gitleaksRule.SkipReport r = false
                        ∧ TrimSpace (gitleaksRule.Regex r) ≠ "")
             (gitleaksConfig.Rules sampleConfig)
    ∧ (∀ r, r ∈ rules →
         GLRule.Keyword r = deriveKeywordFromGitleaksID (GLRule.ID r)
         ∧ TrimSpace (GLRule.Regex r) ≠ "")
    ∧ length rules ≤ length (gitleaksConfig.Rules sampleConfig)
    ∧ ∀ i j a b, i < j → rules !! i = Some a → rules !! j = Some b →
        String.le (GLRule.Keyword a) (GLRule.Keyword b)
        ∧ (GLRule.Keyword a = GLRule.Keyword b →
           String.le (GLRule.ID a) (GLRule.ID b)).
Proof.
  apply (proj2 (proj2
    (extractGitleaksRules_spec (error := string) (λ _, Ok "data")
       (λ _, Ok sampleConfig) insertionSort "gitleaks.toml"
       insertionSort_perm
       (λ l, insertionSort_noInversion lessRule lessRule_asym lessRule_negtrans l)))
    "data" sampleConfig).
  - reflexivity.
  - reflexivity.
Defined.

(** The sample file: the rule marked [skipReport] and the rule without
    expression are left out, and the rule of keyword ["age"] comes first. *)
Example extractGitleaksRules_sample :
  extractGitleaksRules (error := string) (λ _, Ok "data") (λ _, Ok sampleConfig)
    insertionSort "gitleaks.toml"
  = Ok [ GLRule.mk "age-secret-key" "age" "" "AGE" 0%Z 0%Z [];
         GLRule.mk "stripe-access-token" "stripe" "" "sk_live" 0%Z 0%Z [] ].
Proof. vm_compute. reflexivity. Qed.

(** ** The versioned directories *)

Lemma digitsValue_nonneg s acc : (0 ≤ acc)%Z → (0 ≤ digitsValue acc s)%Z.
Proof.
  revert acc. induction s as [|c t IH]; intros acc Hacc; simpl; [done|].
  apply IH. lia.
Qed.

(** On digits [Atoi] reads a number that is not negative. *)
Lemma Atoi_digits digits v :
  allDigits digits = true → Atoi digits = Some v → (0 ≤ v)%Z.
Proof.
  intros Hall. destruct digits as [|c t]; [done|].
  cbn [allDigits] in Hall. apply andb_true_iff in Hall as [Hc Ht].
  unfold Atoi.
  destruct c as [[] [] [] [] [] [] [] []];
    try (vm_compute in Hc; discriminate Hc);
    cbv beta iota zeta; unfold parseDigits;
    (destruct (negb _ && allDigits _); [|done]);
    (destruct (_ && _)%bool; [|done]);
    intros [= <-]; by apply digitsValue_nonneg.
Qed.

Lemma versionDirRe_name name digits :
  versionDirRe name = Some digits →
  name = "v" +:+ digits ∧ digits ≠ "" ∧ allDigits digits = true.
Proof.
  destruct name as [|c t]; [done|]. cbn [versionDirRe].
  destruct c as [[] [] [] [] [] [] [] []]; try done.
  destruct (String.eqb_spec t "") as [->|Hne]; [done|].
  destruct (allDigits t) eqn:Hall; [|done]. simpl. intros [= <-]. done.
Qed.

Lemma versionOf_Some e v :
  versionOf e = Some v → (0 ≤ v)%Z ∧ DirEntry.Name e ≠ "" ∧ DirEntry.IsDir e = true.
Proof.
  unfold versionOf. destruct (DirEntry.IsDir e); [|done].
  destruct (versionDirRe (DirEntry.Name e)) as [digits|] eqn:Hre; [|done].
  simpl. intros Hv. destruct (versionDirRe_name _ _ Hre) as (Hname & Hne & Hall).
  split; [|split; [by rewrite Hname | done]].
  by eapply Atoi_digits.
Qed.

Lemma pickVersion_versionOf pathJoin serviceDir best e :
  pickVersion pathJoin serviceDir best e
  = match versionOf e with
    | Some v =>
        if (best.1 <? v)%Z then (v, pathJoin serviceDir (DirEntry.Name e)) else best
    | None => best
    end.
Proof.
  unfold pickVersion, versionOf. destruct (DirEntry.IsDir e); [|done]. simpl.
  destruct (versionDirRe (DirEntry.Name e)) as [digits|]; [|done]. simpl.
  by destruct (Atoi digits).
Qed.

Lemma pickVersion_keeps pathJoin serviceDir entries best :
  (∀ e v, e ∈ entries → versionOf e = Some v → (v ≤ best.1)%Z) →
  foldl (pickVersion pathJoin serviceDir) best entries = best.
Proof.
  revert best. induction entries as [|e es IH]; intros best Hle; [done|].
  cbn [foldl]. rewrite pickVersion_versionOf.
  destruct (versionOf e) as [v|] eqn:Hv.
  - assert (v ≤ best.1)%Z as Hvle by (apply (Hle e); [by left | done]).
    destruct (Z.ltb_spec best.1 v) as [|_]; [lia|].
    apply IH. intros e' v' He'. apply Hle. by right.
  - apply IH. intros e' v' He'. apply Hle. by right.
Qed.

Lemma pickVersion_first_highest pathJoin serviceDir entries i e v best :
  entries !! i = Some e → versionOf e = Some v → (best.1 < v)%Z →
  (∀ j e' v', entries !! j = Some e' → versionOf e' = Some v' →
     (v' ≤ v)%Z ∧ (j < i → (v' < v)%Z)) →
  foldl (pickVersion pathJoin serviceDir) best entries
  = (v, pathJoin serviceDir (DirEntry.Name e)).
Proof.
  revert i best. induction entries as [|x xs IH]; intros i best Hi Hv Hbest Hmax;
    [done|].
  cbn [foldl]. rewrite pickVersion_versionOf. destruct i as [|i]; simpl in Hi.
  - injection Hi as ->. rewrite Hv.
    destruct (Z.ltb_spec best.1 v) as [_|]; [|lia].
    apply pickVersion_keeps. simpl. intros e' v' He' Hv'.
    apply list_elem_of_lookup_1 in He' as [j Hj].
    by destruct (Hmax (S j) e' v' Hj Hv').
  - assert (∀ j e' v', xs !! j = Some e' → versionOf e' = Some v' →
              (v' ≤ v)%Z ∧ (j < i → (v' < v)%Z)) as Hmax'.
    { intros j e' v' Hj Hv'. destruct (Hmax (S j) e' v' Hj Hv') as [? Hlt].
      split; [done|]. intros ?. apply Hlt. lia. }
    destruct (versionOf x) as [vx|] eqn:Hvx; [|by apply (IH i)].
    assert (vx < v)%Z as Hvx' by (apply (Hmax 0 x vx eq_refl Hvx); lia).
    destruct (Z.ltb_spec best.1 vx); by apply (IH i).
Qed.

(** X21.  [chooseHighestVersionDir] hands on the error of the read.  It
    returns the directory itself when no entry is a directory named [v]
    and a decimal number that fits an [int].  Otherwise it returns the
    path of the entry with the highest such number, and of the first one
    in the listing when several carry it, as [v10] and [v010] do. *)
Theorem chooseHighestVersionDir_spec {error : Type}
    (ReadDir : string → result error (list DirEntry.t))
    (pathJoin : string → string → string) (serviceDir : string) :
  (∀ name, name ≠ "" → pathJoin serviceDir name ≠ "") →
  (∀ err, ReadDir serviceDir = Err err →
     chooseHighestVersionDir ReadDir pathJoin serviceDir = Err err)
  ∧ (∀ entries, ReadDir serviceDir = Ok entries →
       (∀ e, e ∈ entries → versionOf e = None) →
       chooseHighestVersionDir ReadDir pathJoin serviceDir = Ok serviceDir)
  ∧ (∀ entries i e v, ReadDir serviceDir = Ok entries →
       entries !! i = Some e → versionOf e = Some v →
       (∀ j e' v', entries !! j = Some e' → versionOf e' = Some v' →
          (v' ≤ v)%Z ∧ (j < i → (v' < v)%Z)) →
       chooseHighestVersionDir ReadDir pathJoin serviceDir
       = Ok (pathJoin serviceDir (DirEntry.Name e))).
Proof.
  intros Hjoin. unfold chooseHighestVersionDir.
  split; [by intros err ->|]. split.
  - intros entries -> Hnone. rewrite pickVersion_keeps; [done|].
    intros e v He Hv. rewrite (Hnone e He) in Hv. done.
  - intros entries i e v -> Hi Hv Hmax.
    destruct (versionOf_Some e v Hv) as (Hpos & Hname & _).
    rewrite (pickVersion_first_highest pathJoin serviceDir entries i e v);
      [|done|done|simpl; lia|done].
    cbn [snd]. specialize (Hjoin _ Hname).
    by destruct (String.eqb_spec (pathJoin serviceDir (DirEntry.Name e)) "").
Qed.

Lemma chooseHighestVersionDir_spec_witness :
  chooseHighestVersionDir (error := string) (λ _, Ok sampleEntries)
    (λ dir name, dir +:+ "/" +:+ name) "detectors/github"
  = Ok "detectors/github/v10".
Proof.
  apply (proj2 (proj2
    (chooseHighestVersionDir_spec (error := string) (λ _, Ok sampleEntries)
       (λ dir name, dir +:+ "/" +:+ name) "detectors/github"
       (λ name _, ltac:(discriminate))))
    sampleEntries 1 (DirEntry.mk "v10" true) 10%Z).
  - reflexivity.
  - reflexivity.
  - reflexivity.
  - intros j e' v' Hj Hv'.
    destruct j as [|[|[|[|[|[|j]]]]]]; simpl in Hj; simplify_eq;
      vm_compute in Hv'; simplify_eq; lia.
Defined.

(** The numbers that are read off the sample listing: a file is not a
    version, nor is [vx]; [v010] is the version ten again. *)
Example versionOf_sample :
  versionOf <$> sampleEntries
  = [Some 1%Z; Some 10%Z; Some 2%Z; None; Some 10%Z; None]
  ∧ Atoi "9223372036854775807" = Some maxInt
  ∧ Atoi "9223372036854775808" = None
  ∧ versionOf (DirEntry.mk "v9223372036854775808" true) = None
  ∧ versionOf (DirEntry.mk "v" true) = None
  ∧ versionOf (DirEntry.mk "V1" true) = None
  ∧ versionOf (DirEntry.mk "v1 " true) = None.
Proof. repeat split; vm_compute; reflexivity. Qed.

(** ** The reader of the detectors directory *)

Section Scan.

Context {error : Type}.
Variable ReadDir : string → result error (list DirEntry.t).
Variable pathJoin : string → string → string.
Variable errorText : error → string.
Variable extractHostsFromGoPackage :
  string → THExtractOptions.t → list string * list error * option error.
Variable detectorsRoot : string.
Variable opts : THExtractOptions.t.

Let outcome : DirEntry.t → option THDetector.t * list string * list error :=
  entryOutcome ReadDir pathJoin errorText extractHostsFromGoPackage detectorsRoot opts.

Lemma scanEntry_outcome ds sk ws e :
  scanEntry ReadDir pathJoin errorText extractHostsFromGoPackage detectorsRoot opts
    (ds, sk, ws) e
  = (ds ++ option_list (outcome e).1.1, sk ++ (outcome e).1.2, ws ++ (outcome e).2).
Proof.
  unfold outcome, entryOutcome, scanEntry.
  destruct (DirEntry.IsDir e); simpl; [|by rewrite !app_nil_r].
  destruct (chooseHighestVersionDir _ _ _) as [parseDir|err];
    [|by rewrite !app_nil_r].
  destruct (extractHostsFromGoPackage parseDir opts) as [[hosts w] [err|]].
  - by rewrite !app_nil_r.
  - destruct hosts as [|h hosts]; simpl; by rewrite !app_nil_r.
Qed.

Lemma scan_fold entries ds sk ws :
  foldl (scanEntry ReadDir pathJoin errorText extractHostsFromGoPackage
           detectorsRoot opts) (ds, sk, ws) entries
  = (ds ++ omap (λ e, (outcome e).1.1) entries,
     sk ++ (entries ≫= (λ e, (outcome e).1.2)),
     ws ++ (entries ≫= (λ e, (outcome e).2))).
Proof.
  revert ds sk ws. induction entries as [|e es IH]; intros ds sk ws.
  - by rewrite !app_nil_r.
  - cbn [foldl]. rewrite scanEntry_outcome, IH, !bind_cons, <- !app_assoc.
    do 2 f_equal. f_equal. simpl. by destruct (outcome e).1.1.
Qed.

(** What it takes for an entry to become a detector. *)
Lemma outcome_detector e d :
  (outcome e).1.1 = Some d
  ↔ DirEntry.IsDir e = true
    ∧ ∃ parseDir hosts ws,
        chooseHighestVersionDir ReadDir pathJoin
          (pathJoin detectorsRoot (DirEntry.Name e)) = Ok parseDir
        ∧ extractHostsFromGoPackage parseDir opts = (hosts, ws, None)
        ∧ hosts ≠ []
        ∧ d = THDetector.mk (DirEntry.Name e)
                (deriveKeywordFromTHName (DirEntry.Name e)) (sortStrings hosts).
Proof.
  unfold outcome, entryOutcome. split.
  - destruct (DirEntry.IsDir e); [|done].
    destruct (chooseHighestVersionDir _ _ _) as [parseDir|err]; [|done].
    destruct (extractHostsFromGoPackage parseDir opts) as [[hosts w] [err|]] eqn:Hx;
      [done|].
    destruct hosts as [|h hosts]; [done|]. simpl. intros [= <-].
    split; [done|]. by exists parseDir, (h :: hosts), w.
  - intros (-> & parseDir & hosts & w & -> & -> & Hne & ->).
    by destruct hosts.
Qed.

Lemma outcome_count e :
  length (option_list (outcome e).1.1) + length (outcome e).1.2
  ≤ (if DirEntry.IsDir e then 1 else 0).
Proof.
  unfold outcome, entryOutcome. destruct (DirEntry.IsDir e); [|done].
  destruct (chooseHighestVersionDir _ _ _) as [parseDir|err]; [|done].
  destruct (extractHostsFromGoPackage parseDir opts) as [[hosts w] [err|]]; [done|].
  destruct hosts; simpl; lia.
Qed.

Lemma outcome_counts entries :
  length (omap (λ e, (outcome e).1.1) entries)
  + length (entries ≫= (λ e, (outcome e).1.2))
  ≤ length (filter (λ e, DirEntry.IsDir e = true) entries).
Proof.
  induction entries as [|e es IH]; [done|].
  rewrite bind_cons, length_app, filter_cons. pose proof (outcome_count e) as He.
  cbn [omap list_omap]. destruct (outcome e).1.1 as [d|];
    destruct (DirEntry.IsDir e); simpl in *; try case_decide; simpl; try done; lia.
Qed.

Lemma outcome_names entries :
  THDetector.DirName <$> omap (λ e, (outcome e).1.1) entries
  `sublist_of` DirEntry.Name <$> entries.
Proof.
  induction entries as [|e es IH]; [done|]. cbn [omap list_omap].
  destruct (outcome e).1.1 as [d|] eqn:Hd.
  - apply outcome_detector in Hd as (_ & parseDir & hosts & w & _ & _ & _ & ->).
    simpl. by constructor.
  - rewrite fmap_cons. by constructor.
Qed.

End Scan.

Lemma lessDirName_asym a b : lessDirName a b = true → lessDirName b a = false.
Proof. apply string_ltb_asym. Qed.

Lemma lessDirName_negtrans a b c :
  lessDirName a b = false → lessDirName b c = false → lessDirName a c = false.
Proof.
  unfold lessDirName. rewrite !string_ltb_false. intros ??. by etrans.
Qed.

(** X22.  [extractTrufflehogDetectors] hands on the error of the read of
    the root.  Otherwise a detector is returned exactly for the
    directories whose package, in the directory that
    [chooseHighestVersionDir] picks, is read without error and yields at
    least one host: it carries the name of the directory, the keyword
    derived from that name and the hosts in ascending order.  So every
    detector returned has hosts, the detectors have distinct names when
    the entries have, and detectors and skipped directories together are
    not more than the directories. *)
Theorem extractTrufflehogDetectors_detectors {error : Type}
    (ReadDir : string → result error (list DirEntry.t))
    (pathJoin : string → string → string) (errorText : error → string)
    (extractHostsFromGoPackage :
       string → THExtractOptions.t → list string * list error * option error)
    (sortSlice : ∀ A : Type, (A → A → bool) → list A → list A)
    (detectorsRoot : string) (opts : THExtractOptions.t) :
  (∀ A less l, sortSlice A less l ≡ₚ l) →
  (∀ err, ReadDir detectorsRoot = Err err →
     extractTrufflehogDetectors ReadDir pathJoin errorText extractHostsFromGoPackage
       sortSlice detectorsRoot opts = Err err)
  ∧ (∀ entries, ReadDir detectorsRoot = Ok entries →
       ∃ detectors skipped warnings,
         extractTrufflehogDetectors ReadDir pathJoin errorText
           extractHostsFromGoPackage sortSlice detectorsRoot opts
         = Ok (detectors, skipped, warnings)
         ∧ (∀ d, d ∈ detectors ↔
              ∃ e parseDir hosts ws,
                e ∈ entries ∧ DirEntry.IsDir e = true
                ∧ chooseHighestVersionDir ReadDir pathJoin
                    (pathJoin detectorsRoot (DirEntry.Name e)) = Ok parseDir
                ∧ extractHostsFromGoPackage parseDir opts = (hosts, ws, None)
                ∧ hosts ≠ []
                ∧ d = THDetector.mk (DirEntry.Name e)
                        (deriveKeywordFromTHName (DirEntry.Name e))
                        (sortStrings hosts))
         ∧ (∀ d, d ∈ detectors →
              THDetector.Hosts d ≠ [] ∧ Sorted String.le (THDetector.Hosts d)
              ∧ THDetector.Keyword d = deriveKeywordFromTHName (THDetector.DirName d))
         ∧ (NoDup (DirEntry.Name <$> entries) →
            NoDup (THDetector.DirName <$> detectors))
         ∧ length detectors + length skipped
           ≤ length (filter (λ e, DirEntry.IsDir e = true) entries)).
Proof.
  intros Hperm. unfold extractTrufflehogDetectors.
  split; [by intros err ->|]. intros entries ->.
  rewrite scan_fold. rewrite !app_nil_l. eexists _, _, _. split; [done|].
  assert (∀ d, d ∈ sortSlice _ lessDirName
                      (omap (λ e, (entryOutcome ReadDir pathJoin errorText
                                     extractHostsFromGoPackage detectorsRoot opts e).1.1)
                         entries) ↔
            ∃ e parseDir hosts ws,
              e ∈ entries ∧ DirEntry.IsDir e = true
              ∧ chooseHighestVersionDir ReadDir pathJoin
                  (pathJoin detectorsRoot (DirEntry.Name e)) = Ok parseDir
              ∧ extractHostsFromGoPackage parseDir opts = (hosts, ws, None)
              ∧ hosts ≠ []
              ∧ d = THDetector.mk (DirEntry.Name e)
                      (deriveKeywordFromTHName (DirEntry.Name e))
                      (sortStrings hosts)) as Hmem.
  { intros d. rewrite Hperm, list_elem_of_omap. split.
    - intros (e & He & Hd). apply outcome_detector in Hd
        as (Hdir & parseDir & hosts & ws & ? & ? & ? & ?).
      by exists e, parseDir, hosts, ws.
    - intros (e & parseDir & hosts & ws & He & Hdir & ? & ? & ? & ?).
      exists e. split; [done|]. apply outcome_detector. split; [done|].
      by exists parseDir, hosts, ws. }
  split; [exact Hmem|]. split; [|split].
  - intros d Hd. apply Hmem in Hd
      as (e & parseDir & hosts & ws & _ & _ & _ & _ & Hne & ->).
    cbn [THDetector.Hosts THDetector.Keyword THDetector.DirName].
    split; [|split; [apply sortStrings_sorted | done]].
    intros Hnil. by apply sortStrings_nil_inv in Hnil.
  - intros Hnd. rewrite Hperm. eapply sublist_NoDup; [exact Hnd|].
    apply outcome_names.
  - rewrite Hperm.
    rewrite (Permutation_length (sortStrings_perm _)).
    apply outcome_counts.
Qed.

Lemma extractTrufflehogDetectors_detectors_witness :
  ∃ detectors skipped warnings,
    extractTrufflehogDetectors sampleReadDir sampleJoin (λ err, err) sampleHosts
      insertionSort "detectors" (THExtractOptions.mk false)
    = Ok (detectors, skipped, warnings)
    ∧ (∀ d, d ∈ detectors ↔
         ∃ e parseDir hosts ws,
           e ∈ [ DirEntry.mk "stripeapikey" true; DirEntry.mk "README.md" false;
                 DirEntry.mk "github" true; DirEntry.mk "nohosts" true;
                 DirEntry.mk "locked" true ]
           ∧ DirEntry.IsDir e = true
           ∧ chooseHighestVersionDir sampleReadDir sampleJoin
               (sampleJoin "detectors" (DirEntry.Name e)) = Ok parseDir
           ∧ sampleHosts parseDir (THExtractOptions.mk false) = (hosts, ws, None)
           ∧ hosts ≠ []
           ∧ d = THDetector.mk (DirEntry.Name e)
                   (deriveKeywordFromTHName (DirEntry.Name e)) (sortStrings hosts))
    ∧ (∀ d, d ∈ detectors →
         THDetector.Hosts d ≠ [] ∧ Sorted String.le (THDetector.Hosts d)
         ∧ THDetector.Keyword d = deriveKeywordFromTHName (THDetector.DirName d))
    ∧ (NoDup (DirEntry.Name <$>
                [ DirEntry.mk "stripeapikey" true; DirEntry.mk "README.md" false;
                  DirEntry.mk "github" true; DirEntry.mk "nohosts" true;
                  DirEntry.mk "locked" true ]) →
       NoDup (THDetector.DirName <$> detectors))
    ∧ length detectors + length skipped
      ≤ length (filter (λ e, DirEntry.IsDir e = true)
                  [ DirEntry.mk "stripeapikey" true; DirEntry.mk "README.md" false;
                    DirEntry.mk "github" true; DirEntry.mk "nohosts" true;
                    DirEntry.mk "locked" true ]).
Proof.
  apply (proj2
    (extractTrufflehogDetectors_detectors sampleReadDir sampleJoin (λ err, err)
       sampleHosts insertionSort "detectors" (THExtractOptions.mk false)
       insertionSort_perm)).
  reflexivity.
Defined.

(** The sample directory: the versioned detector is read in [v10], the
    directory without hosts leaves no trace, the unreadable one is
    skipped, and the warning of a package is kept. *)
Example extractTrufflehogDetectors_sample :
  extractTrufflehogDetectors sampleReadDir sampleJoin (λ err, err) sampleHosts
    insertionSort "detectors" (THExtractOptions.mk false)
  = Ok ([ THDetector.mk "github" "github" ["api.github.com"; "uploads.github.com"];
          THDetector.mk "stripeapikey" "stripe" ["api.stripe.com"] ],
        ["locked: permission denied"],
        ["github.go:12: parse url"]).
Proof. vm_compute. reflexivity. Qed.

Lemma outcome_skipped {error : Type}
    (ReadDir : string → result error (list DirEntry.t))
    (pathJoin : string → string → string) (errorText : error → string)
    (extractHostsFromGoPackage :
       string → THExtractOptions.t → list string * list error * option error)
    (detectorsRoot : string) (opts : THExtractOptions.t) (e : DirEntry.t) (s : string) :
  s ∈ (entryOutcome ReadDir pathJoin errorText extractHostsFromGoPackage
         detectorsRoot opts e).1.2
  ↔ DirEntry.IsDir e = true
    ∧ ∃ err, s = DirEntry.Name e +:+ ": " +:+ errorText err
        ∧ (chooseHighestVersionDir ReadDir pathJoin
             (pathJoin detectorsRoot (DirEntry.Name e)) = Err err
           ∨ ∃ parseDir hosts ws,
               chooseHighestVersionDir ReadDir pathJoin
                 (pathJoin detectorsRoot (DirEntry.Name e)) = Ok parseDir
               ∧ extractHostsFromGoPackage parseDir opts = (hosts, ws, Some err)).
Proof.
  unfold entryOutcome. destruct (DirEntry.IsDir e).
  - destruct (chooseHighestVersionDir _ _ _) as [parseDir|err].
    + destruct (extractHostsFromGoPackage parseDir opts) as [[hosts w] [err|]] eqn:Hx.
      * simpl. rewrite list_elem_of_singleton. split.
        -- intros ->. split; [done|]. exists err. split; [done|]. right.
           by exists parseDir, hosts, w.
        -- intros (_ & err' & -> & [?|(p & h & w' & [= <-] & Hx')]); [done|].
           rewrite Hx in Hx'. by injection Hx' as _ _ ->.
      * assert (∀ x : option THDetector.t * list string * list error,
                  x.1.2 = [] → s ∈ x.1.2 ↔ False) as Hnil.
        { intros x ->. by rewrite elem_of_nil. }
        rewrite Hnil by (by destruct hosts). split; [done|].
        intros (_ & err' & _ & [?|(p & h & w' & [= <-] & Hx')]); [done|].
        rewrite Hx in Hx'. done.
    + simpl. rewrite list_elem_of_singleton. split.
      * intros ->. split; [done|]. exists err. split; [done|]. by left.
      * intros (_ & err' & -> & [[= ->]|(p & h & w' & ? & _)]); done.
  - simpl. rewrite elem_of_nil. split; [done|]. by intros [? _].
Qed.

Lemma outcome_warnings {error : Type}
    (ReadDir : string → result error (list DirEntry.t))
    (pathJoin : string → string → string) (errorText : error → string)
    (extractHostsFromGoPackage :
       string → THExtractOptions.t → list string * list error * option error)
    (detectorsRoot : string) (opts : THExtractOptions.t) (e : DirEntry.t) :
  (entryOutcome ReadDir pathJoin errorText extractHostsFromGoPackage
     detectorsRoot opts e).2
  = if DirEntry.IsDir e then
      match chooseHighestVersionDir ReadDir pathJoin
              (pathJoin detectorsRoot (DirEntry.Name e)) with
      | Ok parseDir => (extractHostsFromGoPackage parseDir opts).1.2
      | Err _ => []
      end
    else [].
Proof.
  unfold entryOutcome. destruct (DirEntry.IsDir e); [|done].
  destruct (chooseHighestVersionDir _ _ _) as [parseDir|err]; [|done].
  destruct (extractHostsFromGoPackage parseDir opts) as [[hosts w] [err|]]; [done|].
  by destruct hosts.
Qed.

(** X23.  When [sort.Slice] sorts, the detectors that
    [extractTrufflehogDetectors] returns stand in ascending order of
    their names, strictly so when the entries have distinct names.  The
    skipped list is sorted and names, with the text of the error, the
    directories whose listing or whose package could not be read.  The
    warnings are those of all the packages that were walked, in the
    order of the entries, also of a package that ended in an error. *)
Theorem extractTrufflehogDetectors_order {error : Type}
    (ReadDir : string → result error (list DirEntry.t))
    (pathJoin : string → string → string) (errorText : error → string)
    (extractHostsFromGoPackage :
       string → THExtractOptions.t → list string * list error * option error)
    (sortSlice : ∀ A : Type, (A → A → bool) → list A → list A)
    (detectorsRoot : string) (opts : THExtractOptions.t)
    (entries : list DirEntry.t) :
  (∀ A less l, sortSlice A less l ≡ₚ l) →
  (∀ l, noInversion lessDirName (sortSlice _ lessDirName l)) →
  ReadDir detectorsRoot = Ok entries →
  ∃ detectors skipped warnings,
    extractTrufflehogDetectors ReadDir pathJoin errorText
      extractHostsFromGoPackage sortSlice detectorsRoot opts
    = Ok (detectors, skipped, warnings)
    ∧ (∀ i j a b, i < j → detectors !! i = Some a → detectors !! j = Some b →
         String.le (THDetector.DirName a) (THDetector.DirName b)
         ∧ (NoDup (DirEntry.Name <$> entries) →
            THDetector.DirName a ≠ THDetector.DirName b))
    ∧ Sorted String.le skipped
    ∧ (∀ s, s ∈ skipped ↔
         ∃ e err,
           e ∈ entries ∧ DirEntry.IsDir e = true
           ∧ s = DirEntry.Name e +:+ ": " +:+ errorText err
           ∧ (chooseHighestVersionDir ReadDir pathJoin
                (pathJoin detectorsRoot (DirEntry.Name e)) = Err err
              ∨ ∃ parseDir hosts ws,
                  chooseHighestVersionDir ReadDir pathJoin
                    (pathJoin detectorsRoot (DirEntry.Name e)) = Ok parseDir
                  ∧ extractHostsFromGoPackage parseDir opts = (hosts, ws, Some err)))
    ∧ warnings
      = entries ≫= (λ e,
          if DirEntry.IsDir e then
            match chooseHighestVersionDir ReadDir pathJoin
                    (pathJoin detectorsRoot (DirEntry.Name e)) with
            | Ok parseDir => (extractHostsFromGoPackage parseDir opts).1.2
            | Err _ => []
            end
          else []).
Proof.
  intros Hperm Hsorted Hread. unfold extractTrufflehogDetectors. rewrite Hread.
  rewrite scan_fold. rewrite !app_nil_l. eexists _, _, _. split; [done|].
  split; [|split; [apply sortStrings_sorted|split]].
  - intros i j a b Hij Ha Hb.
    pose proof (StronglySorted_lookup _ _ i j a b (Hsorted _) Hij Ha Hb) as Hba.
    simpl in Hba. apply string_ltb_false in Hba. split; [done|].
    intros Hnd Heq.
    assert (NoDup (THDetector.DirName <$>
                     sortSlice _ lessDirName
                       (omap (λ e, (entryOutcome ReadDir pathJoin errorText
                                      extractHostsFromGoPackage detectorsRoot opts
                                      e).1.1) entries))) as Hnd'.
    { rewrite Hperm. eapply sublist_NoDup; [exact Hnd|]. apply outcome_names. }
    assert (i = j); [|lia].
    apply (NoDup_lookup _ i j (THDetector.DirName a) Hnd');
      rewrite list_lookup_fmap; [by rewrite Ha | by rewrite Hb, Heq].
  - intros s. rewrite sortStrings_elem_of, list_elem_of_bind. split.
    + intros (e & Hs & He). apply outcome_skipped in Hs as (Hdir & err & -> & Hcase).
      by exists e, err.
    + intros (e & err & He & Hdir & -> & Hcase). exists e. split; [|done].
      apply outcome_skipped. split; [done|]. by exists err.
  - apply list_bind_ext; [|done]. intros e. apply outcome_warnings.
Qed.

Lemma extractTrufflehogDetectors_order_witness :
  ∃ detectors skipped warnings,
    extractTrufflehogDetectors sampleReadDir sampleJoin (λ err, err) sampleHosts
      insertionSort "detectors" (THExtractOptions.mk false)
    = Ok (detectors, skipped, warnings)
    ∧ (∀ i j a b, i < j → detectors !! i = Some a → detectors !! j = Some b →
         String.le (THDetector.DirName a) (THDetector.DirName b)
         ∧ (NoDup (DirEntry.Name <$>
                     [ DirEntry.mk "stripeapikey" true; DirEntry.mk "README.md" false;
                       DirEntry.mk "github" true; DirEntry.mk "nohosts" true;
                       DirEntry.mk "locked" true ]) →
            THDetector.DirName a ≠ THDetector.DirName b))
    ∧ Sorted String.le skipped
    ∧ (∀ s, s ∈ skipped ↔
         ∃ e err,
           e ∈ [ DirEntry.mk "stripeapikey" true; DirEntry.mk "README.md" false;
                 DirEntry.mk "github" true; DirEntry.mk "nohosts" true;
                 DirEntry.mk "locked" true ]
           ∧ DirEntry.IsDir e = true
           ∧ s = DirEntry.Name e +:+ ": " +:+ err
           ∧ (chooseHighestVersionDir sampleReadDir sampleJoin
                (sampleJoin "detectors" (DirEntry.Name e)) = Err err
              ∨ ∃ parseDir hosts ws,
                  chooseHighestVersionDir sampleReadDir sampleJoin
                    (sampleJoin "detectors" (DirEntry.Name e)) = Ok parseDir
                  ∧ sampleHosts parseDir (THExtractOptions.mk false)
                    = (hosts, ws, Some err)))
    ∧ warnings
      = [ DirEntry.mk "stripeapikey" true; DirEntry.mk "README.md" false;
          DirEntry.mk "github" true; DirEntry.mk "nohosts" true;
          DirEntry.mk "locked" true ] ≫= (λ e,
          if DirEntry.IsDir e then
            match chooseHighestVersionDir sampleReadDir sampleJoin
                    (sampleJoin "detectors" (DirEntry.Name e)) with
            | Ok parseDir => (sampleHosts parseDir (THExtractOptions.mk false)).1.2
            | Err _ => []
            end
          else []).
Proof.
  apply (extractTrufflehogDetectors_order sampleReadDir sampleJoin (λ err, err)
           sampleHosts insertionSort "detectors" (THExtractOptions.mk false) _
           insertionSort_perm
           (λ l, insertionSort_noInversion lessDirName lessDirName_asym
                   lessDirName_negtrans l)).
  reflexivity.
Defined.

(** ** From the detectors directory to the merged dataset *)

Lemma extractTrufflehogDetectors_returns {error : Type}
    (ReadDir : string → result error (list DirEntry.t))
    (pathJoin : string → string → string) (errorText : error → string)
    (extractHostsFromGoPackage :
       string → THExtractOptions.t → list string * list error * option error)
    (sortSlice : ∀ A : Type, (A → A → bool) → list A → list A)
    (detectorsRoot : string) (opts : THExtractOptions.t) (entries : list DirEntry.t) :
  (∀ A less l, sortSlice A less l ≡ₚ l) →
  ReadDir detectorsRoot = Ok entries →
  ∃ detectors skipped warnings,
    extractTrufflehogDetectors ReadDir pathJoin errorText extractHostsFromGoPackage
      sortSlice detectorsRoot opts = Ok (detectors, skipped, warnings)
    ∧ (∀ d, d ∈ detectors → THDetector.Hosts d ≠ [])
    ∧ (NoDup (DirEntry.Name <$> entries) → NoDup (THDetector.DirName <$> detectors)).
Proof.
  intros Hperm Hread. unfold extractTrufflehogDetectors. rewrite Hread.
  rewrite scan_fold, !app_nil_l. eexists _, _, _. split; [done|]. split.
  - intros d Hd. rewrite Hperm in Hd. apply list_elem_of_omap in Hd as (e & _ & Hd).
    apply outcome_detector in Hd as (_ & parseDir & hosts & ws & _ & _ & Hne & ->).
    simpl. intros Hnil. by apply sortStrings_nil_inv in Hnil.
  - intros Hnd. rewrite Hperm. eapply sublist_NoDup; [exact Hnd|].
    apply outcome_names.
Qed.

(** X24.  What [main] does with the detectors directory: the detectors
    that [extractTrufflehogDetectors] returns are given to [combine].
    Every one of them has hosts, so in the merged dataset a service is
    without hosts exactly when no tier matched it, and every host-only
    entry has hosts.  When the entries of the directory have distinct
    names, no two host-only entries share a name, and each detector is
    either listed by a service or a host-only entry, never both. *)
Theorem extract_then_combine {error : Type}
    (ReadDir : string → result error (list DirEntry.t))
    (pathJoin : string → string → string) (errorText : error → string)
    (extractHostsFromGoPackage :
       string → THExtractOptions.t → list string * list error * option error)
    (sortSlice : ∀ A : Type, (A → A → bool) → list A → list A)
    (mapOrder : nat → list string → list string) (now : Time)
    (detectorsRoot : string) (opts : THExtractOptions.t)
    (entries : list DirEntry.t) (glRules : list GLRule.t) :
  (∀ A less l, sortSlice A less l ≡ₚ l) →
  (∀ n l, mapOrder n l ≡ₚ l) →
  ReadDir detectorsRoot = Ok entries →
  ∃ detectors skipped warnings out,
    extractTrufflehogDetectors ReadDir pathJoin errorText extractHostsFromGoPackage
      sortSlice detectorsRoot opts = Ok (detectors, skipped, warnings)
    ∧ combine sortSlice mapOrder now detectors glRules = Some out
    ∧ (∀ svc, svc ∈ CombinedExport.Services out →
         CombinedSvc.Hosts svc = [] ↔ CombinedSvc.MatchType svc = "")
    ∧ (∀ e, e ∈ CombinedExport.THOnlyHosts out → THOnlyEntry.Hosts e ≠ [])
    ∧ (∀ d, d ∈ detectors →
         THDetector.DirName d ∈ CombinedExport.Services out ≫= CombinedSvc.MatchedTH
         ↔ THDetector.DirName d
           ∉ THOnlyEntry.DirName <$> CombinedExport.THOnlyHosts out)
    ∧ (NoDup (DirEntry.Name <$> entries) →
       NoDup (THOnlyEntry.DirName <$> CombinedExport.THOnlyHosts out)).
Proof.
  intros Hperm Horder Hread.
  destruct (extractTrufflehogDetectors_returns ReadDir pathJoin errorText
              extractHostsFromGoPackage sortSlice detectorsRoot opts entries
              Hperm Hread) as (ds & sk & ws & Hx & Hhosts & Hnames).
  destruct (combine_returns sortSlice mapOrder now ds glRules) as (st & Hrun & Hout).
  exists ds, sk, ws. eexists. split; [exact Hx|]. split; [exact Hout|].
  pose proof (combine_THOnly_perm _ _ _ _ _ _ Hperm Hout) as Honly.
  set (out := CombinedExport.mk _ _ _ _ _) in *.
  split; [|split; [|split]].
  - intros svc Hsvc.
    destruct (combine_service_inv _ _ _ _ _ _ _ Hout Hsvc) as (r & rs & j & Hrs & ->).
    by apply groupService_matched.
  - intros e He. rewrite Honly in He.
    apply list_elem_of_fmap in He as (d & -> & Hd).
    apply list_elem_of_filter in Hd as [_ Hd]. simpl. by apply Hhosts.
  - intros d Hd. rewrite Honly, <- list_fmap_compose. split.
    + intros Hlisted Hin. apply list_elem_of_fmap in Hin as (d' & Heq & Hd').
      apply list_elem_of_filter in Hd' as [Hno _]. simpl in Heq.
      rewrite <- Heq in Hno. done.
    + intros Hnot.
      destruct (decide (THDetector.DirName d
                        ∈ CombinedExport.Services out ≫= CombinedSvc.MatchedTH))
        as [|Hno]; [done|].
      exfalso. apply Hnot. apply list_elem_of_fmap. exists d. split; [done|].
      by apply list_elem_of_filter.
  - intros Hnd. rewrite Honly, <- list_fmap_compose.
    eapply sublist_NoDup; [exact (Hnames Hnd)|].
    apply fmap_sublist. apply sublist_filter.
Qed.

Lemma extract_then_combine_witness :
  ∃ detectors skipped warnings out,
    extractTrufflehogDetectors sampleReadDir sampleJoin (λ err, err) sampleHosts
      insertionSort "detectors" (THExtractOptions.mk false)
    = Ok (detectors, skipped, warnings)
    ∧ combine insertionSort keepOrder 0%Z detectors sampleRules = Some out
    ∧ (∀ svc, svc ∈ CombinedExport.Services out →
         CombinedSvc.Hosts svc = [] ↔ CombinedSvc.MatchType svc = "")
    ∧ (∀ e, e ∈ CombinedExport.THOnlyHosts out → THOnlyEntry.Hosts e ≠ [])
    ∧ (∀ d, d ∈ detectors →
         THDetector.DirName d ∈ CombinedExport.Services out ≫= CombinedSvc.MatchedTH
         ↔ THDetector.DirName d
           ∉ THOnlyEntry.DirName <$> CombinedExport.THOnlyHosts out)
    ∧ (NoDup (DirEntry.Name <$>
                [ DirEntry.mk "stripeapikey" true; DirEntry.mk "README.md" false;
                  DirEntry.mk "github" true; DirEntry.mk "nohosts" true;
                  DirEntry.mk "locked" true ]) →
       NoDup (THOnlyEntry.DirName <$> CombinedExport.THOnlyHosts out)).
Proof.
  apply (extract_then_combine sampleReadDir sampleJoin (λ err, err) sampleHosts
           insertionSort keepOrder 0%Z "detectors" (THExtractOptions.mk false)
           _ sampleRules insertionSort_perm).
  - intros n l. reflexivity.
  - reflexivity.
Defined.

(** ** Writing the output file *)

(** X25.  What [writeJSONAtomic] never does.  Without [force] it makes
    no call but the [Stat] when the output is there already, and it
    removes nothing but its own temporary file.  It renames only the
    temporary file it made, only onto the output path, and only after
    the mode was set, the value encoded, and the file synced and closed
    without error; it returns no error exactly when that rename
    succeeded.  Whenever it made a temporary file and returns an error,
    its last call removes that file.  With [force] the old output is
    removed before the rename, so a rename that fails leaves neither the
    old nor the new file. *)
Theorem writeJSONAtomic_safe {error : Type} (os : OS.t error)
    (pathDir pathBase : string → string) (errorText : error → string)
    (outPath : string) (force : bool) :
  let run := writeJSONAtomic os pathDir pathBase errorText outPath force in
  let dir := pathDir outPath in
  let pattern := pathBase outPath +:+ ".tmp-*" in
  (force = false ∧ OS.Stat os outPath = None →
   run.1 = [CallStat outPath] ∧ run.2 ≠ None)
  ∧ (∀ old new, CallRename old new ∈ run.1 →
       new = outPath ∧ OS.CreateTemp os dir pattern = Ok old
       ∧ OS.Chmod os old = None ∧ OS.Encode os old = None
       ∧ OS.Sync os old = None ∧ OS.Close os old = None)
  ∧ (run.2 = None ↔
     ∃ tmp, CallRename tmp outPath ∈ run.1 ∧ OS.Rename os tmp outPath = None)
  ∧ (∀ tmp, CallCreateTemp dir pattern ∈ run.1 →
       OS.CreateTemp os dir pattern = Ok tmp → run.2 ≠ None →
       last run.1 = Some (CallRemove tmp))
  ∧ (force = false → ∀ p, CallRemove p ∈ run.1 →
       OS.CreateTemp os dir pattern = Ok p)
  ∧ (∀ tmp err, force = true → CallRename tmp outPath ∈ run.1 →
       OS.Rename os tmp outPath = Some err →
       run.2 = Some ("rename temp output: " +:+ errorText err)
       ∧ ∃ calls,
           run.1 = calls ++ [CallRemove outPath; CallRename tmp outPath;
                             CallRemove tmp]).
Proof.
  cbv zeta. unfold writeJSONAtomic, createAndWrite, writeTemp.
  generalize (pathDir outPath) (pathBase outPath +:+ ".tmp-*"). intros dir pattern.
  destruct force.
  - destruct (OS.CreateTemp os dir pattern) as [tmp|e0] eqn:Hcreate;
      [|simpl; repeat split; intros; set_unfold; naive_solver].
    destruct (OS.Chmod os tmp) as [e1|] eqn:Hchmod;
      [simpl; repeat split; intros; set_unfold; naive_solver|].
    destruct (OS.Encode os tmp) as [e2|] eqn:Hencode;
      [simpl; repeat split; intros; set_unfold; naive_solver|].
    destruct (OS.Sync os tmp) as [e3|] eqn:Hsync;
      [simpl; repeat split; intros; set_unfold; naive_solver|].
    destruct (OS.Close os tmp) as [e4|] eqn:Hclose;
      [simpl; repeat split; intros; set_unfold; naive_solver|].
    destruct (OS.Rename os tmp outPath) as [e5|] eqn:Hrename.
    + simpl. split; [naive_solver|]. split; [set_unfold; naive_solver|].
      split; [set_unfold; naive_solver|]. split; [naive_solver|].
      split; [done|]. intros tmp' err _ Hin Herr. set_unfold.
      assert (tmp' = tmp) as -> by naive_solver.
      rewrite Hrename in Herr. injection Herr as <-. split; [done|].
      by exists [CallCreateTemp dir pattern; CallChmod tmp 420; CallEncode tmp;
                 CallSync tmp; CallClose tmp].
    + destruct (OS.Open os dir); simpl;
        (split; [naive_solver|]); (split; [set_unfold; naive_solver|]);
        (split; [set_unfold; naive_solver|]); (split; [naive_solver|]);
        (split; [done|]); intros tmp' err _ Hin Herr; set_unfold;
        assert (tmp' = tmp) as -> by naive_solver; congruence.
  - destruct (OS.Stat os outPath) as [e|] eqn:Hstat;
      [|simpl; repeat split; intros; set_unfold; naive_solver].
    destruct (OS.IsNotExist os e);
      [|simpl; repeat split; intros; set_unfold; naive_solver].
    destruct (OS.CreateTemp os dir pattern) as [tmp|e0] eqn:Hcreate;
      [|simpl; repeat split; intros; set_unfold; naive_solver].
    destruct (OS.Chmod os tmp) as [e1|] eqn:Hchmod;
      [simpl; repeat split; intros; set_unfold; naive_solver|].
    destruct (OS.Encode os tmp) as [e2|] eqn:Hencode;
      [simpl; repeat split; intros; set_unfold; naive_solver|].
    destruct (OS.Sync os tmp) as [e3|] eqn:Hsync;
      [simpl; repeat split; intros; set_unfold; naive_solver|].
    destruct (OS.Close os tmp) as [e4|] eqn:Hclose;
      [simpl; repeat split; intros; set_unfold; naive_solver|].
    destruct (OS.Rename os tmp outPath) as [e5|] eqn:Hrename;
      [simpl; repeat split; intros; set_unfold; naive_solver|].
    destruct (OS.Open os dir); simpl; repeat split; intros; set_unfold; naive_solver.
Qed.

(** A first run onto a path that is free: the calls, in order. *)
Example writeJSONAtomic_sample :
  writeJSONAtomic sampleOS (λ _, "out") (λ _, "out.json") (λ err, err)
    "out/out.json" false
  = ([ CallStat "out/out.json"; CallCreateTemp "out" "out.json.tmp-*";
       CallChmod "out/out.json.tmp-1" 420; CallEncode "out/out.json.tmp-1";
       CallSync "out/out.json.tmp-1"; CallClose "out/out.json.tmp-1";
       CallRename "out/out.json.tmp-1" "out/out.json";
       CallOpen "out"; CallDirSync "out"; CallDirClose "out" ], None).
Proof. reflexivity. Qed.
